(** * Hybrid tool-call resolution: validation, consensus, decomposition, routing

    A shallow embedding of [generate_hybrid] and its local helpers
    ([_coerce], [_validate], [_fingerprint], [_self_consistent_with_first],
    [_on_device], [_decompose], [_resolve]) from
    [demo_whatsapp_voice_stream.py], followed by the properties the design
    document states about them.

    Conventions of the embedding.
    - A Python [str] is a Rocq [string]; a character is read as the code
      point of its 8-bit code (0..255).
    - A Python [float] is a binary64 [PrimFloat.float]; an [int] is a [Z].
    - A latency ([total_time_ms]) is a binary64 [float], added with the
      rounding of binary64 in the order in which the code adds; a
      latency that arrives as an [int], as the [0] of a reply that is not
      JSON does, is read as the float of its value.
      A confidence is an exact rational: only [>=] and [>] are used on
      it.
    - Python exceptions are values of [exn]; a computation that may raise
      returns a [result]. *)

From Stdlib Require Import ZArith QArith Uint63 Floats.PrimFloat Ascii String DecimalString.
From stdpp Require Import gmap strings list sorting lexico.

Local Open Scope string_scope.
Local Open Scope list_scope.
Local Open Scope Z_scope.

(** ** Python values, exceptions and the library functions the code calls *)

Module Py.

(** The exception classes that can reach the code under study.
    [JSONDecodeError] is a subclass of [ValueError]; every class here is a
    subclass of [Exception]. *)
Inductive exn : Set :=
  | ValueError
  | TypeError
  | JSONDecodeError
  | RecursionError
  | OtherException.

(** [isinstance(e, cls)] for [cls] an exception class. *)
Definition subclass (e cls : exn) : bool :=
  match e, cls with
  | ValueError, ValueError | JSONDecodeError, ValueError
  | JSONDecodeError, JSONDecodeError
  | TypeError, TypeError
  | RecursionError, RecursionError
  | OtherException, OtherException => true
  | _, _ => false
  end.

Inductive result (A : Type) : Type :=
  | Ret (a : A)
  | Raise (e : exn).
Arguments Ret {A} a.
Arguments Raise {A} e.

#[global] Instance result_ret : MRet result := @Ret.
#[global] Instance result_bind : MBind result := fun A B f m =>
  match m with
  | Ret a => f a
  | Raise e => Raise e
  end.

(** [try: m except (c1, ..., cn): h]. *)
Definition try_except {A} (m : result A) (classes : list exn) (h : result A) : result A :=
  match m with
  | Ret a => Ret a
  | Raise e => if existsb (subclass e) classes then h else Raise e
  end.

(** [try: m except Exception: h]. *)
Definition try_except_Exception {A} (m : result A) (h : result A) : result A :=
  match m with
  | Ret a => Ret a
  | Raise _ => h
  end.

(** A JSON-like Python value, as [json.loads] builds them. *)
#[warnings="-register-all"]
Inductive value : Type :=
  | VNone
  | VBool (b : bool)
  | VInt (z : Z)
  | VFloat (x : float)
  | VStr (s : string)
  | VList (l : list value)
  | VDict (d : list (string * value)).

(** [bool(v)]. *)
Definition truthy (v : value) : bool :=
  match v with
  | VNone => false
  | VBool b => b
  | VInt z => negb (z =? 0)%Z
  | VFloat x => negb (PrimFloat.eqb x 0%float)
  | VStr s => negb (String.eqb s "")
  | VList l => match l with [] => false | _ => true end
  | VDict d => match d with [] => false | _ => true end
  end.

(** *** Characters and strings *)

Definition code (c : ascii) : N := N_of_ascii c.

(** [c.isspace()], which is also what [\s] matches in a [str] pattern:
    TAB..CR, FS..US, SPACE, NEL and NBSP among the codes below 256. *)
Definition is_space (c : ascii) : bool :=
  let n := code c in
  ((9 <=? n) && (n <=? 13) || (28 <=? n) && (n <=? 32)
   || (n =? 133) || (n =? 160))%N.

(** [c.lower()] for one character: A-Z and the Latin-1 capitals. *)
Definition lower_char (c : ascii) : ascii :=
  let n := code c in
  if ((65 <=? n) && (n <=? 90)
      || (192 <=? n) && (n <=? 222) && negb (n =? 215))%N
  then ascii_of_N (n + 32) else c.

(** [s.lower()]. *)
Fixpoint lower (s : string) : string :=
  match s with
  | EmptyString => EmptyString
  | String c r => String (lower_char c) (lower r)
  end.

(** [s.lstrip()]. *)
Fixpoint lstrip (s : string) : string :=
  match s with
  | String c r => if is_space c then lstrip r else s
  | EmptyString => EmptyString
  end.

(** [s.rstrip()]: the characters of [s] up to its last non-blank one. *)
Fixpoint rstrip (s : string) : string :=
  match s with
  | EmptyString => EmptyString
  | String c r =>
      match rstrip r with
      | EmptyString => if is_space c then EmptyString else String c EmptyString
      | r' => String c r'
      end
  end.

(** [s.strip()]. *)
Definition strip (s : string) : string := rstrip (lstrip s).

(** [s.rstrip(chars)]: drop the trailing characters that occur in [chars]. *)
Fixpoint rstrip_chars (chars : list ascii) (s : string) : string :=
  match s with
  | EmptyString => EmptyString
  | String c r =>
      match rstrip_chars chars r with
      | EmptyString =>
          if existsb (Ascii.eqb c) chars then EmptyString else String c EmptyString
      | r' => String c r'
      end
  end.

(** [s.split()]: the maximal runs of non-blank characters. [w] is the
    word being read, in reverse. *)
Fixpoint split_from (w : list ascii) (s : string) : list string :=
  match s with
  | EmptyString =>
      match w with [] => [] | _ => [string_of_list_ascii (rev w)] end
  | String c r =>
      if is_space c
      then match w with
           | [] => split_from [] r
           | _ => string_of_list_ascii (rev w) :: split_from [] r
           end
      else split_from (c :: w) r
  end.

Definition split (s : string) : list string := split_from [] s.

(** [str(z)] for an [int]. *)
Definition str_of_int (z : Z) : string := NilZero.string_of_int (Z.to_int z).

(** The library functions whose results the embedding does not compute:
    it only relies on what they raise.
    - [int_of_str s] is [int(s)] and [float_of_str s] is [float(s)];
    - [json_parse s] is [json.loads(s)] for a [str];
    - [repr_of v] is [repr(v)] for [v] a float, a list or a dict. *)
Record builtins : Type := Builtins {
  int_of_str : string -> result Z;
  float_of_str : string -> result float;
  json_parse : string -> result value;
  repr_of : value -> string;
}.

(** [str(v)]. *)
Definition str (B : builtins) (v : value) : string :=
  match v with
  | VStr s => s
  | VNone => "None"
  | VBool true => "True"
  | VBool false => "False"
  | VInt z => str_of_int z
  | VFloat _ | VList _ | VDict _ => repr_of B v
  end.

(** [json.loads(v)]: a [TypeError] unless [v] is a [str]. *)
Definition json_loads (B : builtins) (v : value) : result value :=
  match v with
  | VStr s => json_parse B s
  | _ => Raise TypeError
  end.

(** [int] and [float] raise nothing but [ValueError] on a [str]. *)
Definition documented (B : builtins) : Prop :=
  (forall s e, int_of_str B s = Raise e -> subclass e ValueError = true) /\
  (forall s e, float_of_str B s = Raise e -> subclass e ValueError = true).

End Py.

(** ** A partial interpretation of the library functions

    [plain] computes [int], [float], [json.loads] and [repr] on the
    inputs listed with each function and reports every other string as
    malformed. It is what the concrete examples below are run with; the
    general statements hold for every interpretation. *)

Module Plain.

Import Py.

Definition digit_of (c : ascii) : option Z :=
  let n := code c in
  if ((48 <=? n) && (n <=? 57))%N then Some (Z.of_N n - 48) else None.

(** Decimal digits with single underscores between them. *)
Fixpoint digits (acc : Z) (after_digit : bool) (s : string) : option Z :=
  match s with
  | EmptyString => if after_digit then Some acc else None
  | String c r =>
      match digit_of c with
      | Some d => digits (10 * acc + d) true r
      | None =>
          if Ascii.eqb c "_" && after_digit then digits acc false r else None
      end
  end.

(** An optional sign in front of [body]. *)
Definition signed {A} (body : string -> option A) (neg : A -> A) (s : string)
    : option A :=
  match s with
  | String "+" r => body r
  | String "-" r => neg <$> body r
  | _ => body s
  end.

(** [int(s)] on decimal literals. *)
Definition int_literal (s : string) : result Z :=
  match signed (digits 0 false) Z.opp (strip s) with
  | Some z => Ret z
  | None => Raise ValueError
  end.

(** [float(s)] on [nan], [inf], [infinity] and on decimal integer
    literals below 2^63. *)
Definition float_literal (s : string) : result float :=
  let body (s : string) : option float :=
    if String.eqb s "nan" then Some nan
    else if String.eqb s "inf" || String.eqb s "infinity" then Some infinity
    else match digits 0 false s with
         | Some z =>
             if z <? 2 ^ 63 then Some (PrimFloat.of_uint63 (Uint63.of_Z z))
             else None
         | None => None
         end in
  match signed body PrimFloat.opp (lower (strip s)) with
  | Some x => Ret x
  | None => Raise ValueError
  end.

(** [json.loads(s)] on [null], [true], [false], [[]] and decimal integer
    literals. *)
Definition json_literal (s : string) : result value :=
  let s := strip s in
  if String.eqb s "null" then Ret VNone
  else if String.eqb s "true" then Ret (VBool true)
  else if String.eqb s "false" then Ret (VBool false)
  else if String.eqb s "[]" then Ret (VList [])
  else match signed (digits 0 false) Z.opp s with
       | Some z => Ret (VInt z)
       | None => Raise JSONDecodeError
       end.

(** [repr(v)] on [nan], [inf], [-inf], [[]] and [{}]. *)
Definition repr_literal (v : value) : string :=
  match v with
  | VFloat x =>
      if PrimFloat.is_nan x then "nan"
      else if PrimFloat.eqb x infinity then "inf"
      else if PrimFloat.eqb x neg_infinity then "-inf"
      else "0.0"
  | VList _ => "[]"
  | _ => "{}"
  end.

Definition plain : builtins :=
  Builtins int_literal float_literal json_literal repr_literal.

End Plain.

Import Py.

(** ** Tool declarations and calls *)

(** [t["parameters"]]: [properties] maps a parameter name to its declared
    ["type"]; both keys may be absent ([schema.get(..., default)]). *)
Record schema : Type := Schema {
  schema_properties : option (gmap string string);
  schema_required : option (list string);
}.

(** One entry of [tools]. *)
Record tool : Type := Tool {
  tool_name : string;
  tool_parameters : option schema;
}.

(** One entry of [function_calls]: [{"name": ..., "arguments": {...}}],
    with a [str] for a name. The arguments are the items of a [dict] in
    insertion order, so their keys are pairwise distinct. The calls
    whose name is any value are those of [Raw] below. *)
Record call : Type := Call {
  name : string;
  arguments : list (string * value);
}.

(** ** Schema validation and coercion *)

Module Validator.

(** [isinstance(v, (int, float))]; [bool] is a subclass of [int]. *)
Definition is_number (v : value) : bool :=
  match v with
  | VBool _ | VInt _ | VFloat _ => true
  | _ => false
  end.

(** [v < -1000] for a number [v]. *)
Definition below_range (v : value) : bool :=
  match v with
  | VBool b => Z.b2z b <? -1000
  | VInt z => z <? -1000
  | VFloat x => PrimFloat.ltb x (-1000)%float
  | _ => false
  end.

(** [v > 1_000_000] for a number [v]. *)
Definition above_range (v : value) : bool :=
  match v with
  | VBool b => 1000000 <? Z.b2z b
  | VInt z => 1000000 <? z
  | VFloat x => PrimFloat.ltb 1000000%float x
  | _ => false
  end.

Definition numeric_type (ty : string) : bool :=
  bool_decide (ty ∈ ["integer"; "number"]).

Section WithBuiltins.
Context (B : builtins).

Definition _coerce (value : value) (expected_type : string) : result Py.value :=
  if String.eqb expected_type "integer" then
    match value with
    | VInt _ => Ret value
    | _ =>
        try_except
          (z ← int_of_str B (strip (str B value)); Ret (VInt z))
          [ValueError; TypeError]
          (Ret value)
    end
  else if String.eqb expected_type "number" then
    match value with
    | VInt _ | VFloat _ => Ret value
    | _ =>
        try_except
          (x ← float_of_str B (strip (str B value)); Ret (VFloat x))
          [ValueError; TypeError]
          (Ret value)
    end
  else if String.eqb expected_type "boolean" then
    match value with
    | VBool _ => Ret value
    | VStr s => Ret (VBool (bool_decide (lower s ∈ ["true"; "yes"; "1"])))
    | _ => Ret (VBool (truthy value))
    end
  else if String.eqb expected_type "string" then
    match value with
    | VStr _ => Ret value
    | _ => Ret (VStr (str B value))
    end
  else if String.eqb expected_type "array" then
    match value with
    | VList _ => Ret value
    | _ =>
        try_except_Exception
          (parsed ← json_loads B value;
           Ret (match parsed with VList _ => parsed | _ => VList [value] end))
          (Ret (VList [value]))
    end
  else Ret value.

(** The test that makes [_validate] give up on a coerced argument. *)
Definition rejected (ty : string) (coerced : value) : bool :=
  numeric_type ty && is_number coerced
  && (below_range coerced || above_range coerced).

(** The loop [for k, v in args.items()]: [None] when it leaves
    [_validate] through [return calls, False], the finished
    [corrected_args] otherwise. *)
Fixpoint coerce_arguments (props : gmap string string)
    (args : list (string * value)) : result (option (list (string * value))) :=
  match args with
  | [] => Ret (Some [])
  | (k, v) :: args' =>
      match props !! k with
      | Some ty =>
          coerced ← _coerce v ty;
          if rejected ty coerced then Ret None
          else rest ← coerce_arguments props args';
               Ret (option_map (cons (k, coerced)) rest)
      | None =>
          rest ← coerce_arguments props args';
          Ret (option_map (cons (k, v)) rest)
      end
  end.

(** [field in args]. *)
Definition has_key (field : string) (args : list (string * value)) : bool :=
  bool_decide (field ∈ args.*1).

(** The body of [for call in calls] for one call. *)
Definition validate_call (tool_map : gmap string tool) (c : call)
    : result (option call) :=
  match tool_map !! name c with
  | None => Ret None
  | Some t =>
      let schema := default (Schema None None) (tool_parameters t) in
      let props := default ∅ (schema_properties schema) in
      let required := default [] (schema_required schema) in
      let args := arguments c in
      if forallb (fun field => has_key field args) required then
        corrected_args ← coerce_arguments props args;
        Ret (option_map (Call (name c)) corrected_args)
      else Ret None
  end.

(** The loop [for call in calls]: [None] when some call makes
    [_validate] return early, the finished [corrected] otherwise. *)
Fixpoint validate_calls (tool_map : gmap string tool) (calls : list call)
    : result (option (list call)) :=
  match calls with
  | [] => Ret (Some [])
  | c :: calls' =>
      r ← validate_call tool_map c;
      match r with
      | None => Ret None
      | Some c' =>
          rest ← validate_calls tool_map calls';
          Ret (option_map (cons c') rest)
      end
  end.

(** [{t["name"]: t for t in tool_list}]: a later tool replaces an earlier
    one of the same name. *)
Definition tool_map_of (tool_list : list tool) : gmap string tool :=
  foldl (fun m t => <[tool_name t := t]> m) ∅ tool_list.

Definition _validate (calls : list call) (tool_list : list tool)
    : result (list call * bool) :=
  match calls with
  | [] => Ret (calls, false)
  | _ =>
      r ← validate_calls (tool_map_of tool_list) calls;
      Ret (match r with
           | Some corrected => (corrected, true)
           | None => (calls, false)
           end)
  end.

End WithBuiltins.

End Validator.

(** ** Validation of the calls as they arrive *)

(** [_validate] on the entries of [function_calls] as [json.loads]
    delivers them: dictionaries in which the value under ["name"] is
    any value at all. [Validator] is this code on the calls whose name
    is a [str]. *)
Module Raw.

Import Validator.

(** One entry of [function_calls] as it arrives: [call.get("name")],
    which is [None] when the key is absent, and the items of
    [call.get("arguments", {})], a mapping. *)
Record raw_call : Type := RawCall {
  raw_name : value;
  raw_arguments : list (string * value);
}.

(** A call whose name is a [str]. *)
Definition raw_of (c : call) : raw_call := RawCall (VStr (name c)) (arguments c).

(** [hash(v)] returns a number: a list and a dict are unhashable. *)
Definition hashable (v : value) : bool :=
  match v with
  | VList _ | VDict _ => false
  | _ => true
  end.

(** The test [name not in tool_map], and [tool_map[name]] when it
    fails, for a [tool_map] whose keys are [str]: the test hashes
    [name], which raises [TypeError] on a list and on a dict; a value
    that is no [str] equals no key. *)
Definition find_tool (tool_map : gmap string tool) (name : value)
    : result (option tool) :=
  match name with
  | VStr n => Ret (tool_map !! n)
  | VList _ | VDict _ => Raise TypeError
  | _ => Ret None
  end.

Section WithBuiltins.
Context (B : builtins).

(** The body of [for call in calls] for one call. *)
Definition validate_raw_call (tool_map : gmap string tool) (c : raw_call)
    : result (option raw_call) :=
  t ← find_tool tool_map (raw_name c);
  match t with
  | None => Ret None
  | Some t =>
      let schema := default (Schema None None) (tool_parameters t) in
      let props := default ∅ (schema_properties schema) in
      let required := default [] (schema_required schema) in
      let args := raw_arguments c in
      if forallb (fun field => has_key field args) required then
        corrected_args ← coerce_arguments B props args;
        Ret (option_map (RawCall (raw_name c)) corrected_args)
      else Ret None
  end.

(** The loop [for call in calls]: [None] when some call makes
    [_validate] return early, the finished [corrected] otherwise. *)
Fixpoint validate_raw_calls (tool_map : gmap string tool) (calls : list raw_call)
    : result (option (list raw_call)) :=
  match calls with
  | [] => Ret (Some [])
  | c :: calls' =>
      r ← validate_raw_call tool_map c;
      match r with
      | None => Ret None
      | Some c' =>
          rest ← validate_raw_calls tool_map calls';
          Ret (option_map (cons c') rest)
      end
  end.

Definition _validate (calls : list raw_call) (tool_list : list tool)
    : result (list raw_call * bool) :=
  match calls with
  | [] => Ret (calls, false)
  | _ =>
      r ← validate_raw_calls (tool_map_of tool_list) calls;
      Ret (match r with
           | Some corrected => (corrected, true)
           | None => (calls, false)
           end)
  end.

End WithBuiltins.

End Raw.

(** ** Fingerprints and majority consensus *)

Module Consensus.

(** [s1 < s2] on [str]: lexicographic on code points. *)
#[global] Instance string_lexico : Lexico string := fun s1 s2 =>
  lexico (code <$> list_ascii_of_string s1) (code <$> list_ascii_of_string s2).

#[global] Instance string_lexico_po : StrictOrder (@lexico string _).
Proof.
  split.
  - intros s H. unfold lexico, string_lexico in H.
    by apply irreflexivity in H; [|apply _].
  - intros s1 s2 s3. unfold lexico, string_lexico. apply transitivity.
Defined.

#[global] Instance string_lexico_trichotomy : TrichotomyT (@lexico string _).
Proof.
  assert (Hinj : forall l1 l2 : list ascii, code <$> l1 = code <$> l2 -> l1 = l2).
  { induction l1 as [|a l1 IH]; intros [|b l2]; simpl; try done.
    intros [= H1 H2]. f_equal; [|by apply IH].
    unfold code in H1.
    rewrite <- (ascii_N_embedding a), <- (ascii_N_embedding b). by rewrite H1. }
  intros s1 s2. unfold lexico, string_lexico.
  destruct (trichotomyT lexico (code <$> list_ascii_of_string s1)
              (code <$> list_ascii_of_string s2)) as [[H|H]|H].
  - left; left; exact H.
  - left; right.
    rewrite <- (string_of_list_ascii_of_string s1),
            <- (string_of_list_ascii_of_string s2).
    f_equal. by apply Hinj.
  - right; exact H.
Defined.

(** With [<] a strict total order, "not after" is a total order. *)
Section NotAfter.
Context `{Lexico A, !TrichotomyT (@lexico A _), !StrictOrder (@lexico A _)}.

#[global] Instance not_after_total : Total (fun x y : A => ¬ lexico y x).
Proof.
  intros x y. destruct (trichotomyT lexico x y) as [[Hxy| ->]|Hyx].
  - left. intros Hyx. by apply (irreflexivity lexico x); trans y.
  - left. apply irreflexivity, _.
  - right. intros Hxy. by apply (irreflexivity lexico x); trans y.
Qed.

#[global] Instance not_after_trans : Transitive (fun x y : A => ¬ lexico y x).
Proof.
  intros x y z Hxy Hyz Hzx.
  destruct (trichotomyT lexico x y) as [[H1| ->]|H1]; [|done..].
  apply Hyz. by trans x.
Qed.

#[global] Instance not_after_antisymm : AntiSymm (=) (fun x y : A => ¬ lexico y x).
Proof.
  intros x y Hxy Hyx. by destruct (trichotomyT lexico x y) as [[H1| ->]|H1].
Qed.

End NotAfter.

(** [sorted(xs)] for keys that [<] orders strictly and totally: the
    ordered rearrangement of [xs] (there is only one, so the sorting
    method does not show). *)
Definition sorted `{Lexico A, !TrichotomyT (@lexico A _), !StrictOrder (@lexico A _)}
    (xs : list A) : list A :=
  merge_sort (fun x y => ¬ lexico y x) xs.

(** One entry of a fingerprint: [(c["name"], tuple(sorted((k, str(v)) ...)))]. *)
Definition call_key (B : builtins) (c : call) : string * list (string * string) :=
  (name c, sorted ((fun kv => (kv.1, str B kv.2)) <$> arguments c)).

Definition _fingerprint (B : builtins) (calls : list call)
    : list (string * list (string * string)) :=
  sorted (call_key B <$> calls).

(** [Counter(keys)]: the distinct keys in order of first occurrence, each
    with its number of occurrences. *)
Fixpoint count_key `{EqDecision K} (k : K) (counts : list (K * nat)) : list (K * nat) :=
  match counts with
  | [] => [(k, 1%nat)]
  | (k', n) :: counts' =>
      if decide (k' = k) then (k', S n) :: counts'
      else (k', n) :: count_key k counts'
  end.

Definition Counter `{EqDecision K} (keys : list K) : list (K * nat) :=
  foldl (fun counts k => count_key k counts) [] keys.

(** [max(xs, key=key)] where [gt a b] is [key(a) > key(b)]: the first of
    the greatest items; [ValueError] on an empty sequence. *)
Definition max_by {A} (gt : A -> A -> bool) (xs : list A) : result A :=
  match xs with
  | [] => Raise ValueError
  | x :: xs' => Ret (foldl (fun best y => if gt y best then y else best) x xs')
  end.

(** [counts.most_common(1)]: the first entry with the greatest count, or
    the empty list. *)
Definition most_common_1 {K} (counts : list (K * nat)) : list (K * nat) :=
  match max_by (fun a b => (b.2 <? a.2)%nat) counts with
  | Ret best => [best]
  | Raise _ => []
  end.

(** [xs[0]]: an [IndexError] ([OtherException]) when [xs] is empty. *)
Definition first_item {A} (xs : list A) : result A :=
  match xs with
  | x :: _ => Ret x
  | [] => Raise OtherException
  end.

(** [a > b] on confidences. *)
Definition Qgtb (a b : Q) : bool := negb (Qle_bool a b).

(** The part of [_self_consistent_with_first] that follows the sampling
    loop: from the pool [valid_runs] of [(corrected, confidence)] pairs
    to the pair that [best] is bound to, or [None]. *)
Definition majority (B : builtins) (valid_runs : list (list call * Q)) (n : Z)
    : result (option (list call * Q)) :=
  match valid_runs with
  | [] => Ret None
  | _ =>
      let counts := Counter ((fun r => _fingerprint B r.1) <$> valid_runs) in
      '(best_key, count) ← first_item (most_common_1 counts);
      if Z.max 2 (n / 2 + 1) <=? Z.of_nat count then
        best ← max_by (fun a b => Qgtb a.2 b.2)
                 (filter (fun r => _fingerprint B r.1 = best_key) valid_runs);
        Ret (Some best)
      else Ret None
  end.

End Consensus.

(** ** Splitting a compound request *)

Module Decomposer.

(** The length of the longest blank prefix of [s]: what a greedy [\s+]
    takes (no shorter choice can help the patterns below, whose next
    character is never blank). *)
Fixpoint blanks (s : string) : nat :=
  match s with
  | String c r => if is_space c then S (blanks r) else 0%nat
  | EmptyString => 0%nat
  end.

(** [s[n:]]. *)
Fixpoint drop_chars (n : nat) (s : string) : string :=
  match n, s with
  | S n', String _ r => drop_chars n' r
  | _, _ => s
  end.

(** Does [s] start with [and]?  With [ignore_case], in any letter case. *)
Definition starts_with_and (ignore_case : bool) (s : string) : bool :=
  match s with
  | String a (String n (String d _)) =>
      let fold := if ignore_case then lower_char else (fun c => c) in
      Ascii.eqb (fold a) "a" && Ascii.eqb (fold n) "n" && Ascii.eqb (fold d) "d"
  | _ => false
  end.

(** The length of the match of [\s+and\s+] at the start of [s], if any. *)
Definition match_and (ignore_case : bool) (s : string) : option nat :=
  let n := blanks s in
  let s1 := drop_chars n s in
  let m := blanks (drop_chars 3 s1) in
  if (0 <? n)%nat && starts_with_and ignore_case s1 && (0 <? m)%nat
  then Some (n + 3 + m)%nat else None.

(** The length of the match of [,\s+and\s+|,\s+] at the start of [s], if
    any: the first alternative is tried first. *)
Definition match_comma (s : string) : option nat :=
  match s with
  | String "," r =>
      match match_and false r with
      | Some n => Some (S n)
      | None => if (0 <? blanks r)%nat then Some (S (blanks r)) else None
      end
  | _ => None
  end.

(** [re.split(pattern, s)] for a pattern without groups whose matches
    are never empty; [matcher] gives the length of the match at the
    start of its argument. [skip] characters of a match remain to be
    passed over and [piece] is the current piece, in reverse. *)
Fixpoint re_split_from (matcher : string -> option nat) (skip : nat)
    (piece : list ascii) (s : string) : list string :=
  match skip with
  | S skip' =>
      match s with
      | String _ r => re_split_from matcher skip' piece r
      | EmptyString => [string_of_list_ascii (rev piece)]
      end
  | O =>
      match matcher s, s with
      | Some (S len), String _ r =>
          string_of_list_ascii (rev piece) :: re_split_from matcher len [] r
      | _, String c r => re_split_from matcher 0 (c :: piece) r
      | _, EmptyString => [string_of_list_ascii (rev piece)]
      end
  end.

Definition re_split (matcher : string -> option nat) (s : string) : list string :=
  re_split_from matcher 0 [] s.

(** [re.sub(r'(?i)^and\s+', '', p)]. *)
Definition strip_leading_and (p : string) : string :=
  if starts_with_and true p && (0 <? blanks (drop_chars 3 p))%nat
  then drop_chars (3 + blanks (drop_chars 3 p)) p
  else p.

Definition _VERBS : gset string := list_to_set [
  "set"; "send"; "play"; "get"; "find"; "search"; "look"; "check";
  "create"; "make"; "add"; "call"; "text"; "remind"; "show"; "turn";
  "open"; "close"; "start"; "stop"; "enable"; "disable"; "run";
  "schedule"; "book"; "cancel"; "delete"; "update"; "read"; "wake";
  "fetch"; "list"; "tell"; "ask"; "go"
].

(** [p.split()[0].lower().rstrip("'s") in _VERBS]; it is evaluated only
    where [p.split()] has an item. *)
Definition starts_with_verb (p : string) : bool :=
  match split p with
  | w :: _ => bool_decide (rstrip_chars ["'"%char; "s"%char] (lower w) ∈ _VERBS)
  | [] => false
  end.

Definition _decompose (message : string) : list string :=
  let parts := re_split match_comma message in
  let parts :=
    (fun p => strip (strip_leading_and p))
      <$> List.filter (fun p => negb (String.eqb (strip p) "")) parts in
  let parts :=
    if (length parts =? 1)%nat then
      let candidates := strip <$> re_split (match_and true) message in
      if (1 <? length candidates)%nat
         && forallb (fun p => (3 <=? length (split p))%nat) candidates
         && forallb starts_with_verb candidates
      then candidates else parts
    else parts in
  let parts := List.filter (fun p => (2 <=? length (split p))%nat) parts in
  if (1 <? length parts)%nat then parts else [message].

End Decomposer.

(** ** The resolver and the hybrid orchestrator *)

Module Hybrid.

Import Validator Consensus Decomposer.

(** One entry of [messages]. *)
Record message : Type := Message {
  role : string;
  content : string;
}.

(** What [generate_cactus] returns, and the result dictionary that
    [_on_device] builds with the same three keys. This is a reply of
    the documented shape: calls with a [str] for a name and a mapping of
    arguments, a [float] and a number. [generate_cactus] hands on
    whatever [json.loads] made of the reply, and on a reply of another
    shape the code raises where it first uses the ill-shaped part; such
    replies are outside [Hybrid]. *)
Record sample : Type := Sample {
  function_calls : list call;
  total_time_ms : float;
  confidence : Q;
}.

(** What [generate_cloud] returns. *)
Record cloud_reply : Type := CloudReply {
  cloud_function_calls : list call;
  cloud_total_time_ms : float;
}.

(** What [generate_hybrid] returns; ["confidence"] is present only in a
    result that [_on_device] built. *)
Record hybrid_result : Type := HybridResult {
  result_function_calls : list call;
  result_total_time_ms : float;
  result_source : string;
  result_confidence : option Q;
}.

(** A call to one of the two inference collaborators, with its
    arguments and what it returned. *)
Inductive event : Type :=
  | LocalCall (msgs : list message) (tool_list : list tool) (reply : sample)
  | CloudCall (msgs : list message) (tool_list : list tool) (reply : cloud_reply).

(** The state a request runs in: the collaborators' own state and the
    calls made so far, oldest first. *)
Record state (world : Type) : Type := State {
  st_world : world;
  st_trace : list event;
}.
Arguments State {world} _ _.
Arguments st_world {world} _.
Arguments st_trace {world} _.

(** How a computation ends: with a value, with a Python exception, or
    with its recursion allowance used up. *)
Inductive outcome (world A : Type) : Type :=
  | Done (a : A) (s : state world)
  | Failed (e : exn)
  | Diverged.
Arguments Done {world A} a s.
Arguments Failed {world A} e.
Arguments Diverged {world A}.

Definition M (world A : Type) : Type := state world -> outcome world A.

Definition ret {world A} (a : A) : M world A := fun s => Done a s.

Definition bind {world A B} (m : M world A) (f : A -> M world B) : M world B :=
  fun s =>
    match m s with
    | Done a s' => f a s'
    | Failed e => Failed e
    | Diverged => Diverged
    end.

Notation "x <- m ; k" := (bind m (fun x => k))
  (at level 20, m at level 100, k at level 200, only parsing).
Notation "' p <- m ; k" := (bind m (fun x => match x with p => k end))
  (at level 20, p pattern, m at level 100, k at level 200, only parsing).

(** A pure computation that may raise. *)
Definition lift {world A} (r : result A) : M world A := fun s =>
  match r with
  | Ret a => Done a s
  | Raise e => Failed e
  end.

Definition N_SAMPLES : Z := 3.

Section Collaborators.

Context (B : builtins) {world : Type}.
(** The two collaborators, as functions of their arguments and state. *)
Context (local_model : list message -> list tool -> world -> sample * world).
Context (cloud_model : list message -> list tool -> world -> cloud_reply * world).

Definition generate_cactus (msgs : list message) (tool_list : list tool)
    : M world sample := fun s =>
  let '(reply, w) := local_model msgs tool_list (st_world s) in
  Done reply (State w (st_trace s ++ [LocalCall msgs tool_list reply])).

Definition generate_cloud (msgs : list message) (tool_list : list tool)
    : M world cloud_reply := fun s =>
  let '(reply, w) := cloud_model msgs tool_list (st_world s) in
  Done reply (State w (st_trace s ++ [CloudCall msgs tool_list reply])).

(** The loop [for _ in range(n - 1)] of [_self_consistent_with_first],
    with [k] rounds to go. *)
Fixpoint sampling_loop (k : nat) (msgs : list message) (tool_list : list tool)
    (valid_runs : list (list call * Q)) (spent_time : float)
    : M world (list (list call * Q) * float) :=
  match k with
  | O => ret (valid_runs, spent_time)
  | S k' =>
      local <- generate_cactus msgs tool_list;
      let spent_time := (spent_time + total_time_ms local)%float in
      '(corrected, is_valid) <- lift (_validate B (function_calls local) tool_list);
      let valid_runs :=
        if is_valid then valid_runs ++ [(corrected, confidence local)]
        else valid_runs in
      sampling_loop k' msgs tool_list valid_runs spent_time
  end.

Definition _self_consistent_with_first (first_run : sample)
    (msgs : list message) (tool_list : list tool) (n : Z)
    : M world (option sample * float) :=
  '(corrected0, is_valid0) <- lift (_validate B (function_calls first_run) tool_list);
  let valid_runs :=
    if is_valid0 then [(corrected0, confidence first_run)] else [] in
  let spent_time := total_time_ms first_run in
  '(valid_runs, spent_time) <-
    sampling_loop (Z.to_nat (n - 1)) msgs tool_list valid_runs spent_time;
  best <- lift (majority B valid_runs n);
  ret (match best with
        | Some best => (Some (Sample best.1 spent_time best.2), spent_time)
        | None => (None, spent_time)
        end).

Definition _on_device (confidence_threshold : Q)
    (msgs : list message) (tool_list : list tool)
    : M world (option sample * float) :=
  first <- generate_cactus msgs tool_list;
  '(corrected, is_valid) <- lift (_validate B (function_calls first) tool_list);
  if is_valid && Qle_bool confidence_threshold (confidence first) then
    ret (Some (Sample corrected (total_time_ms first) (confidence first)),
          total_time_ms first)
  else _self_consistent_with_first first msgs tool_list N_SAMPLES.

(** The loop over the decomposed parts, in [_resolve] and in
    [generate_hybrid] alike: it stops at the first part that does not
    resolve, with the time spent up to and including that part. *)
Fixpoint resolve_parts (resolve : string -> M world (option (list call) * float))
    (parts : list string) (all_calls : list call) (total_time : float)
    : M world (option (list call) * float) :=
  match parts with
  | [] => ret (Some all_calls, total_time)
  | part :: parts' =>
      '(part_calls, part_time) <- resolve part;
      let total_time := (total_time + part_time)%float in
      match part_calls with
      | None => ret (None, total_time)
      | Some part_calls =>
          resolve_parts resolve parts' (all_calls ++ part_calls) total_time
      end
  end.

(** [_resolve(content, depth, max_depth)] with an allowance of [fuel]
    nested calls. *)
Fixpoint resolve_within (fuel : nat) (confidence_threshold : Q)
    (non_user : list message) (tools : list tool)
    (content : string) (depth max_depth : nat)
    : M world (option (list call) * float) :=
  match fuel with
  | O => fun _ => Diverged
  | S fuel' =>
      let msgs := non_user ++ [Message "user" content] in
      '(result, time_spent) <- _on_device confidence_threshold msgs tools;
      match result with
      | Some result => ret (Some (function_calls result), time_spent)
      | None =>
          if (depth <? max_depth)%nat then
            let parts := _decompose content in
            if (1 <? length parts)%nat then
              resolve_parts
                (fun part =>
                   resolve_within fuel' confidence_threshold non_user tools
                     part (depth + 1) max_depth)
                parts [] time_spent
            else ret (None, time_spent)
          else ret (None, time_spent)
      end
  end.

(** [_resolve]: one nested call per level from [depth] to [max_depth]
    is all it can make. *)
Definition _resolve (confidence_threshold : Q)
    (non_user : list message) (tools : list tool)
    (content : string) (depth max_depth : nat)
    : M world (option (list call) * float) :=
  resolve_within (S (max_depth - depth)) confidence_threshold non_user tools
    content depth max_depth.

(** The two places where [generate_hybrid] turns to the cloud. *)
Definition cloud_fallback (messages : list message) (tools : list tool)
    (spent : float) : M world hybrid_result :=
  cloud <- generate_cloud messages tools;
  ret (HybridResult (cloud_function_calls cloud)
          (cloud_total_time_ms cloud + spent)%float "cloud (fallback)" None).

Definition generate_hybrid (messages : list message) (tools : list tool)
    (confidence_threshold : Q) : M world hybrid_result :=
  let user_msgs := filter (fun m => role m = "user") messages in
  let non_user := filter (fun m => role m ≠ "user") messages in
  '(result, spent_time) <- _on_device confidence_threshold messages tools;
  match result with
  | Some result =>
      ret (HybridResult (function_calls result) (total_time_ms result)
              "on-device" (Some (confidence result)))
  | None =>
      match last user_msgs with
      | Some m =>
          let sub_contents := _decompose (content m) in
          if (1 <? length sub_contents)%nat then
            '(all_calls, total_time) <- resolve_parts
                  (fun sub_content =>
                     _resolve confidence_threshold non_user tools sub_content 0 2)
                  sub_contents [] spent_time;
            match all_calls with
            | Some all_calls =>
                ret (HybridResult all_calls total_time "on-device" None)
            | None => cloud_fallback messages tools total_time
            end
          else cloud_fallback messages tools spent_time
      | None => cloud_fallback messages tools spent_time
      end
  end.

End Collaborators.

End Hybrid.

(** * The voice front end of the demo

    The helpers of [demo_whatsapp_voice_stream.py] that stand between
    the microphone and [generate_hybrid]: the tests on a transcript,
    the ring buffer of audio frames, and the extraction of a recipient
    and a message from the calls that [generate_hybrid] returns. *)

From Stdlib Require Import Floats.FloatOps Floats.SpecFloat.

(** ** Tests on a transcript *)

Module Voice.

Import Decomposer.

(** [s.startswith(p)]. *)
Fixpoint startswith (p s : string) : bool :=
  match p, s with
  | EmptyString, _ => true
  | String a p', String b s' => Ascii.eqb a b && startswith p' s'
  | String _ _, EmptyString => false
  end.

(** [s.endswith(p)]: [p] is no longer than [s] and equals its tail of
    that length. *)
Definition endswith (p s : string) : bool :=
  (String.length p <=? String.length s)%nat
  && String.eqb (drop_chars (String.length s - String.length p) s) p.

(** [sub in s]. *)
Fixpoint contains (sub s : string) : bool :=
  startswith sub s
  || match s with
     | String _ r => contains sub r
     | EmptyString => false
     end.

(** [s.lstrip(chars)]: drop the leading characters that occur in [chars]. *)
Fixpoint lstrip_chars (chars : list ascii) (s : string) : string :=
  match s with
  | String c r => if existsb (Ascii.eqb c) chars then lstrip_chars chars r else s
  | EmptyString => EmptyString
  end.

(** [s.split(sep)] for a separator of one character; [piece] is the
    piece being read, in reverse. *)
Fixpoint split_on (sep : ascii) (piece : list ascii) (s : string) : list string :=
  match s with
  | EmptyString => [string_of_list_ascii (rev piece)]
  | String c r =>
      if Ascii.eqb c sep
      then string_of_list_ascii (rev piece) :: split_on sep [] r
      else split_on sep (c :: piece) r
  end.

Definition COMMAND_TRIGGERS : list string := ["whatsapp"; "what's app"; "what app"].

(** [WAKE_WORDS], from the value of the environment variable of that
    name, if it is set. *)
Definition WAKE_WORDS (env : option string) : list string :=
  (fun w => lower (strip w))
    <$> List.filter (fun w => negb (String.eqb (strip w) ""))
          (split_on "," [] (default "hey cactus,hi cactus" env)).

Definition is_non_speech (text : string) : bool :=
  let t := strip text in
  startswith "(" t && endswith ")" t
  || bool_decide (t ∈ [""; "[BLANK_AUDIO]"]).

Definition looks_like_whatsapp_command (text : string) : bool :=
  let t := lower text in
  existsb (fun k => contains k t) COMMAND_TRIGGERS
  && (contains "message" t || contains "text" t || contains "send" t).

(** The characters of [" ,.:;!-"]. *)
Definition SEPARATORS : list ascii :=
  [" "; ","; "."; ":"; ";"; "!"; "-"]%char.

(** The loop [for w in WAKE_WORDS] of [strip_wake_word_prefix]: what it
    returns, if it returns. *)
Fixpoint after_wake_word (wake_words : list string) (low t : string)
    : option string :=
  match wake_words with
  | [] => None
  | w :: wake_words' =>
      if startswith w low
      then Some (lstrip_chars SEPARATORS (drop_chars (String.length w) t))
      else after_wake_word wake_words' low t
  end.

(** What [\w] matches in a [str] pattern, among the codes below 256:
    the digits, the letters, the underscore, and the Latin-1 letters
    and numerals. *)
Definition is_word_char (c : ascii) : bool :=
  let n := code c in
  ((48 <=? n) && (n <=? 57) || (65 <=? n) && (n <=? 90) || (n =? 95)
   || (97 <=? n) && (n <=? 122)
   || (n =? 170) || (n =? 178) || (n =? 179) || (n =? 181) || (n =? 185)
   || (n =? 186) || (188 <=? n) && (n <=? 190)
   || (192 <=? n) && (n <=? 214) || (216 <=? n) && (n <=? 246)
   || (248 <=? n))%N.

(** The length of the longest prefix of [s] made of characters of
    [chars]: what a greedy [[...]*] takes. *)
Fixpoint span (chars : list ascii) (s : string) : nat :=
  match s with
  | String c r => if existsb (Ascii.eqb c) chars then S (span chars r) else 0%nat
  | EmptyString => 0%nat
  end.

(** The length of the match of [\s+cactus\b[ ,.:;!-]*] at the start of
    [s], in any letter case, if there is one. *)
Definition match_cactus (s : string) : option nat :=
  let n := blanks s in
  let s1 := drop_chars n s in
  let s2 := drop_chars 6 s1 in
  if (0 <? n)%nat && startswith "cactus" (lower s1)
     && match s2 with
        | String c _ => negb (is_word_char c)
        | EmptyString => true
        end
  then Some (n + 6 + span SEPARATORS s2)%nat else None.

(** The alternatives of [(?:hey|hi|hello|ok|okay)], tried in this order. *)
Definition GREETINGS : list string := ["hey"; "hi"; "hello"; "ok"; "okay"].

(** The length of the match of an alternative of [greetings] followed
    by [\s+cactus\b[ ,.:;!-]*]: the first alternative after which the
    rest of the pattern matches. *)
Fixpoint match_greeting (greetings : list string) (s : string) : option nat :=
  match greetings with
  | [] => None
  | g :: greetings' =>
      if startswith g (lower s) then
        match match_cactus (drop_chars (String.length g) s) with
        | Some n => Some (String.length g + n)%nat
        | None => match_greeting greetings' s
        end
      else match_greeting greetings' s
  end.

(** [m.end()] for
    [m = re.match(r"^\s*(?:hey|hi|hello|ok|okay)\s+cactus\b[ ,.:;!-]*", low, re.IGNORECASE)],
    if there is a match. *)
Definition match_wake (low : string) : option nat :=
  let n := blanks low in
  option_map (Nat.add n) (match_greeting GREETINGS (drop_chars n low)).

Definition strip_wake_word_prefix (wake_words : list string) (text : string)
    : string :=
  let t := strip text in
  let low := lower t in
  match after_wake_word wake_words low t with
  | Some rest => rest
  | None =>
      match match_wake low with
      | Some e => lstrip_chars SEPARATORS (drop_chars e t)
      | None => t
      end
  end.

(** What [[a-z']] matches. *)
Definition is_token_char (c : ascii) : bool :=
  let n := code c in
  ((97 <=? n) && (n <=? 122) || (n =? 39))%N.

(** [re.findall(r"[a-z']+", s)]: the maximal runs of such characters;
    [w] is the run being read, in reverse. *)
Fixpoint findall_from (w : list ascii) (s : string) : list string :=
  match s with
  | EmptyString =>
      match w with [] => [] | _ => [string_of_list_ascii (rev w)] end
  | String c r =>
      if is_token_char c then findall_from (c :: w) r
      else match w with
           | [] => findall_from [] r
           | _ => string_of_list_ascii (rev w) :: findall_from [] r
           end
  end.

(** The binary64 that [0.58] denotes. *)
Definition SIMILAR : Q := 5224175567749775 # 9007199254740992.

Section Similarity.

(** [difflib.SequenceMatcher(None, a, b).ratio()], whose value is not
    computed here. *)
Context (ratio : string -> string -> Q).

Definition detect_wake_word (wake_words : list string) (text : string) : bool :=
  let t := strip (lower text) in
  if String.eqb t "" then false
  else if existsb (fun w => contains w t) wake_words then true
  else
    match findall_from [] t with
    | first :: cand :: _ =>
        if bool_decide (first ∈ ["hey"; "hi"; "hello"; "okay"; "ok"])
        then Qle_bool SIMILAR (ratio cand "cactus")
        else false
    | _ => false
    end.

End Similarity.

End Voice.

(** ** The ring buffer of audio frames *)

Module Buffer.

(** A number of seconds: an [int] or a [float]. *)
Inductive number : Type :=
  | Int (z : Z)
  | Float (x : float).

(** [float(z)]: the nearest binary64, ties to even; an [OverflowError]
    (an [OtherException] here) when that is beyond the largest one. *)
Definition float_of_int (z : Z) : result float :=
  let x := SF2Prim (binary_normalize prec emax z 0 false) in
  if PrimFloat.is_infinity x then Raise OtherException else Ret x.

(** [int(x)] for a [float]: towards zero; a [ValueError] on a NaN and an
    [OverflowError] on an infinity. *)
Definition int_of_float (x : float) : result Z :=
  match Prim2SF x with
  | S754_zero _ => Ret 0
  | S754_finite s m e =>
      let a := if 0 <=? e then Z.pos m * 2 ^ e else Z.pos m / 2 ^ (- e) in
      Ret (if s then - a else a)
  | S754_nan => Raise ValueError
  | S754_infinity _ => Raise OtherException
  end.

(** [int(seconds * sr)] for an [int] [sr]. *)
Definition frames_in (seconds : number) (sr : Z) : result Z :=
  match seconds with
  | Int z => Ret (z * sr)
  | Float x => y ← float_of_int sr; int_of_float (PrimFloat.mul x y)
  end.

(** [xs[start:]]. *)
Definition slice_from {A} (start : Z) (xs : list A) : list A :=
  let len := Z.of_nat (length xs) in
  let start := if start <? 0 then Z.max 0 (start + len) else Z.min start len in
  drop (Z.to_nat start) xs.

Section Samples.

(** The items of the arrays that the stream delivers and of those that
    the buffer keeps, with the conversion [astype(np.float32)]. *)
Context {raw sample : Type} (astype : raw -> sample).

(** The fields of an [AudioRingBuffer], the lock apart: [buf] holds the
    chunks, oldest first. The methods are run one at a time, as the
    lock makes them. *)
Record AudioRingBuffer : Type := {
  sr : Z;
  max_frames : Z;
  buf : list (list sample);
  n_frames : Z;
}.

Definition __init__ (max_seconds : number) (sr : Z) : result AudioRingBuffer :=
  max_frames ← frames_in max_seconds sr;
  Ret {| sr := sr; max_frames := max_frames; buf := []; n_frames := 0 |}.

(** The loop [while self.n_frames > self.max_frames and self.buf]. *)
Fixpoint trim (max_frames : Z) (buf : list (list sample)) (n_frames : Z)
    : list (list sample) * Z :=
  match buf with
  | old :: buf' =>
      if max_frames <? n_frames
      then trim max_frames buf' (n_frames - Z.of_nat (length old))
      else (buf, n_frames)
  | [] => (buf, n_frames)
  end.

(** [push(frames)] for [frames] an array of rows. *)
Definition push (self : AudioRingBuffer) (frames : list (list raw))
    : AudioRingBuffer :=
  let mono := astype <$> concat frames in
  let '(buf, n_frames) :=
    trim (max_frames self) (buf self ++ [mono])
      (n_frames self + Z.of_nat (length mono)) in
  {| sr := sr self; max_frames := max_frames self;
     buf := buf; n_frames := n_frames |}.

Definition snapshot_last (self : AudioRingBuffer) (seconds : number)
    : result (list sample) :=
  need ← frames_in seconds (sr self);
  if n_frames self =? 0 then Ret []
  else
    let data := concat (buf self) in
    if Z.of_nat (length data) <=? need then Ret data
    else Ret (slice_from (- need) data).

End Samples.

Arguments AudioRingBuffer : clear implicits.

End Buffer.

(** ** From the calls to a recipient and a message *)

Module Intent.

Import Hybrid.

Definition TOOL_WHATSAPP_SEND : tool :=
  Tool "whatsapp_send"
    (Some (Schema (Some {[ "recipient" := "string"; "message" := "string" ]})
             (Some ["recipient"; "message"]))).

Definition SYSTEM_PROMPT : string :=
  "You are a voice assistant. When the user asks to message someone on WhatsApp, call whatsapp_send with recipient and message. Return ONLY tool calls; do not chat.".

(** The default of [confidence_threshold]: the binary64 that [0.99]
    denotes. *)
Definition confidence_threshold : Q := 4458563631096791 # 4503599627370496.

(** [args.get(k)]. *)
Fixpoint dict_get (k : string) (args : list (string * value)) : option value :=
  match args with
  | [] => None
  | (k', v) :: args' => if String.eqb k' k then Some v else dict_get k args'
  end.

(** [(v or "").strip()] for [v] the result of [args.get(...)]: an
    [AttributeError] (an [OtherException] here) when [v] is true and is
    not a [str]. *)
Definition stripped (v : option value) : result string :=
  match v with
  | None => Ret (strip "")
  | Some (VStr s) => Ret (strip (if truthy (VStr s) then s else ""))
  | Some v => if truthy v then Raise OtherException else Ret (strip "")
  end.

(** The loop [for c in calls] of [extract_with_hybrid_llm]. *)
Fixpoint first_send (calls : list call) : result (option (string * string)) :=
  match calls with
  | [] => Ret None
  | c :: calls' =>
      if String.eqb (name c) "whatsapp_send" then
        r ← stripped (dict_get "recipient" (arguments c));
        m ← stripped (dict_get "message" (arguments c));
        if negb (String.eqb r "") && negb (String.eqb m "")
        then Ret (Some (r, m))
        else first_send calls'
      else first_send calls'
  end.

Section Collaborators.

Context (B : builtins) {world : Type}.
Context (local_model : list message -> list tool -> world -> sample * world).
Context (cloud_model : list message -> list tool -> world -> cloud_reply * world).

(** The result is the pair of the recipient and the message, or [None]. *)
Definition extract_with_hybrid_llm (text : string)
    : M world (option (string * string)) :=
  let messages := [Message "system" SYSTEM_PROMPT; Message "user" text] in
  bind (generate_hybrid B local_model cloud_model messages [TOOL_WHATSAPP_SEND]
          confidence_threshold)
    (fun result => lift (first_send (result_function_calls result))).

End Collaborators.

End Intent.

(** * Vocabulary of the statements *)

(** ** The validator *)

Module ValidatorSpec.

Import Validator.

(** [props] and [required] as [_validate] reads them off a tool. *)
Definition props_of (t : tool) : gmap string string :=
  default ∅ (schema_properties (default (Schema None None) (tool_parameters t))).

Definition required_of (t : tool) : list string :=
  default [] (schema_required (default (Schema None None) (tool_parameters t))).

(** The declaration in force for a tool name: the last one in the list. *)
Definition declaration (tool_list : list tool) (n : string) : option tool :=
  last (filter (fun t => tool_name t = n) tool_list).

(** A number that is neither below -1000 nor above 1_000_000. *)
Definition within_range (v : value) : Prop :=
  match v with
  | VInt z => -1000 <= z <= 1000000
  | VFloat x =>
      PrimFloat.ltb x (-1000)%float = false /\ PrimFloat.ltb 1000000%float x = false
  | _ => True
  end.

(** A number of the closed interval from -1000 to 1_000_000. *)
Definition in_interval (v : value) : Prop :=
  match v with
  | VInt z => -1000 <= z <= 1000000
  | VFloat x =>
      PrimFloat.leb (-1000)%float x = true /\ PrimFloat.leb x 1000000%float = true
  | _ => True
  end.

Section WithBuiltins.
Context (B : builtins).

(** The conditions under which a call passes. *)
Definition acceptable (tool_list : list tool) (c : call) : Prop :=
  exists t,
    declaration tool_list (name c) = Some t /\
    (forall field, field ∈ required_of t -> field ∈ (arguments c).*1) /\
    (forall k v ty x,
        (k, v) ∈ arguments c -> props_of t !! k = Some ty ->
        ty = "integer" \/ ty = "number" ->
        _coerce B v ty = Ret x -> is_number x = true -> within_range x).

(** [kv'] is the argument [kv] after coercion to its declared type. *)
Definition coerced_argument (props : gmap string string)
    (kv kv' : string * value) : Prop :=
  kv'.1 = kv.1 /\
  match props !! kv.1 with
  | Some ty => _coerce B kv.2 ty = Ret kv'.2
  | None => kv'.2 = kv.2
  end.

(** [c'] is the call [c] with every declared argument coerced. *)
Definition coerced_call (tool_list : list tool) (c c' : call) : Prop :=
  name c' = name c /\
  exists t, declaration tool_list (name c) = Some t /\
    Forall2 (coerced_argument (props_of t)) (arguments c) (arguments c').

(** The argument passes the range test of its declared type. *)
Definition argument_passes (props : gmap string string) (kv : string * value) : Prop :=
  forall ty x,
    props !! kv.1 = Some ty -> ty = "integer" \/ ty = "number" ->
    _coerce B kv.2 ty = Ret x -> is_number x = true -> within_range x.

(** What the design document lists as making a batch invalid: a call
    that names no declared tool, lacks a required parameter, or carries
    a declared numeric argument below -1000 or above 1_000_000. *)
Definition invalidating (tool_list : list tool) (c : call) : Prop :=
  name c ∉ tool_name <$> tool_list \/
  (exists t field,
      declaration tool_list (name c) = Some t /\
      field ∈ required_of t /\ field ∉ (arguments c).*1) \/
  (exists t k v ty x,
      declaration tool_list (name c) = Some t /\
      (k, v) ∈ arguments c /\ props_of t !! k = Some ty /\
      (ty = "integer" \/ ty = "number") /\
      _coerce B v ty = Ret x /\ is_number x = true /\
      (below_range x = true \/ above_range x = true)).

End WithBuiltins.

Definition weather_tool : tool :=
  Tool "get_weather"
    (Some (Schema (Some {[ "location" := "string"; "days" := "integer" ]})
             (Some ["location"]))).

Definition weather_call : call :=
  Call "get_weather" [("location", VStr "Paris"); ("days", VStr " 3 ")].

(** A tool with one required parameter, a number, and a call to it. *)
Definition number_tool : tool :=
  Tool "f" (Some (Schema (Some {[ "x" := "number" ]}) (Some ["x"]))).

Definition number_call (v : value) : call := Call "f" [("x", v)].

(** The weather call as it arrives, and two calls that are not named by
    a [str]. *)
Definition raw_weather_call : Raw.raw_call := Raw.raw_of weather_call.

Definition unnamed_call : Raw.raw_call := Raw.RawCall VNone [].

Definition list_named_call : Raw.raw_call :=
  Raw.RawCall (VList [VStr "get_weather"]) [("location", VStr "Paris")].

End ValidatorSpec.

(** ** Fingerprints and consensus *)

Module ConsensusSpec.

Import Consensus.

(** The arguments of a call as [(key, str(value))] pairs. *)
Definition stringified (B : builtins) (c : call) : list (string * string) :=
  (fun kv => (kv.1, str B kv.2)) <$> arguments c.

(** Two calls with the same name and the same arguments, in any order. *)
Definition same_call (c c' : call) : Prop :=
  name c = name c' /\ arguments c ≡ₚ arguments c'.

(** Two calls with the same name and the same stringified arguments, in
    any order. *)
Definition same_call_str (B : builtins) (c c' : call) : Prop :=
  name c = name c' /\ stringified B c ≡ₚ stringified B c'.

(** Two call sequences that hold the same calls up to [R], each as many
    times, in any order. *)
Definition same_multiset (R : relation call) (cs1 cs2 : list call) : Prop :=
  exists cs, cs1 ≡ₚ cs /\ Forall2 R cs cs2.

(** The fingerprints of a pool of [(corrected, confidence)] pairs. *)
Definition fingerprints (B : builtins) (valid_runs : list (list call * Q))
    : list (list (string * list (string * string))) :=
  (fun r => _fingerprint B r.1) <$> valid_runs.

(** How many times [k] occurs in [keys]. *)
Definition occurrences `{EqDecision K} (k : K) (keys : list K) : nat :=
  length (filter (fun k' => k' = k) keys).

(** The count of the most frequent key. *)
Definition top_count `{EqDecision K} (keys : list K) : nat :=
  foldr Nat.max 0%nat ((fun k => occurrences k keys) <$> keys).

(** The number of agreeing runs [_self_consistent_with_first] asks for. *)
Definition majority_threshold (n : Z) : Z := Z.max 2 (n / 2 + 1).

(** The number the design document gives: max(2, ceil(n/2)). *)
Definition documented_threshold (n : Z) : Z := Z.max 2 ((n + 1) / 2).

(** The count recorded for [k] in a counter. *)
Fixpoint recorded `{EqDecision K} (k : K) (counts : list (K * nat)) : nat :=
  match counts with
  | [] => 0%nat
  | (k', n) :: counts' => if decide (k' = k) then n else recorded k counts'
  end.

(** A counter lists each key once, with a positive count. *)
Definition tidy {K} (counts : list (K * nat)) : Prop :=
  NoDup counts.*1 /\ Forall (fun kn => (0 < kn.2)%nat) counts.

Definition call_one : list call := [Call "f" [("a", VInt 1)]].
Definition call_one_str : list call := [Call "f" [("a", VStr "1")]].

End ConsensusSpec.

(** ** The resolver and the orchestrator *)

Module HybridSpec.

Import Hybrid Decomposer.

(** What a call to a collaborator reported as its own duration. *)
Definition latency (e : event) : float :=
  match e with
  | LocalCall _ _ reply => total_time_ms reply
  | CloudCall _ _ reply => cloud_total_time_ms reply
  end.

(** The calls of one attempt to resolve a text on the device, grouped
    as the code adds their durations: the samples that [_on_device]
    draws for the text itself, a first one and the further ones, and
    then, one after the other, the attempts on its parts. *)
#[warnings="-register-all"]
Inductive ledger : Type :=
  | Attempt (first : event) (rest : list event) (parts : list ledger).

(** The calls of an attempt, in the order in which they are made. *)
Fixpoint ledger_events (l : ledger) : list event :=
  match l with
  | Attempt first rest parts =>
      first :: rest ++ concat (ledger_events <$> parts)
  end.

Section Sum.
Context {A : Type} (add : A -> A -> A) (cost : event -> A).

(** The sum over an attempt in the grouping of the code: the further
    samples are added to the first one in turn ([spent_time += ...]),
    and then the sum of each part, itself formed in this way, is added
    in turn ([total_time += part_time]). *)
Fixpoint ledger_sum (l : ledger) : A :=
  match l with
  | Attempt first rest parts =>
      foldl (fun t p => add t (ledger_sum p))
        (foldl (fun t e => add t (cost e)) (cost first) rest) parts
  end.

End Sum.

(** The time spent on an attempt: the binary64 sum of the durations of
    its calls, in the grouping of the code. *)
Definition ledger_time (l : ledger) : float := ledger_sum PrimFloat.add latency l.

(** A local inference. *)
Definition is_local (e : event) : Prop :=
  match e with
  | LocalCall _ _ _ => True
  | CloudCall _ _ _ => False
  end.

(** A local inference on exactly these messages and tools. *)
Definition local_on (msgs : list message) (tool_list : list tool) (e : event) : Prop :=
  exists reply, e = LocalCall msgs tool_list reply.

(** The parts resolve one after the other, from state [s] to state
    [s'], each to a list of calls in the time that it reports: these
    lists and these times, in the order of the parts. *)
Inductive all_resolve {world}
    (resolve : string -> M world (option (list call) * float))
    : list string -> state world -> list (list call) -> list float ->
      state world -> Prop :=
  | all_resolve_nil s : all_resolve resolve [] s [] [] s
  | all_resolve_cons part parts s calls t s1 callss times s2 :
      resolve part s = Done (Some calls, t) s1 ->
      all_resolve resolve parts s1 callss times s2 ->
      all_resolve resolve (part :: parts) s (calls :: callss) (t :: times) s2.

(** [total_time] after the times of the parts have been added to it in
    turn. *)
Definition add_times (total_time : float) (times : list float) : float :=
  foldl PrimFloat.add total_time times.

(** A bound on the local inferences that resolving [content] can make
    with [levels] levels of decomposition left: three for the text
    itself and, below the last level, those of its parts. *)
Fixpoint attempts_bound (levels : nat) (content : string) : nat :=
  3 + match levels with
      | O => 0
      | S levels' =>
          let parts := _decompose content in
          if (1 <? length parts)%nat
          then foldr Nat.add 0%nat (attempts_bound levels' <$> parts)
          else 0
      end.

(** Every run of [resolve] adds to the trace the calls of one attempt,
    local inferences only and at most [bound part] of them, and reports
    the time spent on that attempt. *)
Definition accounted {world} (bound : string -> nat)
    (resolve : string -> M world (option (list call) * float)) : Prop :=
  forall part s r t s',
    resolve part s = Done (r, t) s' ->
    exists l,
      st_trace s' = st_trace s ++ ledger_events l /\
      Forall is_local (ledger_events l) /\
      t = ledger_time l /\
      (length (ledger_events l) <= bound part)%nat.

(** The two ways a request can end. *)
Definition terminal (res : hybrid_result) : Prop :=
  result_source res = "on-device" \/ result_source res = "cloud (fallback)".

(** A bound on the calls to the collaborators that one request can
    make: three local inferences on the whole request, those of the
    parts of the latest user text, and one call to the cloud. *)
Definition request_bound (messages : list message) : nat :=
  4 + match last (filter (fun m => role m = "user") messages) with
      | Some m =>
          let parts := _decompose (content m) in
          if (1 <? length parts)%nat
          then foldr Nat.add 0%nat (attempts_bound 2 <$> parts)
          else 0
      | None => 0
      end.

(** What [_resolve] does with a text that it may not decompose. *)
Definition resolve_whole {world} (B : builtins)
    (local_model : list message -> list tool -> world -> sample * world)
    (confidence_threshold : Q) (non_user : list message) (tools : list tool)
    (content : string) : M world (option (list call) * float) :=
  bind (_on_device B local_model confidence_threshold
          (non_user ++ [Message "user" content]) tools)
    (fun r => ret (function_calls <$> r.1, r.2)).

(** The first two steps of [_self_consistent_with_first]: the pool of
    valid runs out of the first run and [n - 1] further samples, and the
    time they took. *)
Definition pool {world} (B : builtins)
    (local_model : list message -> list tool -> world -> sample * world)
    (first_run : sample) (msgs : list message) (tool_list : list tool) (n : Z)
    : M world (list (list call * Q) * float) :=
  bind (lift (Validator._validate B (function_calls first_run) tool_list))
    (fun v =>
       sampling_loop B local_model (Z.to_nat (n - 1)) msgs tool_list
         (if v.2 then [(v.1, confidence first_run)] else [])
         (total_time_ms first_run)).

(** *** A world for the examples: the replies still to come *)

(** The local model answers with the next sample of the tape, and with
    an empty one when the tape is used up. *)
Definition tape_local (_ : list message) (_ : list tool) (w : list sample)
    : sample * list sample :=
  match w with
  | reply :: w' => (reply, w')
  | [] => (Sample [] 0%float 0, [])
  end.

(** The cloud model answers with one fixed call after 100 ms. *)
Definition tape_cloud (_ : list message) (_ : list tool) (w : list sample)
    : cloud_reply * list sample :=
  (CloudReply [Call "from_cloud" []] 100%float, w).

Definition two_tools : list tool := [Tool "f" None; Tool "g" None].

(** A sample that names the tool [n] with full confidence, and one that
    names nothing. *)
Definition hit (n : string) (t : float) : sample := Sample [Call n []] t 1.
Definition miss (t : float) : sample := Sample [] t 0.

Definition compound_request : list message :=
  [Message "system" "Be brief.";
   Message "user" "set an alarm, play music now, and send a text"].

(** Two valid runs that name the same call. *)
Definition agreeing_pool : list (list call * Q) :=
  [([Call "f" []], 1%Q); ([Call "f" []], 1%Q)].

(** Three misses on the whole request, then one sample per part. *)
Definition all_parts_tape : list sample :=
  [miss 1; miss 2; miss 4; hit "f" 8; hit "g" 16; hit "f" 32]%float.

(** Three misses on the whole request, a hit on the first part and
    three misses on the second. *)
Definition second_part_fails_tape : list sample :=
  [miss 1; miss 2; miss 4; hit "f" 8; miss 16; miss 32; miss 64]%float.

End HybridSpec.

(** ** Shapes of coerced values *)

Module ValidatorShapes.

Import Validator ValidatorSpec.

(** The Python type that a declared parameter type stands for, where
    coercion always reaches it. *)
Definition has_type (ty : string) (v : value) : Prop :=
  if String.eqb ty "string" then exists s, v = VStr s
  else if String.eqb ty "boolean" then exists b, v = VBool b
  else if String.eqb ty "array" then exists l, v = VList l
  else True.

(** What a consumer finds in one call of a batch that passed: a declared
    tool, its required parameters, and declared arguments of their type
    and within the numeric range. *)
Definition settled (tool_list : list tool) (c : call) : Prop :=
  exists t,
    declaration tool_list (name c) = Some t /\
    (forall field, field ∈ required_of t -> field ∈ (arguments c).*1) /\
    (forall k v ty,
        (k, v) ∈ arguments c -> props_of t !! k = Some ty ->
        has_type ty v /\
        (ty = "integer" \/ ty = "number" -> is_number v = true -> within_range v)).

End ValidatorShapes.

(** ** Pools for the examples of the consensus *)

Module ConsensusPools.

(** Two runs that name [f] around one that names [g]. *)
Definition split_pool : list (list call * Q) :=
  [([Call "f" []], 1 # 2); ([Call "g" []], 1%Q); ([Call "f" []], 9 # 10)].

(** The same runs, collected in another order. *)
Definition split_pool_rearranged : list (list call * Q) :=
  [([Call "g" []], 1%Q); ([Call "f" []], 9 # 10); ([Call "f" []], 1 # 2)].

End ConsensusPools.

(** ** Texts *)

Module Texts.

Local Open Scope string_scope.

(** A text made of blanks only. *)
Fixpoint all_blank (s : string) : bool :=
  match s with
  | String c r => is_space c && all_blank r
  | EmptyString => true
  end.

(** [r] is what remains of [t] when some characters are taken off its
    front. *)
Definition tail_of (t r : string) : Prop := exists front, t = front ++ r.

End Texts.

(** ** The ring buffer *)

Module BufferTerms.

Import Buffer.

Section Samples.
Context {sample : Type}.

(** The samples held, oldest first. *)
Definition held (b : AudioRingBuffer sample) : list sample := concat (buf b).

(** The number of samples in a sequence of chunks. *)
Definition total (chunks : list (list sample)) : Z :=
  Z.of_nat (length (concat chunks)).

(** [n_frames] is the number of samples held. *)
Definition consistent (b : AudioRingBuffer sample) : Prop :=
  n_frames b = total (buf b).

End Samples.

(** A buffer for four samples that holds three, and two arrays of one
    column. *)
Definition three_of_four : AudioRingBuffer nat :=
  {| sr := 4; max_frames := 4; buf := [[1; 2; 3]%nat]; n_frames := 3 |}.

Definition two_rows : list (list nat) := [[4]; [5]]%nat.
Definition five_rows : list (list nat) := [[4]; [5]; [6]; [7]; [8]]%nat.

End BufferTerms.

(** ** Runs of the resolver and of the orchestrator *)

Module HybridTerms.

Import Validator Hybrid HybridSpec.

(** The test of the fast path on the first sample. *)
Definition accepted_at_once (B : builtins) (threshold : Q)
    (tool_list : list tool) (first : sample) : bool :=
  match _validate B (function_calls first) tool_list with
  | Ret (_, true) => Qle_bool threshold (confidence first)
  | _ => false
  end.

(** [calls] and [conf] are the corrected calls and the confidence of a
    sample drawn in [evs] for these messages and tools. *)
Definition drawn_from (B : builtins) (msgs : list message) (tool_list : list tool)
    (evs : list event) (calls : list call) (conf : Q) : Prop :=
  exists reply,
    LocalCall msgs tool_list reply ∈ evs /\
    _validate B (function_calls reply) tool_list = Ret (calls, true) /\
    conf = confidence reply.

(** A local inference on the non-user messages followed by one user
    message. *)
Definition sub_request (non_user : list message) (tool_list : list tool)
    (e : event) : Prop :=
  exists part, local_on (non_user ++ [Message "user" part]) tool_list e.

(** The calls pass validation and come back from it as they are. *)
Definition passes (B : builtins) (tool_list : list tool) (calls : list call) : Prop :=
  _validate B calls tool_list = Ret (calls, true).

(** To whom a call of the trace of a request is addressed: the cloud
    gets the messages of the request, the local model these or a
    sub-request, and both get the tools of the request. *)
Definition addressed (messages : list message) (tools : list tool) (e : event) : Prop :=
  match e with
  | LocalCall msgs tool_list _ =>
      tool_list = tools /\
      (msgs = messages \/
       exists part,
         msgs = filter (fun m => role m ≠ "user") messages ++ [Message "user" part])
  | CloudCall msgs tool_list _ => tool_list = tools /\ msgs = messages
  end.

(** A valid sample below full confidence, and a request of one clause. *)
Definition unsure (n : string) (t : float) : sample := Sample [Call n []] t (1 # 2).

Definition plain_request : list message :=
  [Message "system" "Be brief."; Message "user" "play some jazz"].

End HybridTerms.

(** ** Examples for the extraction *)

Module IntentTerms.

Import Hybrid.

(** A cloud that answers with a number where the recipient should be. *)
Definition odd_cloud (_ : list message) (_ : list tool) (w : list sample)
    : cloud_reply * list sample :=
  (CloudReply
     [Call "whatsapp_send" [("recipient", VInt 5); ("message", VStr "hi")]] 100%float,
   w).

(** A confident sample that names the tool, with blanks around the
    recipient. *)
Definition send_to_ann : sample :=
  Sample [Call "whatsapp_send" [("recipient", VStr " Ann "); ("message", VStr "hi")]]
    5%float 1.

End IntentTerms.

(** * Properties *)

(** ** The validator *)

Module ValidatorFacts.

Import Plain Validator ValidatorSpec.

Section Facts.
Context (B : builtins).

Lemma tool_map_of_snoc tool_list t :
  tool_map_of (tool_list ++ [t]) = <[tool_name t := t]> (tool_map_of tool_list).
Proof. unfold tool_map_of. by rewrite foldl_app. Qed.

Lemma tool_map_lookup tool_list n :
  tool_map_of tool_list !! n = declaration tool_list n.
Proof.
  induction tool_list as [|t tool_list IH] using rev_ind; [done|].
  rewrite tool_map_of_snoc. unfold declaration in *. rewrite filter_app.
  rewrite lookup_insert. simpl. rewrite filter_cons, filter_nil.
  case_decide as Hn; subst.
  - by rewrite last_snoc.
  - by rewrite app_nil_r.
Qed.

Lemma declared_name tool_list n t :
  declaration tool_list n = Some t -> t ∈ tool_list /\ tool_name t = n.
Proof.
  unfold declaration. intros H.
  apply last_Some in H as [l' Hl].
  assert (Ht : t ∈ filter (fun t => tool_name t = n) tool_list).
  { rewrite Hl. apply elem_of_app. right. by apply list_elem_of_singleton. }
  by apply list_elem_of_filter in Ht as [? ?].
Qed.

Lemma declared_iff tool_list n :
  is_Some (declaration tool_list n) <-> n ∈ tool_name <$> tool_list.
Proof.
  split.
  - intros [t Ht]. apply declared_name in Ht as [? <-].
    by apply list_elem_of_fmap_2.
  - intros (t & -> & Ht)%list_elem_of_fmap. unfold declaration.
    destruct (last _) eqn:Hl; [done|]. apply last_None in Hl.
    assert (t ∈ filter (fun t0 => tool_name t0 = tool_name t) tool_list)
      by by apply list_elem_of_filter.
    rewrite Hl in H. by apply elem_of_nil in H.
Qed.

Lemma rejected_false ty x :
  rejected ty x = false <->
  (ty = "integer" \/ ty = "number" -> is_number x = true -> within_range x).
Proof.
  unfold rejected, numeric_type.
  destruct (bool_decide_reflect (ty ∈ ["integer"; "number"])) as [Hty|Hty]; simpl.
  - assert (Hty' : ty = "integer" \/ ty = "number").
    { rewrite !elem_of_cons, elem_of_nil in Hty. tauto. }
    destruct x as [|b|z|x|s|l|d]; simpl;
      (split; [intros H _ Hn | intros H; specialize (H Hty')]); try done.
    + by destruct b.
    + apply orb_false_iff in H. lia.
    + specialize (H eq_refl). apply orb_false_iff. lia.
    + by apply orb_false_iff in H.
    + apply orb_false_iff. by apply H.
  - split; [|done]. intros _ H. exfalso. apply Hty.
    rewrite !elem_of_cons. tauto.
Qed.


(** *** Coercion never raises *)

Lemma coerce_integer v :
  _coerce B v "integer" =
  match v with
  | VInt _ => Ret v
  | _ => try_except (z ← int_of_str B (strip (str B v)); Ret (VInt z))
           [ValueError; TypeError] (Ret v)
  end.
Proof. done. Qed.

Lemma coerce_number v :
  _coerce B v "number" =
  match v with
  | VInt _ | VFloat _ => Ret v
  | _ => try_except (x ← float_of_str B (strip (str B v)); Ret (VFloat x))
           [ValueError; TypeError] (Ret v)
  end.
Proof. done. Qed.

Lemma coerce_array v :
  _coerce B v "array" =
  match v with
  | VList _ => Ret v
  | _ => try_except_Exception
           (parsed ← json_loads B v;
            Ret (match parsed with VList _ => parsed | _ => VList [v] end))
           (Ret (VList [v]))
  end.
Proof. done. Qed.

Lemma coerce_total (HB : documented B) v ty : exists c, _coerce B v ty = Ret c.
Proof.
  destruct HB as [Hint Hfloat]. unfold _coerce.
  repeat case_match; eauto;
    match goal with
    | |- context [int_of_str B ?s] =>
        destruct (int_of_str B s) as [z|e] eqn:Hs; simpl; eauto;
        apply Hint in Hs; rewrite Hs; simpl; eauto
    | |- context [float_of_str B ?s] =>
        destruct (float_of_str B s) as [z|e] eqn:Hs; simpl; eauto;
        apply Hfloat in Hs; rewrite Hs; simpl; eauto
    | |- context [json_loads B ?s] =>
        destruct (json_loads B s) as [z|e] eqn:Hs; simpl; eauto
    end.
Qed.

Lemma coerce_arguments_total (HB : documented B) props args :
  exists r, coerce_arguments B props args = Ret r.
Proof.
  induction args as [|[k v] args [r IH]]; simpl; [eauto|].
  destruct (props !! k) as [ty|].
  - destruct (coerce_total HB v ty) as [c ->]. simpl.
    destruct (rejected ty c); [eauto|]. rewrite IH. simpl. eauto.
  - rewrite IH. simpl. eauto.
Qed.

Lemma validate_call_total (HB : documented B) tm c :
  exists r, validate_call B tm c = Ret r.
Proof.
  unfold validate_call. destruct (tm !! name c) as [t|]; [|eauto].
  simpl. case_match; [|eauto].
  destruct (coerce_arguments_total HB
              (default ∅ (schema_properties (default (Schema None None) (tool_parameters t))))
              (arguments c)) as [r ->].
  simpl. eauto.
Qed.

Lemma validate_calls_total (HB : documented B) tm calls :
  exists r, validate_calls B tm calls = Ret r.
Proof.
  induction calls as [|c calls [r IH]]; simpl; [eauto|].
  destruct (validate_call_total HB tm c) as [[c'|] ->]; simpl; [|eauto].
  rewrite IH. simpl. eauto.
Qed.

Lemma validate_total (HB : documented B) calls tool_list :
  exists corrected flag, _validate B calls tool_list = Ret (corrected, flag).
Proof.
  unfold _validate. destruct calls as [|c calls]; [eauto|].
  destruct (validate_calls_total HB (tool_map_of tool_list) (c :: calls)) as [[r|] ->];
    simpl; eauto.
Qed.

(** *** The calls as they arrive *)

Lemma find_tool_hashable tm v :
  Raw.hashable v = true -> exists t, Raw.find_tool tm v = Ret t.
Proof. destruct v; simpl; eauto; done. Qed.

Lemma find_tool_unhashable tm v :
  Raw.hashable v = false -> Raw.find_tool tm v = Raise TypeError.
Proof. by destruct v. Qed.

Lemma validate_raw_call_total (HB : documented B) tm c :
  Raw.hashable (Raw.raw_name c) = true ->
  exists r, Raw.validate_raw_call B tm c = Ret r.
Proof.
  intros Hname. unfold Raw.validate_raw_call.
  destruct (find_tool_hashable tm _ Hname) as [[t|] ->]; simpl; [|eauto].
  case_match; [|eauto].
  destruct (coerce_arguments_total HB
              (default ∅ (schema_properties (default (Schema None None) (tool_parameters t))))
              (Raw.raw_arguments c)) as [r ->].
  simpl. eauto.
Qed.

Lemma validate_raw_calls_total (HB : documented B) tm calls :
  Forall (fun c => Raw.hashable (Raw.raw_name c) = true) calls ->
  exists r, Raw.validate_raw_calls B tm calls = Ret r.
Proof.
  induction 1 as [|c calls Hc _ [r IH]]; simpl; [eauto|].
  destruct (validate_raw_call_total HB tm c Hc) as [[c'|] ->]; simpl; [|eauto].
  rewrite IH. simpl. eauto.
Qed.

Lemma validate_raw_total (HB : documented B) calls tool_list :
  Forall (fun c => Raw.hashable (Raw.raw_name c) = true) calls ->
  exists corrected flag, Raw._validate B calls tool_list = Ret (corrected, flag).
Proof.
  intros Hnames. unfold Raw._validate. destruct calls as [|c calls]; [eauto|].
  destruct (validate_raw_calls_total HB (tool_map_of tool_list) (c :: calls) Hnames)
    as [[r|] ->]; simpl; eauto.
Qed.

(** On the calls whose name is a [str], [Raw] is [Validator]. *)
Lemma validate_raw_call_of tm c :
  Raw.validate_raw_call B tm (Raw.raw_of c) =
  match validate_call B tm c with
  | Ret r => Ret (option_map Raw.raw_of r)
  | Raise e => Raise e
  end.
Proof.
  unfold Raw.validate_raw_call, validate_call. simpl.
  destruct (tm !! name c) as [t|]; [|done]. simpl.
  case_match; [|done].
  destruct (coerce_arguments B _ (arguments c)) as [[args|]|e]; done.
Qed.

Lemma validate_raw_calls_of tm (calls : list call) :
  Raw.validate_raw_calls B tm (Raw.raw_of <$> calls) =
  match validate_calls B tm calls with
  | Ret r => Ret (option_map (fun cs : list call => Raw.raw_of <$> cs) r)
  | Raise e => Raise e
  end.
Proof.
  induction calls as [|c calls IH]; csimpl; [done|].
  rewrite validate_raw_call_of.
  destruct (validate_call B tm c) as [[c'|]|e]; simpl; try done.
  rewrite IH. by destruct (validate_calls B tm calls) as [[rest|]|e].
Qed.

Lemma validate_raw_of (calls : list call) tool_list :
  Raw._validate B (Raw.raw_of <$> calls) tool_list =
  match _validate B calls tool_list with
  | Ret (corrected, flag) => Ret (Raw.raw_of <$> corrected, flag)
  | Raise e => Raise e
  end.
Proof.
  destruct calls as [|c calls]; [done|].
  pose proof (validate_raw_calls_of (tool_map_of tool_list) (c :: calls)) as H.
  unfold Raw._validate, _validate.
  change (Raw.raw_of <$> c :: calls)
    with (Raw.raw_of c :: (Raw.raw_of <$> calls)) in *.
  lazy beta iota. rewrite H.
  by destruct (validate_calls B _ (c :: calls)) as [[rest|]|e].
Qed.

(** *** What [_validate] accepts *)

Lemma coerce_arguments_sound props args args' :
  coerce_arguments B props args = Ret (Some args') ->
  Forall (argument_passes B props) args /\
  Forall2 (coerced_argument B props) args args'.
Proof.
  revert args'. induction args as [|[k v] args IH]; intros args'; simpl.
  - intros [= <-]. split; constructor.
  - unfold argument_passes, coerced_argument in *.
    destruct (props !! k) as [ty|] eqn:Hk.
    + destruct (_coerce B v ty) as [c|e] eqn:Hc; simpl; [|done].
      destruct (rejected ty c) eqn:Hr; [done|].
      destruct (coerce_arguments B props args) as [[rest|]|e]; simpl; try done.
      intros [= <-]. destruct (IH rest eq_refl) as [H1 H2].
      split; (constructor; [|done]); simpl; rewrite Hk; [|done].
      intros ty' x [= <-] Hty Hx Hn. rewrite Hc in Hx. injection Hx as <-.
      by apply (rejected_false ty c).
    + destruct (coerce_arguments B props args) as [[rest|]|e]; simpl; try done.
      intros [= <-]. destruct (IH rest eq_refl) as [H1 H2].
      split; (constructor; [|done]); simpl; by rewrite Hk.
Qed.

Lemma coerce_arguments_complete (HB : documented B) props args :
  Forall (argument_passes B props) args ->
  exists args', coerce_arguments B props args = Ret (Some args').
Proof.
  induction 1 as [|[k v] args Hkv _ [rest IH]]; simpl; [eauto|].
  unfold argument_passes in Hkv. simpl in Hkv. rewrite IH.
  destruct (props !! k) as [ty|] eqn:Hk; simpl; [|eauto].
  destruct (coerce_total HB v ty) as [c Hc]. rewrite Hc. simpl.
  assert (rejected ty c = false) as ->; [|simpl; eauto].
  apply rejected_false. intros Hty Hn. by eapply Hkv.
Qed.

Lemma Forall2_coerced_unique props args args1 args2 :
  Forall2 (coerced_argument B props) args args1 ->
  Forall2 (coerced_argument B props) args args2 -> args1 = args2.
Proof.
  intros H1. revert args2.
  induction H1 as [|[k v] [k1 v1] args args1 [Hk1 Hv1] _ IH];
    intros args2 H2; inversion H2 as [|? [k2 v2] ? args2' [Hk2 Hv2] H2']; subst;
    [done|].
  simpl in *. f_equal; [|by apply IH]. subst.
  destruct (props !! k); congruence.
Qed.

Lemma acceptable_passes tool_list c t :
  declaration tool_list (name c) = Some t ->
  acceptable B tool_list c <->
  (forall field, field ∈ required_of t -> field ∈ (arguments c).*1) /\
  Forall (argument_passes B (props_of t)) (arguments c).
Proof.
  intros Ht. unfold acceptable. split.
  - intros (t' & Ht' & Hreq & Hargs). rewrite Ht in Ht'. injection Ht' as <-.
    split; [done|]. apply Forall_forall. intros [k v] Hkv ty x. simpl. eauto.
  - intros [Hreq Hargs]. exists t. repeat split; [done..|].
    intros k v ty x Hkv. rewrite Forall_forall in Hargs.
    apply (Hargs (k, v) Hkv).
Qed.

Lemma required_present t c :
  forallb (fun field => has_key field (arguments c)) (required_of t) = true <->
  (forall field, field ∈ required_of t -> field ∈ (arguments c).*1).
Proof.
  rewrite forallb_forall. unfold has_key. split.
  - intros H field Hf. apply list_elem_of_In in Hf.
    specialize (H field Hf). by apply bool_decide_eq_true in H.
  - intros H field Hf. apply list_elem_of_In in Hf.
    apply bool_decide_eq_true. by apply H.
Qed.

Lemma validate_call_sound tool_list c c' :
  validate_call B (tool_map_of tool_list) c = Ret (Some c') ->
  acceptable B tool_list c /\ coerced_call B tool_list c c'.
Proof.
  unfold validate_call. rewrite tool_map_lookup.
  destruct (declaration tool_list (name c)) as [t|] eqn:Ht; [|done].
  fold (props_of t) (required_of t).
  destruct (forallb _ _) eqn:Hreq; [|done].
  destruct (coerce_arguments B (props_of t) (arguments c)) as [[args'|]|e] eqn:Hargs;
    simpl; try done.
  intros [= <-]. apply coerce_arguments_sound in Hargs as [H1 H2].
  split.
  - apply (acceptable_passes _ _ _ Ht). split; [|done]. by apply required_present.
  - split; [done|]. by exists t.
Qed.

Lemma validate_call_complete (HB : documented B) tool_list c :
  acceptable B tool_list c ->
  exists c', validate_call B (tool_map_of tool_list) c = Ret (Some c').
Proof.
  intros Hc. assert (exists t, declaration tool_list (name c) = Some t) as [t Ht].
  { destruct Hc as (t & Ht & _). eauto. }
  destruct (proj1 (acceptable_passes _ _ _ Ht) Hc) as [Hreq Hargs].
  unfold validate_call. rewrite tool_map_lookup, Ht.
  fold (props_of t) (required_of t).
  apply required_present in Hreq. rewrite Hreq.
  destruct (coerce_arguments_complete HB _ _ Hargs) as [args' ->]. simpl. eauto.
Qed.

Lemma validate_calls_sound tool_list calls corrected :
  validate_calls B (tool_map_of tool_list) calls = Ret (Some corrected) ->
  Forall (acceptable B tool_list) calls /\
  Forall2 (coerced_call B tool_list) calls corrected.
Proof.
  revert corrected. induction calls as [|c calls IH]; intros corrected; simpl.
  - intros [= <-]. split; constructor.
  - destruct (validate_call B _ c) as [[c'|]|e] eqn:Hc; simpl; try done.
    destruct (validate_calls B _ calls) as [[rest|]|e]; simpl; try done.
    intros [= <-]. apply validate_call_sound in Hc as [H1 H2].
    destruct (IH rest eq_refl) as [H3 H4]. split; by constructor.
Qed.

Lemma validate_calls_complete (HB : documented B) tool_list calls :
  Forall (acceptable B tool_list) calls ->
  exists corrected, validate_calls B (tool_map_of tool_list) calls = Ret (Some corrected).
Proof.
  induction 1 as [|c calls Hc _ [rest IH]]; simpl; [eauto|].
  destruct (validate_call_complete HB _ _ Hc) as [c' ->]. simpl.
  rewrite IH. simpl. eauto.
Qed.

Lemma coerced_call_unique tool_list c c1 c2 :
  coerced_call B tool_list c c1 -> coerced_call B tool_list c c2 -> c1 = c2.
Proof.
  intros [Hn1 (t1 & Ht1 & H1)] [Hn2 (t2 & Ht2 & H2)].
  rewrite Ht1 in Ht2. injection Ht2 as <-.
  destruct c1 as [n1 a1], c2 as [n2 a2]. simpl in *. subst. f_equal.
  by eapply Forall2_coerced_unique.
Qed.

Lemma within_range_not_outside x :
  is_number x = true ->
  within_range x <-> below_range x = false /\ above_range x = false.
Proof.
  destruct x as [|b|z|x|s|l|d]; simpl; try done; intros _.
  - by destruct b.
  - lia.
Qed.

Lemma invalidating_not_acceptable tool_list c :
  invalidating B tool_list c -> ~ acceptable B tool_list c.
Proof.
  intros Hbad (t & Ht & Hreq & Hargs).
  destruct Hbad as [Hn|[(t' & field & Ht' & Hf & Hnf)|
                        (t' & k & v & ty & x & Ht' & Hkv & Hk & Hty & Hx & Hnum & Hout)]].
  - apply Hn, declared_iff. by exists t.
  - rewrite Ht in Ht'. injection Ht' as <-. by apply Hnf, Hreq.
  - rewrite Ht in Ht'. injection Ht' as <-.
    specialize (Hargs k v ty x Hkv Hk Hty Hx Hnum).
    apply within_range_not_outside in Hargs as [? ?]; [|done].
    destruct Hout; congruence.
Qed.

(** What [_validate] accepts, on calls named by a [str]: it returns
    [(corrected, True)] exactly for a
    non-empty batch in which every call names a declared tool, has every
    required parameter of that tool among its arguments, and has every
    argument declared [integer] or [number] whose coerced value is a
    number neither below -1000 nor above 1_000_000 (which a NaN is);
    [corrected] then holds the calls with their declared arguments
    coerced.  Any other batch comes back unchanged with [False]: an
    empty one, and one with a call that names no declared tool, lacks a
    required parameter, or has such a number below -1000 or above
    1_000_000. *)
Theorem validate_accepts_iff (HB : documented B) calls tool_list :
  ((exists corrected, _validate B calls tool_list = Ret (corrected, true)) <->
   calls <> [] /\ Forall (acceptable B tool_list) calls) /\
  (forall corrected,
      _validate B calls tool_list = Ret (corrected, true) ->
      Forall2 (coerced_call B tool_list) calls corrected) /\
  (calls = [] \/ Exists (invalidating B tool_list) calls ->
   _validate B calls tool_list = Ret (calls, false)) /\
  (~ (calls <> [] /\ Forall (acceptable B tool_list) calls) ->
   _validate B calls tool_list = Ret (calls, false)).
Proof.
  assert (Hsound : forall corrected,
             _validate B calls tool_list = Ret (corrected, true) ->
             calls <> [] /\ Forall (acceptable B tool_list) calls /\
             Forall2 (coerced_call B tool_list) calls corrected).
  { intros corrected. unfold _validate. destruct calls as [|c calls]; [done|].
    destruct (validate_calls B _ (c :: calls)) as [[r|]|e] eqn:Hr; simpl; try done.
    intros [= <-]. by apply validate_calls_sound in Hr as [? ?]. }
  assert (Hinvalid : ~ (calls <> [] /\ Forall (acceptable B tool_list) calls) ->
                     _validate B calls tool_list = Ret (calls, false)).
  { intros Hno. destruct (validate_total HB calls tool_list) as (r & [|] & Hr);
      [|unfold _validate in *; destruct calls as [|c calls']; [done|];
        destruct (validate_calls B _ (c :: calls')) as [[?|]|?]; simpl in *; congruence].
    exfalso. apply Hno. by apply Hsound in Hr as (? & ? & ?). }
  repeat split.
  - destruct H as [corrected H]. by apply Hsound in H as (? & ? & ?).
  - destruct H as [corrected H]. by apply Hsound in H as (? & ? & ?).
  - intros [Hne Hall]. unfold _validate. destruct calls as [|c calls']; [done|].
    destruct (validate_calls_complete HB _ _ Hall) as [corrected ->]. simpl. eauto.
  - intros corrected H. by apply Hsound in H as (? & ? & ?).
  - intros [->|Hbad]; [done|]. apply Hinvalid. intros [_ Hall].
    apply Exists_exists in Hbad as (c & Hc & Hbad).
    rewrite Forall_forall in Hall. by apply (invalidating_not_acceptable _ _ Hbad), Hall.
  - done.
Qed.

(** C8, amended: under the declared type [boolean], a boolean is left as
    it is; a string becomes [True] exactly when its lower-case form is
    ["true"], ["yes"] or ["1"], and [False] otherwise, whatever its
    truthiness; a value that is neither is replaced by its truthiness. *)
Theorem coerce_boolean :
  (forall b, _coerce B (VBool b) "boolean" = Ret (VBool b)) /\
  (forall s,
      _coerce B (VStr s) "boolean" = Ret (VBool true) <->
      lower s = "true" \/ lower s = "yes" \/ lower s = "1") /\
  (forall s,
      _coerce B (VStr s) "boolean" = Ret (VBool false) <->
      ~ (lower s = "true" \/ lower s = "yes" \/ lower s = "1")) /\
  (forall v,
      match v with
      | VBool _ | VStr _ => True
      | _ => _coerce B v "boolean" = Ret (VBool (truthy v))
      end).
Proof.
  assert (Hstr : forall s,
             bool_decide (lower s ∈ ["true"; "yes"; "1"]) = true <->
             lower s = "true" \/ lower s = "yes" \/ lower s = "1").
  { intros s. rewrite bool_decide_eq_true, !elem_of_cons, elem_of_nil. tauto. }
  repeat split.
  - intros H. apply Hstr. unfold _coerce in H. simpl in H. congruence.
  - intros H. apply Hstr in H. unfold _coerce. simpl. by rewrite H.
  - intros H Hs. apply Hstr in Hs. unfold _coerce in H. simpl in H. congruence.
  - intros H. unfold _coerce. simpl.
    destruct (bool_decide _) eqn:E; [|done]. by apply Hstr in E.
  - by intros [].
Qed.

(** C10, amended: with [int] and [float] raising nothing but
    [ValueError], [_coerce] returns a value for every argument value and
    every declared type: when the parse it attempts raises, the result
    is the raw value (types [integer] and [number]) or the raw value
    wrapped in a list (type [array]); and [_validate] returns a pair for
    every list of tools and every list of calls with a mapping of
    arguments and a hashable name, that is a name which is neither a
    list nor a dict. On a batch that begins with a call named by a list
    or a dict it raises [TypeError]. *)
Theorem coerce_validate_never_raise (HB : documented B) :
  (forall v ty, exists c, _coerce B v ty = Ret c) /\
  (forall v e,
      int_of_str B (strip (str B v)) = Raise e -> _coerce B v "integer" = Ret v) /\
  (forall v e,
      float_of_str B (strip (str B v)) = Raise e -> _coerce B v "number" = Ret v) /\
  (forall v e,
      json_loads B v = Raise e ->
      _coerce B v "array" = Ret (match v with VList _ => v | _ => VList [v] end)) /\
  (forall calls tool_list,
      Forall (fun c => Raw.hashable (Raw.raw_name c) = true) calls ->
      exists corrected flag, Raw._validate B calls tool_list = Ret (corrected, flag)) /\
  (forall c calls tool_list,
      Raw.hashable (Raw.raw_name c) = false ->
      Raw._validate B (c :: calls) tool_list = Raise TypeError).
Proof.
  split_and!.
  - apply (coerce_total HB).
  - intros v e He. rewrite coerce_integer.
    destruct v; try done; rewrite He; simpl;
      by rewrite (proj1 HB _ _ He).
  - intros v e He. rewrite coerce_number.
    destruct v; try done; rewrite He; simpl;
      by rewrite (proj2 HB _ _ He).
  - intros v e He. rewrite coerce_array. destruct v; try done; by rewrite He.
  - intros calls tool_list. apply (validate_raw_total HB).
  - intros c calls tool_list Hname. unfold Raw._validate. simpl.
    unfold Raw.validate_raw_call. by rewrite (find_tool_unhashable _ _ Hname).
Qed.

End Facts.

(** [plain] raises nothing but [ValueError] from [int] and [float]. *)
Lemma plain_documented : documented plain.
Proof.
  split; intros s e; simpl.
  - unfold int_literal. by case_match; intros [= <-].
  - unfold float_literal. by case_match; intros [= <-].
Qed.

(** The batch of one weather call is accepted and its day count coerced. *)
Lemma validate_accepts_iff_witness :
  documented plain /\
  _validate plain [weather_call] [weather_tool] =
    Ret ([Call "get_weather" [("location", VStr "Paris"); ("days", VInt 3)]], true) /\
  Forall (acceptable plain [weather_tool]) [weather_call].
Proof.
  split; [exact plain_documented|]. split; [reflexivity|].
  apply (validate_accepts_iff plain plain_documented [weather_call] [weather_tool]).
  eexists. reflexivity.
Defined.

(** C2: the range test of [_validate] misses a NaN. A batch with a NaN
    under the declared type [number] is accepted, although a NaN is a
    number that is not in the interval from -1000 to 1_000_000, while
    the infinities are rejected, as every other number outside the
    interval is; and the string ["nan"] is coerced to a NaN and accepted
    in the same way, while the string ["inf"] is rejected. *)
Theorem validate_passes_nan (B : builtins) :
  _validate B [number_call (VFloat nan)] [number_tool] =
    Ret ([number_call (VFloat nan)], true) /\
  is_number (VFloat nan) = true /\
  ~ in_interval (VFloat nan) /\
  _validate B [number_call (VFloat infinity)] [number_tool] =
    Ret ([number_call (VFloat infinity)], false) /\
  _validate B [number_call (VFloat neg_infinity)] [number_tool] =
    Ret ([number_call (VFloat neg_infinity)], false) /\
  _validate plain [number_call (VStr "nan")] [number_tool] =
    Ret ([number_call (VFloat nan)], true) /\
  _validate plain [number_call (VStr "inf")] [number_tool] =
    Ret ([number_call (VStr "inf")], false).
Proof.
  split_and!; try reflexivity. intros [H _]. vm_compute in H. discriminate H.
Qed.

(** C8 as stated fails on the string ["no"]: it is truthy and coerced
    to [False]. *)
Lemma coerce_boolean_no :
  _coerce plain (VStr "no") "boolean" = Ret (VBool false) /\
  truthy (VStr "no") = true.
Proof. split; reflexivity. Qed.

(** A string that is no integer literal stays as it is, and a batch of
    the weather call and a call without a name gets its pair. *)
Lemma coerce_validate_never_raise_witness :
  documented plain /\
  _coerce plain (VStr "soon") "integer" = Ret (VStr "soon") /\
  Forall (fun c => Raw.hashable (Raw.raw_name c) = true)
    [raw_weather_call; unnamed_call] /\
  exists corrected flag,
    Raw._validate plain [raw_weather_call; unnamed_call] [weather_tool] =
      Ret (corrected, flag).
Proof.
  assert (Hnames : Forall (fun c => Raw.hashable (Raw.raw_name c) = true)
                     [raw_weather_call; unnamed_call])
    by (repeat constructor).
  split; [exact plain_documented|]. split; [|split; [exact Hnames|]].
  - apply (coerce_validate_never_raise plain plain_documented) with (e := ValueError).
    reflexivity.
  - by apply (coerce_validate_never_raise plain plain_documented).
Defined.

(** C10 as stated fails on a call named by a list: [_validate] raises
    [TypeError] where it tests whether the name is a declared one. *)
Lemma validate_raises_on_list_name :
  Raw._validate plain [list_named_call] [weather_tool] = Raise TypeError.
Proof. reflexivity. Qed.

End ValidatorFacts.

(** ** Fingerprints and consensus *)

Module ConsensusFacts.

Import Plain Consensus ConsensusSpec.

Section Sorted.
Context `{Lexico A, !TrichotomyT (@lexico A _), !StrictOrder (@lexico A _)}.

Lemma sorted_Permutation (xs : list A) : sorted xs ≡ₚ xs.
Proof. apply merge_sort_Permutation. Qed.

Lemma sorted_eq_iff (xs ys : list A) : sorted xs = sorted ys <-> xs ≡ₚ ys.
Proof.
  split.
  - intros E. rewrite <- (sorted_Permutation xs), E. apply sorted_Permutation.
  - intros E. apply (Sorted_unique (fun x y : A => ¬ lexico y x)).
    + apply (Sorted_merge_sort _).
    + apply (Sorted_merge_sort _).
    + by rewrite !sorted_Permutation.
Qed.

End Sorted.

Section Fingerprint.
Context (B : builtins).

Lemma call_key_eq_iff c c' : call_key B c = call_key B c' <-> same_call_str B c c'.
Proof.
  unfold call_key, same_call_str. fold (stringified B c) (stringified B c').
  split.
  - intros [= Hn Hs]. split; [done|]. by apply sorted_eq_iff.
  - intros [Hn Hs]. f_equal; [done|]. by apply sorted_eq_iff.
Qed.

Lemma same_call_stringified c c' : same_call c c' -> same_call_str B c c'.
Proof.
  intros [Hn Hargs]. split; [done|]. unfold stringified. by rewrite Hargs.
Qed.

Lemma fingerprint_eq_keys cs1 cs2 :
  _fingerprint B cs1 = _fingerprint B cs2 <-> call_key B <$> cs1 ≡ₚ call_key B <$> cs2.
Proof. apply sorted_eq_iff. Qed.

Lemma keys_Forall2 cs1 cs2 :
  call_key B <$> cs1 = call_key B <$> cs2 <-> Forall2 (same_call_str B) cs1 cs2.
Proof.
  revert cs2. induction cs1 as [|c cs1 IH]; intros [|c' cs2]; simpl.
  - split; [constructor|done].
  - split; [done|]. intros H. inversion H.
  - split; [done|]. intros H. inversion H.
  - rewrite Forall2_cons, <- IH, <- call_key_eq_iff.
    generalize (call_key B c) (call_key B c'). intros k k'. split.
    + by intros [= -> Hcs].
    + intros [-> Hcs]. by f_equal.
Qed.

Lemma fingerprint_eq_iff cs1 cs2 :
  _fingerprint B cs1 = _fingerprint B cs2 <-> same_multiset (same_call_str B) cs1 cs2.
Proof.
  rewrite fingerprint_eq_keys. split.
  - intros Hp. symmetry in Hp. apply Permutation_map_inv in Hp as (cs & Hcs & Hp).
    exists cs. split; [done|]. apply keys_Forall2. by symmetry.
  - intros (cs & Hp & Hcs). apply keys_Forall2 in Hcs. rewrite <- Hcs.
    by apply fmap_Permutation.
Qed.

(** C5, amended: the fingerprint does not change when the calls are
    reordered or when the arguments within a call are; and two call
    sequences have equal fingerprints exactly when they hold the same
    multiset of (name, set of (key, [str(value)]) pairs), so values with
    the same [str], such as [1] and ["1"], are not told apart. *)
Theorem fingerprint_canonical cs1 cs2 :
  (cs1 ≡ₚ cs2 -> _fingerprint B cs1 = _fingerprint B cs2) /\
  (Forall2 same_call cs1 cs2 -> _fingerprint B cs1 = _fingerprint B cs2) /\
  (same_multiset same_call cs1 cs2 -> _fingerprint B cs1 = _fingerprint B cs2) /\
  (_fingerprint B cs1 = _fingerprint B cs2 <->
   same_multiset (same_call_str B) cs1 cs2).
Proof.
  assert (Hmulti : same_multiset same_call cs1 cs2 ->
                   _fingerprint B cs1 = _fingerprint B cs2).
  { intros (cs & Hp & Hcs). apply fingerprint_eq_iff. exists cs. split; [done|].
    eapply Forall2_impl; [exact Hcs|]. apply same_call_stringified. }
  split; [|split; [|split]].
  - intros Hp. apply Hmulti. exists cs2. split; [done|].
    apply Forall2_same_length_lookup_2; [done|].
    intros i c c' Hc Hc'. rewrite Hc in Hc'. injection Hc' as <-. by split.
  - intros Hcs. apply Hmulti. by exists cs1.
  - exact Hmulti.
  - apply fingerprint_eq_iff.
Qed.

End Fingerprint.

Section Counting.
Context `{EqDecision K}.

Lemma recorded_count_key (k k' : K) (counts : list (K * nat)) :
  recorded k' (count_key k counts) =
  (recorded k' counts + (if decide (k = k') then 1 else 0))%nat.
Proof.
  induction counts as [|[k0 n] counts IH]; simpl.
  - repeat case_decide; simplify_eq; lia.
  - repeat (case_decide; simpl); simplify_eq; lia.
Qed.

Lemma recorded_Counter_from (keys : list K) counts k :
  recorded k (foldl (fun counts k => count_key k counts) counts keys) =
  (recorded k counts + occurrences k keys)%nat.
Proof.
  revert counts. induction keys as [|k0 keys IH]; intros counts; simpl.
  - unfold occurrences. simpl. lia.
  - rewrite IH, recorded_count_key. unfold occurrences.
    rewrite filter_cons. repeat case_decide; simplify_eq; simpl; lia.
Qed.

Lemma recorded_Counter (keys : list K) k :
  recorded k (Counter keys) = occurrences k keys.
Proof. unfold Counter. by rewrite recorded_Counter_from. Qed.

Lemma tidy_count_key k (counts : list (K * nat)) : tidy counts -> tidy (count_key k counts).
Proof.
  intros [Hnd Hpos]. split.
  - induction counts as [|[k0 n] counts IH]; simpl.
    + apply NoDup_singleton.
    + apply NoDup_cons in Hnd as [Hk0 Hnd]. apply Forall_cons in Hpos as [_ Hpos].
      case_decide; simpl; [by apply NoDup_cons|].
      apply NoDup_cons. split; [|by apply IH].
      intros Hin. apply Hk0. clear IH Hnd Hpos Hk0.
      induction counts as [|[k1 m] counts IH]; simpl in *.
      * apply list_elem_of_singleton in Hin. congruence.
      * case_decide; simpl in *; [done|].
        apply elem_of_cons in Hin as [->|Hin]; [by left|]. right. by apply IH.
  - induction counts as [|[k0 n] counts IH]; simpl.
    + repeat constructor.
    + apply Forall_cons in Hpos as [Hn Hpos]. apply NoDup_cons in Hnd as [_ Hnd].
      case_decide; constructor; simpl in *; try done; [lia|by apply IH].
Qed.

Lemma tidy_Counter (keys : list K) : tidy (Counter keys).
Proof.
  unfold Counter.
  assert (H : tidy ([] : list (K * nat))) by (split; constructor).
  revert H. generalize ([] : list (K * nat)).
  induction keys as [|k keys IH]; intros counts Hc; simpl; [done|].
  by apply IH, tidy_count_key.
Qed.

Lemma tidy_recorded (counts : list (K * nat)) k n :
  tidy counts -> (k, n) ∈ counts -> recorded k counts = n.
Proof.
  intros [Hnd _]. induction counts as [|[k0 m] counts IH]; simpl.
  - by intros ?%elem_of_nil.
  - apply NoDup_cons in Hnd as [Hk0 Hnd].
    intros [[= -> ->]|Hin]%elem_of_cons; [by rewrite decide_True|].
    case_decide as Hk; [|by apply IH]. subst. exfalso. apply Hk0.
    apply list_elem_of_fmap. by exists (k, n).
Qed.

Lemma recorded_elem (counts : list (K * nat)) k :
  (0 < recorded k counts)%nat -> (k, recorded k counts) ∈ counts.
Proof.
  induction counts as [|[k0 m] counts IH]; simpl; [lia|].
  case_decide as Hk; subst; [by left|]. intros Hpos. right. by apply IH.
Qed.

Lemma occurrences_pos (k : K) keys : k ∈ keys <-> (0 < occurrences k keys)%nat.
Proof.
  unfold occurrences. split.
  - intros Hk. assert (Hf : k ∈ filter (fun k' => k' = k) keys)
      by by apply list_elem_of_filter.
    destruct (filter _ keys); [by apply elem_of_nil in Hf|simpl; lia].
  - intros Hpos. destruct (filter _ keys) as [|k' l] eqn:E; [simpl in Hpos; lia|].
    assert (Hf : k' ∈ filter (fun k' => k' = k) keys) by (rewrite E; by left).
    by apply list_elem_of_filter in Hf as [-> ?].
Qed.

Lemma foldr_max_upper (f : K -> nat) keys k :
  k ∈ keys -> (f k <= foldr Nat.max 0%nat (f <$> keys))%nat.
Proof.
  induction keys as [|k0 keys IH]; [by intros ?%elem_of_nil|]. csimpl.
  intros [->|Hk]%elem_of_cons; [lia|]. specialize (IH Hk). lia.
Qed.

Lemma foldr_max_reached (f : K -> nat) keys :
  keys <> [] -> exists k, k ∈ keys /\ f k = foldr Nat.max 0%nat (f <$> keys).
Proof.
  induction keys as [|k0 keys IH]; [done|]. intros _. csimpl.
  destruct keys as [|k1 keys].
  - exists k0. split; [by left|]. simpl. lia.
  - destruct IH as (k & Hk & Ek); [done|].
    destruct (Nat.max_spec (f k0) (foldr Nat.max 0%nat (f <$> k1 :: keys)))
      as [[_ E]|[_ E]]; rewrite E.
    + exists k. split; [by right|done].
    + exists k0. split; [by left|done].
Qed.

Lemma top_count_upper (keys : list K) k : (occurrences k keys <= top_count keys)%nat.
Proof.
  destruct (decide (k ∈ keys)) as [Hk|Hk].
  - by apply (foldr_max_upper (fun k => occurrences k keys)).
  - assert (occurrences k keys = 0)%nat as ->; [|lia].
    destruct (occurrences k keys) eqn:E; [done|]. exfalso. apply Hk.
    apply occurrences_pos. lia.
Qed.

Lemma top_count_reached (keys : list K) :
  keys <> [] -> exists k, k ∈ keys /\ occurrences k keys = top_count keys.
Proof. apply (foldr_max_reached (fun k => occurrences k keys)). Qed.

End Counting.

Lemma max_by_spec {A} (gt : A -> A -> bool) (xs : list A) :
  (forall a, gt a a = false) ->
  (forall a b, gt a b = true -> gt b a = false) ->
  (forall a b c, gt a b = false -> gt b c = false -> gt a c = false) ->
  xs <> [] ->
  exists best, max_by gt xs = Ret best /\ best ∈ xs /\
               forall y, y ∈ xs -> gt y best = false.
Proof.
  intros Hrefl Hasym Htrans Hne. destruct xs as [|x xs]; [done|]. simpl.
  eexists. split; [done|]. clear Hne.
  assert (Hinv : forall best seen,
             best ∈ seen -> (forall y, y ∈ seen -> gt y best = false) ->
             let r := foldl (fun best y => if gt y best then y else best) best xs in
             r ∈ seen ++ xs /\ forall y, y ∈ seen ++ xs -> gt y r = false).
  { induction xs as [|x' xs IH]; intros best seen Hb Hmax; simpl.
    - rewrite app_nil_r. done.
    - replace (seen ++ x' :: xs) with ((seen ++ [x']) ++ xs)
        by by rewrite <- app_assoc.
      destruct (gt x' best) eqn:Hx'; apply IH.
      + apply elem_of_app. right. by apply list_elem_of_singleton.
      + intros y [Hy|Hy%list_elem_of_singleton]%elem_of_app; [|by subst].
        apply (Htrans _ best); [by apply Hmax|by apply Hasym].
      + apply elem_of_app. by left.
      + intros y [Hy|Hy%list_elem_of_singleton]%elem_of_app;
          [by apply Hmax|by subst]. }
  destruct (Hinv x [x]) as [H1 H2].
  - by apply list_elem_of_singleton.
  - intros y Hy%list_elem_of_singleton. by subst.
  - done.
Qed.

Lemma most_common_1_spec `{EqDecision K} (keys : list K) :
  keys <> [] ->
  exists k, most_common_1 (Counter keys) = [(k, top_count keys)] /\
            k ∈ keys /\ occurrences k keys = top_count keys.
Proof.
  intros Hne. unfold most_common_1.
  assert (Hcne : Counter keys <> []).
  { destruct keys as [|k keys]; [done|].
    intros E. assert (Hk : (0 < recorded k (Counter (k :: keys)))%nat).
    { rewrite recorded_Counter. apply occurrences_pos. by left. }
    rewrite E in Hk. simpl in Hk. lia. }
  destruct (max_by_spec (fun a b : K * nat => (b.2 <? a.2)%nat) (Counter keys))
    as ([k n] & -> & Hin & Hmax); try done.
  - intros a. apply Nat.ltb_irrefl.
  - intros a b H. apply Nat.ltb_lt in H. apply Nat.ltb_ge. lia.
  - intros a b c H1 H2. apply Nat.ltb_ge in H1, H2. apply Nat.ltb_ge. lia.
  - pose proof (tidy_Counter keys) as Ht.
    pose proof (tidy_recorded _ _ _ Ht Hin) as Hn. rewrite recorded_Counter in Hn.
    assert (Hk : k ∈ keys).
    { apply occurrences_pos. rewrite Hn. destruct Ht as [_ Hpos].
      rewrite Forall_forall in Hpos. apply (Hpos _ Hin). }
    assert (n = top_count keys) as ->; [|eauto].
    apply Nat.le_antisymm; [rewrite <- Hn; apply top_count_upper|].
    destruct (top_count_reached keys Hne) as (k' & Hk' & <-).
    assert (Hin' : (k', occurrences k' keys) ∈ Counter keys).
    { rewrite <- recorded_Counter. apply recorded_elem. rewrite recorded_Counter.
      by apply occurrences_pos. }
    specialize (Hmax _ Hin'). simpl in Hmax. by apply Nat.ltb_ge in Hmax.
Qed.

Lemma Qgtb_le a b : Qgtb a b = false <-> Qle a b.
Proof.
  unfold Qgtb. rewrite negb_false_iff. apply Qle_bool_iff.
Qed.

Lemma majority_spec (B : builtins) (valid_runs : list (list call * Q)) (n : Z) :
  (majority_threshold n <= Z.of_nat (top_count (fingerprints B valid_runs)) ->
   exists best,
     majority B valid_runs n = Ret (Some best) /\
     best ∈ valid_runs /\
     occurrences (_fingerprint B best.1) (fingerprints B valid_runs) =
       top_count (fingerprints B valid_runs) /\
     forall r, r ∈ valid_runs -> _fingerprint B r.1 = _fingerprint B best.1 ->
               Qle r.2 best.2) /\
  (Z.of_nat (top_count (fingerprints B valid_runs)) < majority_threshold n ->
   majority B valid_runs n = Ret None).
Proof.
  unfold majority, majority_threshold.
  destruct valid_runs as [|r0 runs].
  { change (top_count (fingerprints B [])) with 0%nat. split; [lia|done]. }
  set (valid_runs := r0 :: runs).
  fold (fingerprints B valid_runs).
  destruct (most_common_1_spec (fingerprints B valid_runs)) as (k & -> & Hk & Hocc);
    [done|].
  simpl. split.
  - intros Hge. rewrite (proj2 (Z.leb_le _ _) Hge).
    apply list_elem_of_fmap in Hk as (rk & -> & Hrk).
    destruct (max_by_spec (fun a b : list call * Q => Qgtb a.2 b.2)
                (filter (fun r => _fingerprint B r.1 = _fingerprint B rk.1) valid_runs))
      as (best & -> & Hin & Hmax).
    + intros a. apply Qgtb_le, Qle_refl.
    + intros a b H. apply Qgtb_le. unfold Qgtb in H. apply negb_true_iff in H.
      apply Qlt_le_weak, Qnot_le_lt.
      intros Hle. apply Qle_bool_iff in Hle. congruence.
    + intros a b c H1%Qgtb_le H2%Qgtb_le. apply Qgtb_le. by eapply Qle_trans.
    + intros E. assert (Hf : rk ∈ filter (fun r => _fingerprint B r.1 = _fingerprint B rk.1) valid_runs)
        by by apply list_elem_of_filter.
      rewrite E in Hf. by apply elem_of_nil in Hf.
    + apply list_elem_of_filter in Hin as [Hfp Hin]. simpl.
      exists best. repeat split; [done| |].
      * by rewrite Hfp.
      * intros r Hr Hfpr. apply Qgtb_le, Hmax.
        apply list_elem_of_filter. split; [congruence|done].
  - intros Hlt. by rewrite (proj2 (Z.leb_gt _ _) Hlt).
Qed.

(** C5 as stated fails on the integer [1] and the string ["1"]: the two
    call sequences have equal fingerprints and different arguments. *)
Lemma fingerprint_confuses_int_and_str :
  _fingerprint plain call_one = _fingerprint plain call_one_str /\
  ~ same_multiset same_call call_one call_one_str.
Proof.
  split; [reflexivity|].
  intros (cs & Hp & Hcs). unfold call_one, call_one_str in *.
  apply Permutation_singleton_l in Hp. subst cs.
  apply Forall2_cons_1 in Hcs as [[_ Hargs] _]. simpl in Hargs.
  apply Permutation_singleton_l in Hargs. discriminate Hargs.
Qed.

End ConsensusFacts.

(** ** The decomposer *)

Module DecomposerFacts.

Import Decomposer.

Lemma decompose_shape message :
  exists parts,
    Forall (fun p => (2 <= length (split p))%nat) parts /\
    _decompose message = if (1 <? length parts)%nat then parts else [message].
Proof.
  unfold _decompose. eexists. split; [|reflexivity].
  apply Forall_forall. intros p Hp%list_elem_of_In.
  apply filter_In in Hp as [_ Hp]. by apply Nat.leb_le in Hp.
Qed.

(** C9: [_decompose] never returns an empty list; it keeps clauses of
    at least two words and returns them when there are two or more, and
    otherwise returns the list of the one original text; on the two
    sample requests it gives the two clauses, and the input alone. *)
Theorem decompose_spec :
  (forall message, (1 <= length (_decompose message))%nat) /\
  (forall message, exists clauses,
      Forall (fun p => (2 <= length (split p))%nat) clauses /\
      ((length clauses < 2)%nat -> _decompose message = [message]) /\
      ((2 <= length clauses)%nat -> _decompose message = clauses)) /\
  _decompose "Set an alarm for 6:00 AM, and check the weather in Paris" =
    ["Set an alarm for 6:00 AM"; "check the weather in Paris"] /\
  _decompose "Play some jazz" = ["Play some jazz"].
Proof.
  split; [|split; [|split; vm_compute; reflexivity]].
  - intros message. destruct (decompose_shape message) as (parts & _ & ->).
    destruct (1 <? length parts)%nat eqn:E; simpl; [|lia].
    apply Nat.ltb_lt in E. lia.
  - intros message. destruct (decompose_shape message) as (parts & Hparts & ->).
    exists parts. split; [done|]. split; intros Hlen.
    + by rewrite (proj2 (Nat.ltb_ge _ _)) by lia.
    + by rewrite (proj2 (Nat.ltb_lt _ _)) by lia.
Qed.

End DecomposerFacts.

(** ** The resolver and the orchestrator *)

Module HybridFacts.

Import Plain Validator ValidatorSpec Consensus ConsensusSpec Decomposer Hybrid HybridSpec.
Import ValidatorFacts ConsensusFacts.

Section Monad.
Context {world : Type}.

Lemma bind_Done {A C} (m : M world A) (f : A -> M world C) s c s' :
  bind m f s = Done c s' <-> exists a s1, m s = Done a s1 /\ f a s1 = Done c s'.
Proof.
  unfold bind. destruct (m s) as [a s1| |]; split; try done.
  - eauto.
  - by intros (? & ? & [= <- <-] & ?).
  - by intros (? & ? & ? & ?).
  - by intros (? & ? & ? & ?).
Qed.

Lemma lift_Done {A} (r : result A) (s : state world) a s' :
  lift r s = Done a s' <-> r = Ret a /\ s' = s.
Proof.
  unfold lift. destruct r; split; try done.
  - by intros [= <- <-].
  - by intros [[= <-] ->].
  - by intros [? ?].
Qed.

Lemma ret_Done {A} (a : A) (s : state world) b s' :
  ret a s = Done b s' <-> b = a /\ s' = s.
Proof. unfold ret. split; [by intros [= <- <-]|by intros [-> ->]]. Qed.

Lemma local_on_is_local msgs tool_list e : local_on msgs tool_list e -> is_local e.
Proof. by intros [reply ->]. Qed.

Lemma ledger_time_attempt first rest parts :
  ledger_time (Attempt first rest parts) =
  foldl (fun t p => (t + ledger_time p)%float)
    (foldl (fun t e => (t + latency e)%float) (latency first) rest) parts.
Proof. reflexivity. Qed.

Lemma ledger_events_attempt first rest parts :
  ledger_events (Attempt first rest parts) =
  first :: rest ++ concat (ledger_events <$> parts).
Proof. reflexivity. Qed.

Lemma add_times_ledgers total_time (ls : list ledger) :
  add_times total_time (ledger_time <$> ls) =
  foldl (fun t p => (t + ledger_time p)%float) total_time ls.
Proof.
  unfold add_times. revert total_time.
  induction ls as [|l ls IH]; intros total_time; csimpl; [done|apply IH].
Qed.

(** Induction on an attempt, with the property at hand for its parts. *)
Lemma ledger_parts_ind (P : ledger -> Prop) :
  (forall first rest parts, Forall P parts -> P (Attempt first rest parts)) ->
  forall l, P l.
Proof.
  intros H. fix IH 1. intros [first rest parts]. apply H.
  induction parts as [|p parts IHparts]; constructor; [apply IH|exact IHparts].
Qed.

(** Where addition is exact, the sum over an attempt in the grouping of
    the code is the sum over its calls, each counted once. *)
Lemma ledger_sum_exact (cost : event -> Z) l :
  ledger_sum Z.add cost l = foldr Z.add 0 (cost <$> ledger_events l).
Proof.
  induction l as [first rest parts IH] using ledger_parts_ind.
  change (ledger_sum Z.add cost (Attempt first rest parts))
    with (foldl (fun t p => t + ledger_sum Z.add cost p)
            (foldl (fun t e => t + cost e) (cost first) rest) parts).
  rewrite ledger_events_attempt. csimpl. rewrite fmap_app.
  assert (Hrest : forall t evs,
             foldl (fun t e => t + cost e) t evs = t + foldr Z.add 0 (cost <$> evs)).
  { intros t evs. revert t. induction evs as [|e evs IHevs]; intros t; csimpl; [lia|].
    rewrite IHevs. lia. }
  assert (Hparts : forall t,
             foldl (fun t p => t + ledger_sum Z.add cost p) t parts =
             t + foldr Z.add 0 (cost <$> concat (ledger_events <$> parts))).
  { induction IH as [|p parts Hp _ IHparts]; intros t; csimpl; [lia|].
    rewrite IHparts, Hp, fmap_app, foldr_app.
    assert (Hshift : forall z evs, foldr Z.add z evs = foldr Z.add 0 evs + z).
    { intros z evs. induction evs as [|e evs IHevs]; simpl; lia. }
    rewrite (Hshift (foldr _ _ _)). lia. }
  rewrite Hparts, Hrest, foldr_app.
  assert (Hshift : forall z evs, foldr Z.add z evs = foldr Z.add 0 evs + z).
  { intros z evs. induction evs as [|e evs IHevs]; simpl; lia. }
  rewrite (Hshift (foldr _ _ _)). lia.
Qed.

End Monad.

(** Take the hypotheses [m s = Done _ _] apart along the binds of [m]. *)
Ltac run :=
  repeat match goal with
    | H : bind _ _ _ = Done _ _ |- _ =>
        let a := fresh "a" in let s := fresh "s" in
        let H1 := fresh "Hrun" in
        apply bind_Done in H as (a & s & H1 & H)
    | H : lift _ _ = Done _ _ |- _ =>
        let Hs := fresh "Hs" in apply lift_Done in H as [H Hs]; subst
    | H : ret _ _ = Done _ _ |- _ =>
        let Hs := fresh "Hs" in apply ret_Done in H as [H Hs]; simplify_eq
    | H : (match ?x with (_, _) => _ end) _ = Done _ _ |- _ => destruct x
    | H : (let '(_, _) := ?x in _) _ = Done _ _ |- _ => destruct x
    end.

Section Accounting.
Context (B : builtins) {world : Type}.
Context (local_model : list message -> list tool -> world -> sample * world).
Context (cloud_model : list message -> list tool -> world -> cloud_reply * world).

Local Abbreviation generate_cactus := (generate_cactus local_model).
Local Abbreviation sampling_loop := (sampling_loop B local_model).
Local Abbreviation _self_consistent_with_first := (_self_consistent_with_first B local_model).
Local Abbreviation _on_device := (_on_device B local_model).
Local Abbreviation resolve_within := (resolve_within B local_model).
Local Abbreviation _resolve := (_resolve B local_model).
Local Abbreviation generate_hybrid := (generate_hybrid B local_model cloud_model).

Lemma generate_cactus_Done msgs tool_list s :
  generate_cactus msgs tool_list s =
  Done (local_model msgs tool_list (st_world s)).1
    (State (local_model msgs tool_list (st_world s)).2
       (st_trace s ++ [LocalCall msgs tool_list (local_model msgs tool_list (st_world s)).1])).
Proof. unfold Hybrid.generate_cactus. by destruct (local_model _ _ _). Qed.

Lemma generate_cactus_inv msgs tool_list s reply s' :
  generate_cactus msgs tool_list s = Done reply s' ->
  st_trace s' = st_trace s ++ [LocalCall msgs tool_list reply].
Proof. rewrite generate_cactus_Done. by intros [= <- <-]. Qed.

Lemma sampling_loop_inv k msgs tool_list valid_runs spent s valid_runs' spent' s' :
  sampling_loop k msgs tool_list valid_runs spent s = Done (valid_runs', spent') s' ->
  exists evs,
    st_trace s' = st_trace s ++ evs /\
    Forall (local_on msgs tool_list) evs /\
    length evs = k /\
    spent' = foldl (fun t e => (t + latency e)%float) spent evs.
Proof.
  revert valid_runs spent s.
  induction k as [|k IH]; intros valid_runs spent s H; simpl in H.
  - run. exists []. rewrite app_nil_r. repeat split. constructor.
  - run. apply generate_cactus_inv in Hrun.
    apply IH in H as (evs & Htr & Hloc & Hlen & ->).
    exists (LocalCall msgs tool_list a :: evs).
    rewrite Htr, Hrun, <- app_assoc. repeat split; [|simpl; lia].
    constructor; [by eexists|done].
Qed.

Lemma self_consistent_pool first_run msgs tool_list n s :
  _self_consistent_with_first first_run msgs tool_list n s =
  bind (pool B local_model first_run msgs tool_list n)
    (fun p =>
       bind (lift (majority B p.1 n))
         (fun best =>
            ret (match best with
                 | Some best => (Some (Sample best.1 p.2 best.2), p.2)
                 | None => (None, p.2)
                 end))) s.
Proof.
  unfold Hybrid._self_consistent_with_first, pool, bind, lift.
  destruct (_validate B _ _) as [[corrected0 is_valid0]|e]; [|done]. simpl.
  destruct (Hybrid.sampling_loop _ _ _ _ _ _ _ _) as [[valid_runs spent] s1| |]; done.
Qed.

Lemma pool_inv first_run msgs tool_list n s valid_runs spent s' :
  pool B local_model first_run msgs tool_list n s = Done (valid_runs, spent) s' ->
  exists evs,
    st_trace s' = st_trace s ++ evs /\
    Forall (local_on msgs tool_list) evs /\
    length evs = Z.to_nat (n - 1) /\
    spent = foldl (fun t e => (t + latency e)%float) (total_time_ms first_run) evs.
Proof.
  unfold pool. intros H. run. by apply sampling_loop_inv in H.
Qed.

Lemma self_consistent_inv first_run msgs tool_list n s r t s' :
  _self_consistent_with_first first_run msgs tool_list n s = Done (r, t) s' ->
  exists evs,
    st_trace s' = st_trace s ++ evs /\
    Forall (local_on msgs tool_list) evs /\
    length evs = Z.to_nat (n - 1) /\
    t = foldl (fun t e => (t + latency e)%float) (total_time_ms first_run) evs /\
    forall x, r = Some x -> total_time_ms x = t.
Proof.
  rewrite self_consistent_pool. intros H. run. destruct a as [valid_runs spent].
  apply pool_inv in Hrun as (evs & Htr & Hloc & Hlen & Hsp). simpl in *.
  exists evs. destruct a0 as [best|]; simplify_eq; repeat split; try done.
  by intros x [= <-].
Qed.

Lemma on_device_inv threshold msgs tool_list s r t s' :
  _on_device threshold msgs tool_list s = Done (r, t) s' ->
  exists first rest,
    st_trace s' = st_trace s ++ LocalCall msgs tool_list first :: rest /\
    Forall (local_on msgs tool_list) rest /\
    (length rest <= 2)%nat /\
    t = ledger_time (Attempt (LocalCall msgs tool_list first) rest []) /\
    forall x, r = Some x -> total_time_ms x = t.
Proof.
  unfold Hybrid._on_device. intros H. run.
  apply generate_cactus_inv in Hrun. exists a.
  destruct (_ && _).
  - run. exists []. repeat split; try done; [simpl; lia|by intros x [= <-]].
  - apply self_consistent_inv in H as (evs & Htr & Hloc & Hlen & -> & Hx).
    exists evs. rewrite Htr, Hrun, <- app_assoc. repeat split; try done.
    rewrite Hlen. unfold N_SAMPLES. simpl. lia.
Qed.

Lemma on_device_events threshold msgs tool_list s r t s' :
  _on_device threshold msgs tool_list s = Done (r, t) s' ->
  exists first rest,
    st_trace s' = st_trace s ++ ledger_events (Attempt first rest []) /\
    Forall is_local (ledger_events (Attempt first rest [])) /\
    (length (ledger_events (Attempt first rest [])) <= 3)%nat /\
    t = ledger_time (Attempt first rest []).
Proof.
  intros H. apply on_device_inv in H as (first & rest & Htr & Hloc & Hlen & Ht & _).
  exists (LocalCall msgs tool_list first), rest.
  rewrite ledger_events_attempt. csimpl. rewrite app_nil_r.
  repeat split; try done; [|simpl; lia].
  constructor; [done|].
  eapply Forall_impl; [exact Hloc|]. intros e. apply local_on_is_local.
Qed.

Lemma resolve_parts_inv bound (resolve : string -> M world (option (list call) * float))
    parts all_calls total_time s r t s' :
  accounted bound resolve ->
  resolve_parts resolve parts all_calls total_time s = Done (r, t) s' ->
  exists ls,
    st_trace s' = st_trace s ++ concat (ledger_events <$> ls) /\
    Forall is_local (concat (ledger_events <$> ls)) /\
    t = foldl (fun t p => (t + ledger_time p)%float) total_time ls /\
    (length (concat (ledger_events <$> ls)) <= foldr Nat.add 0 (bound <$> parts))%nat.
Proof.
  intros Hres. revert all_calls total_time s.
  induction parts as [|part parts IH]; intros all_calls total_time s H; simpl in H.
  - run. exists []. csimpl. rewrite app_nil_r. repeat split; [constructor|lia].
  - run. apply Hres in Hrun as (l1 & Htr1 & Hloc1 & -> & Hlen1).
    destruct o as [part_calls|].
    + apply IH in H as (ls2 & Htr2 & Hloc2 & -> & Hlen2).
      exists (l1 :: ls2). csimpl. rewrite Htr2, Htr1, <- app_assoc.
      repeat split; [by apply Forall_app|].
      rewrite length_app. lia.
    + run. exists [l1]. csimpl. rewrite app_nil_r. repeat split; try done. lia.
Qed.

Lemma attempts_bound_three levels content : (3 <= attempts_bound levels content)%nat.
Proof. destruct levels; simpl; lia. Qed.

Lemma resolve_within_inv fuel threshold non_user tools content depth max_depth s r t s' :
  resolve_within fuel threshold non_user tools content depth max_depth s = Done (r, t) s' ->
  exists l,
    st_trace s' = st_trace s ++ ledger_events l /\
    Forall is_local (ledger_events l) /\
    t = ledger_time l /\
    (length (ledger_events l) <= attempts_bound (max_depth - depth) content)%nat.
Proof.
  revert content depth s r t s'.
  induction fuel as [|fuel IH]; intros content depth s r t s' H; simpl in H; [done|].
  run. apply on_device_events in Hrun as (first & rest & Htr0 & Hloc0 & Hlen0 & ->).
  pose proof (attempts_bound_three (max_depth - depth) content) as Hthree.
  destruct o as [result|].
  { run. exists (Attempt first rest []). repeat split; try done. lia. }
  destruct (depth <? max_depth)%nat eqn:Hdepth;
    [|run; exists (Attempt first rest []); repeat split; try done; lia].
  apply Nat.ltb_lt in Hdepth.
  replace (max_depth - depth)%nat with (S (max_depth - (depth + 1)))%nat by lia.
  simpl.
  destruct (1 <? length (_decompose content))%nat;
    [|run; exists (Attempt first rest []); repeat split; try done; lia].
  apply (resolve_parts_inv (attempts_bound (max_depth - (depth + 1)))) in H
    as (ls & Htr1 & Hloc1 & -> & Hlen1).
  - exists (Attempt first rest ls).
    rewrite ledger_events_attempt in *. csimpl in *. rewrite app_nil_r in *.
    rewrite Htr1, Htr0. csimpl. rewrite <- app_assoc.
    repeat split.
    + apply Forall_cons in Hloc0 as [? ?]. constructor; [done|]. by apply Forall_app.
    + simpl. rewrite length_app. simpl in Hlen0. lia.
  - intros part s1 r1 t1 s1' Hpart. by apply IH in Hpart.
Qed.

Lemma resolve_accounted threshold non_user tools depth max_depth :
  accounted (attempts_bound (max_depth - depth))
    (fun content => _resolve threshold non_user tools content depth max_depth).
Proof. intros part s r t s' H. by apply resolve_within_inv in H. Qed.

Lemma resolve_parts_all (resolve : string -> M world (option (list call) * float))
    parts s callss times s2 all_calls total_time :
  all_resolve resolve parts s callss times s2 ->
  resolve_parts resolve parts all_calls total_time s =
  Done (Some (all_calls ++ concat callss), add_times total_time times) s2.
Proof.
  intros H. revert all_calls total_time.
  induction H as [s|part parts s calls t s1 callss times s2 Hpart _ IH];
    intros all_calls total_time; simpl.
  - by rewrite app_nil_r.
  - unfold bind at 1. rewrite Hpart.
    by rewrite (IH (all_calls ++ calls) (total_time + t)%float), <- app_assoc.
Qed.

Lemma resolve_parts_stuck (resolve : string -> M world (option (list call) * float))
    pre part post s callss times s2 tp s3 all_calls total_time :
  all_resolve resolve pre s callss times s2 ->
  resolve part s2 = Done (None, tp) s3 ->
  resolve_parts resolve (pre ++ part :: post) all_calls total_time s =
  Done (None, add_times total_time (times ++ [tp])) s3.
Proof.
  intros H Hpart. revert all_calls total_time.
  induction H as [s|p parts s calls t s1 callss times s2 Hp _ IH];
    intros all_calls total_time; simpl.
  - unfold bind at 1. by rewrite Hpart.
  - unfold bind at 1. rewrite Hp. apply IH, Hpart.
Qed.

(** The parts that resolve leave one attempt each. *)
Lemma all_resolve_ledgers bound
    (resolve : string -> M world (option (list call) * float))
    parts s callss times s2 :
  accounted bound resolve ->
  all_resolve resolve parts s callss times s2 ->
  exists ls,
    st_trace s2 = st_trace s ++ concat (ledger_events <$> ls) /\
    Forall is_local (concat (ledger_events <$> ls)) /\
    times = ledger_time <$> ls /\
    length ls = length parts.
Proof.
  intros Hres H.
  induction H as [s|part parts s calls t s1 callss times s2 Hpart _ IH].
  - exists []. csimpl. by rewrite app_nil_r.
  - destruct IH as (ls & Htr & Hloc & -> & Hlen).
    apply Hres in Hpart as (l & Htr1 & Hloc1 & -> & _).
    exists (l :: ls). csimpl. rewrite Htr, Htr1, <- app_assoc, Hlen.
    repeat split. by apply Forall_app.
Qed.

(** C6: when resolution of the whole request fails, the latest user
    text decomposes into two or more parts and every part resolves on
    the device, one after the other, [generate_hybrid] returns with
    source ["on-device"] the calls of the parts concatenated in the order
    of the parts, and as total time the time spent on the whole request
    with the times of the parts added to it in turn. The calls made
    are the local inferences of one attempt, on the whole request and
    then on each part at every depth, and the total time is the binary64
    sum of their durations in the grouping of the code. *)
Theorem merges_resolved_parts threshold messages tools s t0 s1 m callss times s2 :
  _on_device threshold messages tools s = Done (None, t0) s1 ->
  last (filter (fun m => role m = "user") messages) = Some m ->
  (1 < length (_decompose (content m)))%nat ->
  all_resolve
    (fun part =>
       _resolve threshold (filter (fun m => role m ≠ "user") messages) tools part 0 2)
    (_decompose (content m)) s1 callss times s2 ->
  generate_hybrid messages tools threshold s =
    Done (HybridResult (concat callss) (add_times t0 times) "on-device" None) s2 /\
  exists first rest parts,
    st_trace s2 = st_trace s ++ ledger_events (Attempt first rest parts) /\
    Forall is_local (ledger_events (Attempt first rest parts)) /\
    length parts = length (_decompose (content m)) /\
    t0 = ledger_time (Attempt first rest []) /\
    times = ledger_time <$> parts /\
    add_times t0 times = ledger_time (Attempt first rest parts).
Proof.
  intros Hwhole Hlast Hlen Hparts. split.
  - unfold Hybrid.generate_hybrid. unfold bind at 1. rewrite Hwhole, Hlast.
    apply Nat.ltb_lt in Hlen. rewrite Hlen.
    unfold bind at 1. by rewrite (resolve_parts_all _ _ _ _ _ _ [] t0 Hparts).
  - apply on_device_events in Hwhole as (first & rest & Htr0 & Hloc0 & _ & ->).
    apply (all_resolve_ledgers (attempts_bound 2)) in Hparts
      as (ls & Htr1 & Hloc1 & -> & Hls); [|apply (resolve_accounted _ _ _ 0 2)].
    exists first, rest, ls.
    rewrite ledger_events_attempt in *. csimpl in *. rewrite app_nil_r in *.
    rewrite Htr1, Htr0. csimpl. rewrite <- app_assoc.
    repeat split; [|done|by rewrite add_times_ledgers].
    apply Forall_cons in Hloc0 as [? ?]. constructor; [done|]. by apply Forall_app.
Qed.

(** C1: when resolution of the whole request fails, the latest user
    text decomposes into two or more parts and one of them, the parts
    before it having resolved, does not resolve (nested decomposition
    included), [generate_hybrid] makes exactly one call to the cloud
    collaborator, its last call, with the original messages and tools,
    and returns the calls of that reply and no others, with source
    ["cloud (fallback)"] and as total time the reply's own duration plus
    the time spent on the device: the time of the whole request with
    the times of the parts tried added to it in turn. The calls made
    before are the local inferences of one attempt, and the time spent
    on the device is the binary64 sum of their durations in the grouping
    of the code. *)
Theorem falls_back_when_a_part_fails threshold messages tools s t0 s1 m
    pre part post callss times s2 tp s3 :
  _on_device threshold messages tools s = Done (None, t0) s1 ->
  last (filter (fun m => role m = "user") messages) = Some m ->
  _decompose (content m) = pre ++ part :: post ->
  (1 < length (pre ++ part :: post))%nat ->
  all_resolve
    (fun part =>
       _resolve threshold (filter (fun m => role m ≠ "user") messages) tools part 0 2)
    pre s1 callss times s2 ->
  _resolve threshold (filter (fun m => role m ≠ "user") messages) tools part 0 2 s2 =
    Done (None, tp) s3 ->
  generate_hybrid messages tools threshold s =
    Done
      (HybridResult
         (cloud_function_calls (cloud_model messages tools (st_world s3)).1)
         (cloud_total_time_ms (cloud_model messages tools (st_world s3)).1
          + add_times t0 (times ++ [tp]))%float
         "cloud (fallback)" None)
      (State (cloud_model messages tools (st_world s3)).2
         (st_trace s3 ++
          [CloudCall messages tools (cloud_model messages tools (st_world s3)).1])) /\
  exists first rest parts,
    st_trace s3 = st_trace s ++ ledger_events (Attempt first rest parts) /\
    Forall is_local (ledger_events (Attempt first rest parts)) /\
    length parts = S (length pre) /\
    t0 = ledger_time (Attempt first rest []) /\
    times ++ [tp] = ledger_time <$> parts /\
    add_times t0 (times ++ [tp]) = ledger_time (Attempt first rest parts).
Proof.
  intros Hwhole Hlast Hdec Hlen Hpre Hpart. split.
  - unfold Hybrid.generate_hybrid. unfold bind at 1. rewrite Hwhole, Hlast, Hdec.
    apply Nat.ltb_lt in Hlen. rewrite Hlen.
    unfold bind at 1.
    rewrite (resolve_parts_stuck _ _ _ post _ _ _ _ _ _ [] t0 Hpre Hpart).
    unfold cloud_fallback, bind, Hybrid.generate_cloud, ret.
    by destruct (cloud_model messages tools (st_world s3)) as [reply w].
  - apply on_device_events in Hwhole as (first & rest & Htr0 & Hloc0 & _ & ->).
    apply (all_resolve_ledgers (attempts_bound 2)) in Hpre
      as (ls & Htr1 & Hloc1 & -> & Hls); [|apply (resolve_accounted _ _ _ 0 2)].
    apply (resolve_accounted _ _ _ 0 2) in Hpart as (lp & Htr2 & Hloc2 & -> & _).
    exists first, rest, (ls ++ [lp]).
    rewrite ledger_events_attempt in *. csimpl in *. rewrite app_nil_r in *.
    rewrite Htr2, Htr1, Htr0, fmap_app, concat_app. csimpl.
    rewrite app_nil_r, <- !app_assoc.
    repeat split.
    + apply Forall_cons in Hloc0 as [? ?]. constructor; [done|].
      by rewrite !Forall_app.
    + rewrite length_app. simpl. lia.
    + by rewrite fmap_app.
    + by rewrite <- add_times_ledgers, fmap_app.
Qed.

(** C4: when the first local sample validates and its confidence is at
    least the threshold, [_on_device] returns the corrected calls of
    that sample and its latency after this one local inference, the only
    call added to the trace. *)
Theorem fast_path_one_sample threshold msgs tool_list s first w corrected :
  local_model msgs tool_list (st_world s) = (first, w) ->
  _validate B (function_calls first) tool_list = Ret (corrected, true) ->
  Qle threshold (confidence first) ->
  _on_device threshold msgs tool_list s =
    Done (Some (Sample corrected (total_time_ms first) (confidence first)),
          total_time_ms first)
      (State w (st_trace s ++ [LocalCall msgs tool_list first])).
Proof.
  intros Hfirst Hvalid Hconf. unfold Hybrid._on_device.
  unfold bind at 1. rewrite generate_cactus_Done, Hfirst. simpl.
  unfold bind at 1. unfold lift at 1. rewrite Hvalid.
  apply Qle_bool_iff in Hconf. by rewrite Hconf.
Qed.

(** Whatever budget [n] it is called with, [_self_consistent_with_first]
    accepts exactly when the most frequent fingerprint of its pool
    occurs at least max(2, n // 2 + 1) times. *)
Lemma consensus_at_budget first_run msgs tool_list n s valid_runs spent s' :
  pool B local_model first_run msgs tool_list n s = Done (valid_runs, spent) s' ->
  (majority_threshold n <= Z.of_nat (top_count (fingerprints B valid_runs)) ->
   exists best,
     _self_consistent_with_first first_run msgs tool_list n s =
       Done (Some (Sample best.1 spent best.2), spent) s' /\
     best ∈ valid_runs /\
     occurrences (_fingerprint B best.1) (fingerprints B valid_runs) =
       top_count (fingerprints B valid_runs) /\
     forall r, r ∈ valid_runs -> _fingerprint B r.1 = _fingerprint B best.1 ->
               Qle r.2 best.2) /\
  (Z.of_nat (top_count (fingerprints B valid_runs)) < majority_threshold n ->
   _self_consistent_with_first first_run msgs tool_list n s = Done (None, spent) s').
Proof.
  intros Hpool. destruct (majority_spec B valid_runs n) as [Hyes Hno]. split.
  - intros Hge. destruct (Hyes Hge) as (best & Hbest & Hrest).
    exists best. split; [|done].
    rewrite self_consistent_pool. unfold bind at 1. rewrite Hpool. simpl.
    unfold bind, lift. by rewrite Hbest.
  - intros Hlt. rewrite self_consistent_pool. unfold bind at 1. rewrite Hpool. simpl.
    unfold bind, lift. by rewrite (Hno Hlt).
Qed.

(** C3: with the budget of [N_SAMPLES] = 3 samples, the only one that
    [_on_device] passes, out of the pool of valid runs that the first
    run and the two further samples leave,
    [_self_consistent_with_first] accepts exactly when the most frequent
    fingerprint occurs at least max(2, ceil(n/2)) times, that is when at
    least 2 of the 3 agree; it then returns a run of that fingerprint
    whose confidence no run of the same fingerprint exceeds, and it
    returns none otherwise. *)
Theorem consensus_by_majority first_run msgs tool_list s valid_runs spent s' :
  pool B local_model first_run msgs tool_list N_SAMPLES s =
    Done (valid_runs, spent) s' ->
  (documented_threshold N_SAMPLES <= Z.of_nat (top_count (fingerprints B valid_runs)) ->
   exists best,
     _self_consistent_with_first first_run msgs tool_list N_SAMPLES s =
       Done (Some (Sample best.1 spent best.2), spent) s' /\
     best ∈ valid_runs /\
     occurrences (_fingerprint B best.1) (fingerprints B valid_runs) =
       top_count (fingerprints B valid_runs) /\
     forall r, r ∈ valid_runs -> _fingerprint B r.1 = _fingerprint B best.1 ->
               Qle r.2 best.2) /\
  (Z.of_nat (top_count (fingerprints B valid_runs)) < documented_threshold N_SAMPLES ->
   _self_consistent_with_first first_run msgs tool_list N_SAMPLES s =
     Done (None, spent) s') /\
  documented_threshold N_SAMPLES = 2.
Proof.
  intros Hpool.
  destruct (consensus_at_budget _ _ _ _ _ _ _ _ Hpool) as [Hyes Hno].
  change (documented_threshold N_SAMPLES) with (majority_threshold N_SAMPLES).
  by split; [|split].
Qed.

(** *** Termination *)

Lemma majority_returns valid_runs n : exists r, majority B valid_runs n = Ret r.
Proof.
  destruct (majority_spec B valid_runs n) as [Hyes Hno].
  destruct (Z_le_gt_dec (majority_threshold n)
              (Z.of_nat (top_count (fingerprints B valid_runs)))) as [Hge|Hlt].
  - destruct (Hyes Hge) as (best & -> & _). eauto.
  - rewrite Hno by lia. eauto.
Qed.

Lemma sampling_loop_total (HB : documented B) k msgs tool_list valid_runs spent s :
  exists valid_runs' spent' s',
    sampling_loop k msgs tool_list valid_runs spent s = Done (valid_runs', spent') s'.
Proof.
  revert valid_runs spent s. induction k as [|k IH]; intros valid_runs spent s; simpl.
  - unfold ret. by eexists _, _, _.
  - unfold bind at 1. rewrite generate_cactus_Done.
    unfold bind at 1. unfold lift at 1.
    destruct (validate_total B HB (function_calls (local_model msgs tool_list (st_world s)).1)
                tool_list) as (corrected & flag & ->).
    apply IH.
Qed.

Lemma on_device_total (HB : documented B) threshold msgs tool_list s :
  exists r t s', _on_device threshold msgs tool_list s = Done (r, t) s'.
Proof.
  unfold Hybrid._on_device. unfold bind at 1. rewrite generate_cactus_Done.
  set (first := (local_model msgs tool_list (st_world s)).1).
  unfold bind at 1. unfold lift at 1.
  destruct (validate_total B HB (function_calls first) tool_list)
    as (corrected & flag & ->).
  destruct (_ && _); [unfold ret; by eexists _, _, _|].
  rewrite self_consistent_pool. unfold pool.
  unfold bind at 1. unfold bind at 1. unfold lift at 1.
  destruct (validate_total B HB (function_calls first) tool_list)
    as (corrected0 & flag0 & ->).
  match goal with
  | |- context [Hybrid.sampling_loop B local_model ?k ?m ?tl ?v ?sp ?st] =>
      destruct (sampling_loop_total HB k m tl v sp st) as (v' & sp' & st' & ->)
  end.
  simpl. unfold bind, lift.
  destruct (majority_returns v' N_SAMPLES) as [[best|] ->]; unfold ret;
    by eexists _, _, _.
Qed.

Lemma resolve_parts_total (resolve : string -> M world (option (list call) * float))
    parts all_calls total_time s :
  (forall part s, exists r t s', resolve part s = Done (r, t) s') ->
  exists r t s', resolve_parts resolve parts all_calls total_time s = Done (r, t) s'.
Proof.
  intros Hres. revert all_calls total_time s.
  induction parts as [|part parts IH]; intros all_calls total_time s; simpl.
  - unfold ret. by eexists _, _, _.
  - unfold bind at 1. destruct (Hres part s) as ([calls|] & t & s1 & ->).
    + apply IH.
    + unfold ret. by eexists _, _, _.
Qed.

Lemma resolve_parts_ext (f g : string -> M world (option (list call) * float))
    parts all_calls total_time s :
  (forall part s, f part s = g part s) ->
  resolve_parts f parts all_calls total_time s =
  resolve_parts g parts all_calls total_time s.
Proof.
  intros Hfg. revert all_calls total_time s.
  induction parts as [|part parts IH]; intros all_calls total_time s; simpl; [done|].
  unfold bind. rewrite Hfg. by destruct (g part s) as [[[calls|] t] s1| |].
Qed.

Lemma resolve_within_total (HB : documented B) fuel threshold non_user tools
    content depth max_depth s :
  (max_depth - depth < fuel)%nat ->
  exists r t s',
    resolve_within fuel threshold non_user tools content depth max_depth s =
    Done (r, t) s'.
Proof.
  revert content depth s.
  induction fuel as [|fuel IH]; intros content depth s Hfuel; [lia|]. simpl.
  unfold bind at 1.
  destruct (on_device_total HB threshold (non_user ++ [Message "user" content]) tools s)
    as ([result|] & t & s1 & ->); [unfold ret; by eexists _, _, _|].
  destruct (depth <? max_depth)%nat eqn:Hdepth; [|unfold ret; by eexists _, _, _].
  apply Nat.ltb_lt in Hdepth.
  destruct (1 <? length (_decompose content))%nat; [|unfold ret; by eexists _, _, _].
  apply resolve_parts_total. intros part s2. apply IH. lia.
Qed.

Lemma resolve_within_fuel fuel1 fuel2 threshold non_user tools content depth max_depth s :
  (max_depth - depth < fuel1)%nat -> (max_depth - depth < fuel2)%nat ->
  resolve_within fuel1 threshold non_user tools content depth max_depth s =
  resolve_within fuel2 threshold non_user tools content depth max_depth s.
Proof.
  revert fuel2 content depth s.
  induction fuel1 as [|fuel1 IH]; intros [|fuel2] content depth s H1 H2; try lia.
  simpl. unfold bind.
  destruct (_on_device _ _ _ _) as [[[result|] t] s1| |]; try done.
  destruct (depth <? max_depth)%nat eqn:Hdepth; [|done].
  apply Nat.ltb_lt in Hdepth.
  destruct (1 <? length (_decompose content))%nat; [|done].
  apply resolve_parts_ext. intros part s2. apply IH; lia.
Qed.

Lemma resolve_at_bound threshold non_user tools content depth max_depth s :
  (max_depth <= depth)%nat ->
  _resolve threshold non_user tools content depth max_depth s =
  resolve_whole B local_model threshold non_user tools content s.
Proof.
  intros Hdepth. unfold Hybrid._resolve, resolve_whole. simpl.
  unfold bind. destruct (_on_device _ _ _ _) as [[[result|] t] s1| |]; try done.
  by rewrite (proj2 (Nat.ltb_ge _ _) Hdepth).
Qed.

Lemma cloud_fallback_inv messages tools spent s res s' :
  cloud_fallback cloud_model messages tools spent s = Done res s' ->
  exists reply,
    st_trace s' = st_trace s ++ [CloudCall messages tools reply] /\
    res = HybridResult (cloud_function_calls reply)
            (cloud_total_time_ms reply + spent)%float "cloud (fallback)" None.
Proof.
  unfold cloud_fallback, bind, Hybrid.generate_cloud, ret.
  destruct (cloud_model messages tools (st_world s)) as [reply w].
  intros [= <- <-]. by exists reply.
Qed.

Lemma cloud_fallback_total messages tools spent s :
  exists res s', cloud_fallback cloud_model messages tools spent s = Done res s'.
Proof.
  unfold cloud_fallback, bind, Hybrid.generate_cloud, ret.
  destruct (cloud_model messages tools (st_world s)) as [reply w]. by eexists _, _.
Qed.

(** Every result is all local or all from the cloud: the calls made are
    the local inferences of one attempt, followed in the second case by
    the one call to the cloud; the total time is the time of that
    attempt, with the duration of the reply added to it in the second
    case. *)
Lemma generate_hybrid_inv threshold messages tools s res s' :
  generate_hybrid messages tools threshold s = Done res s' ->
  terminal res /\
  exists l,
    Forall is_local (ledger_events l) /\
    ((result_source res = "on-device" /\
      st_trace s' = st_trace s ++ ledger_events l /\
      result_total_time_ms res = ledger_time l /\
      (length (ledger_events l) <= request_bound messages)%nat) \/
     (result_source res = "cloud (fallback)" /\
      exists reply,
        st_trace s' = st_trace s ++ ledger_events l ++ [CloudCall messages tools reply] /\
        result_total_time_ms res = (cloud_total_time_ms reply + ledger_time l)%float /\
        result_function_calls res = cloud_function_calls reply /\
        (S (length (ledger_events l)) <= request_bound messages)%nat)).
Proof.
  unfold Hybrid.generate_hybrid, request_bound. intros H. run.
  pose proof Hrun as Htime. apply on_device_inv in Htime as (_ & _ & _ & _ & _ & _ & Htime).
  apply on_device_events in Hrun as (first & rest & Htr0 & Hloc0 & Hlen0 & ->).
  assert (Hcloud : forall l s1 bound,
             st_trace s1 = st_trace s ++ ledger_events l -> Forall is_local (ledger_events l) ->
             (length (ledger_events l) <= 3 + bound)%nat ->
             cloud_fallback cloud_model messages tools (ledger_time l) s1 = Done res s' ->
             terminal res /\
             exists l,
               Forall is_local (ledger_events l) /\
               ((result_source res = "on-device" /\
                 st_trace s' = st_trace s ++ ledger_events l /\
                 result_total_time_ms res = ledger_time l /\
                 (length (ledger_events l) <= 4 + bound)%nat) \/
                (result_source res = "cloud (fallback)" /\
                 exists reply,
                   st_trace s' =
                     st_trace s ++ ledger_events l ++ [CloudCall messages tools reply] /\
                   result_total_time_ms res =
                     (cloud_total_time_ms reply + ledger_time l)%float /\
                   result_function_calls res = cloud_function_calls reply /\
                   (S (length (ledger_events l)) <= 4 + bound)%nat))).
  { intros l s1 bound Htr1 Hloc1 Hlen1 Hfb.
    apply cloud_fallback_inv in Hfb as (reply & Htr & ->).
    split; [by right|]. exists l. split; [done|]. right. split; [done|].
    exists reply. rewrite Htr, Htr1, <- app_assoc. repeat split. lia. }
  destruct o as [result|].
  { run. split; [by left|]. exists (Attempt first rest []). split; [done|]. left.
    cbn [result_source result_total_time_ms].
    repeat split; [done|by apply Htime|lia]. }
  destruct (last _) as [m|];
    [|apply (Hcloud (Attempt first rest []) s0 0%nat); try done; lia].
  destruct (1 <? length (_decompose (content m)))%nat;
    [|apply (Hcloud (Attempt first rest []) s0 0%nat); try done; lia].
  run.
  apply (resolve_parts_inv (attempts_bound 2)) in Hrun
    as (ls & Htr1 & Hloc1 & -> & Hlen1); [|apply (resolve_accounted _ _ _ 0 2)].
  assert (Hall : st_trace s1 = st_trace s ++ ledger_events (Attempt first rest ls) /\
                 Forall is_local (ledger_events (Attempt first rest ls)) /\
                 (length (ledger_events (Attempt first rest ls)) <=
                  3 + foldr Nat.add 0
                        (attempts_bound 2 <$> _decompose (content m)))%nat).
  { rewrite ledger_events_attempt in *. csimpl in *. rewrite app_nil_r in *.
    rewrite Htr1, Htr0. csimpl. rewrite <- app_assoc. repeat split.
    - apply Forall_cons in Hloc0 as [? ?]. constructor; [done|]. by apply Forall_app.
    - simpl. rewrite length_app. simpl in Hlen0. lia. }
  destruct Hall as (Htr & Hloc & Hlen).
  destruct o as [all_calls|].
  - run. split; [by left|]. exists (Attempt first rest ls). split; [done|]. left.
    cbn [result_source result_total_time_ms]. repeat split; [done|lia].
  - by apply (Hcloud (Attempt first rest ls) s1 _ Htr Hloc Hlen).
Qed.

Lemma generate_hybrid_total (HB : documented B) threshold messages tools s :
  exists res s', generate_hybrid messages tools threshold s = Done res s'.
Proof.
  unfold Hybrid.generate_hybrid. unfold bind at 1.
  destruct (on_device_total HB threshold messages tools s)
    as ([result|] & t & s1 & ->); [unfold ret; by eexists _, _|].
  destruct (last _) as [m|]; [|apply cloud_fallback_total].
  destruct (1 <? length (_decompose (content m)))%nat; [|apply cloud_fallback_total].
  unfold bind at 1.
  match goal with
  | |- context [resolve_parts ?f ?parts ?acc ?t0 ?st] =>
      destruct (resolve_parts_total f parts acc t0 st) as ([calls|] & t' & s2 & ->)
  end.
  - intros part s2. apply (resolve_within_total HB). lia.
  - unfold ret. by eexists _, _.
  - apply cloud_fallback_total.
Qed.

(** C7: [_resolve] needs no more nested calls than there are levels
    from [depth] to [max_depth]: with that allowance, and with any
    larger one, it returns, whatever the text and whatever the local
    model answers; at the depth bound it does not decompose at all; it
    makes at most [attempts_bound] local inferences, a number fixed by
    the text alone; and [generate_hybrid] always returns, with one of
    its two sources, after at most [request_bound] calls. *)
Theorem resolution_terminates (HB : documented B) threshold tools :
  (forall non_user content depth max_depth s,
      exists r t s' evs,
        _resolve threshold non_user tools content depth max_depth s = Done (r, t) s' /\
        st_trace s' = st_trace s ++ evs /\
        (length evs <= attempts_bound (max_depth - depth) content)%nat) /\
  (forall fuel non_user content depth max_depth s,
      (max_depth - depth < fuel)%nat ->
      resolve_within fuel threshold non_user tools content depth max_depth s =
      _resolve threshold non_user tools content depth max_depth s) /\
  (forall non_user content depth max_depth s,
      (max_depth <= depth)%nat ->
      _resolve threshold non_user tools content depth max_depth s =
      resolve_whole B local_model threshold non_user tools content s) /\
  (forall messages s,
      exists res s' evs,
        generate_hybrid messages tools threshold s = Done res s' /\
        terminal res /\
        st_trace s' = st_trace s ++ evs /\
        (length evs <= request_bound messages)%nat).
Proof.
  split; [|split; [|split]].
  - intros non_user content depth max_depth s.
    destruct (resolve_within_total HB (S (max_depth - depth)) threshold non_user tools
                content depth max_depth s) as (r & t & s' & Hrun); [lia|].
    pose proof Hrun as Hacc.
    apply resolve_within_inv in Hacc as (l & Htr & _ & _ & Hlen).
    by exists r, t, s', (ledger_events l).
  - intros fuel non_user content depth max_depth s Hfuel.
    apply resolve_within_fuel; lia.
  - intros non_user content depth max_depth s. apply resolve_at_bound.
  - intros messages s.
    destruct (generate_hybrid_total HB threshold messages tools s) as (res & s' & Hrun).
    pose proof Hrun as Hacc.
    apply generate_hybrid_inv in Hacc
      as (Hterm & l & _ & [(_ & Htr & _ & Hlen)|(_ & reply & Htr & _ & _ & Hlen)]).
    + by exists res, s', (ledger_events l).
    + exists res, s', (ledger_events l ++ [CloudCall messages tools reply]).
      repeat split; try done. rewrite length_app. simpl. lia.
Qed.

End Accounting.

(** *** The statements on concrete runs *)

Lemma fast_path_one_sample_witness :
  _on_device plain tape_local (99 # 100) compound_request two_tools
    (State [hit "f" 5] []) =
  Done (Some (Sample [Call "f" []] 5 1), 5%float)
    (State [] [LocalCall compound_request two_tools (hit "f" 5)]).
Proof.
  apply (fast_path_one_sample plain tape_local (99 # 100) compound_request two_tools
           (State [hit "f" 5] []) (hit "f" 5) [] [Call "f" []]).
  - reflexivity.
  - reflexivity.
  - unfold Qle. simpl. lia.
Defined.

(** Two agreeing runs out of three: a miss, then two samples that name
    [f]. *)
Lemma consensus_by_majority_witness :
  exists s' best,
    pool plain tape_local (miss 1) compound_request two_tools 3
      (State [hit "f" 2; hit "f" 4] []) = Done (agreeing_pool, 7%float) s' /\
    _self_consistent_with_first plain tape_local (miss 1) compound_request two_tools 3
      (State [hit "f" 2; hit "f" 4] []) =
      Done (Some (Sample best.1 7 best.2), 7%float) s' /\
    best ∈ agreeing_pool.
Proof.
  assert (Hpool : exists s',
             pool plain tape_local (miss 1) compound_request two_tools 3
               (State [hit "f" 2; hit "f" 4] []) = Done (agreeing_pool, 7%float) s')
    by (eexists; vm_compute; reflexivity).
  destruct Hpool as [s' Hpool].
  destruct (consensus_by_majority plain tape_local (miss 1) compound_request two_tools
              (State [hit "f" 2; hit "f" 4] []) agreeing_pool 7%float s' Hpool)
    as (Hyes & _ & _).
  destruct Hyes as (best & Hbest & Hin & _); [vm_compute; discriminate|].
  by exists s', best.
Defined.

(** The compound request when the whole text fails three times and each
    of its three parts resolves at once. *)
Lemma merges_resolved_parts_witness :
  exists callss times s2,
    generate_hybrid plain tape_local tape_cloud compound_request two_tools (99 # 100)
      (State all_parts_tape []) =
      Done (HybridResult (concat callss) (add_times 7 times) "on-device" None) s2 /\
    concat callss = [Call "f" []; Call "g" []; Call "f" []] /\
    times = [8; 16; 32]%float /\
    exists first rest parts,
      st_trace s2 = [] ++ ledger_events (Attempt first rest parts) /\
      Forall is_local (ledger_events (Attempt first rest parts)) /\
      length parts = length (_decompose "set an alarm, play music now, and send a text") /\
      7%float = ledger_time (Attempt first rest []) /\
      times = ledger_time <$> parts /\
      add_times 7 times = ledger_time (Attempt first rest parts).
Proof.
  assert (Hrun : exists s1 callss times s2,
             _on_device plain tape_local (99 # 100) compound_request two_tools
               (State all_parts_tape []) = Done (None, 7%float) s1 /\
             all_resolve
               (fun part =>
                  _resolve plain tape_local (99 # 100)
                    (filter (fun m => role m ≠ "user") compound_request) two_tools
                    part 0 2)
               (_decompose "set an alarm, play music now, and send a text")
               s1 callss times s2 /\
             concat callss = [Call "f" []; Call "g" []; Call "f" []] /\
             times = [8; 16; 32]%float).
  { eexists _, _, _, _. split; [vm_compute; reflexivity|].
    split; [|split].
    - change (_decompose "set an alarm, play music now, and send a text")
        with ["set an alarm"; "play music now"; "send a text"].
      repeat (eapply all_resolve_cons; [vm_compute; reflexivity|]).
      apply all_resolve_nil.
    - reflexivity.
    - reflexivity. }
  destruct Hrun as (s1 & callss & times & s2 & Hwhole & Hparts & Hcalls & Htimes).
  destruct (merges_resolved_parts plain tape_local tape_cloud (99 # 100)
              compound_request two_tools (State all_parts_tape []) 7%float s1
              (Message "user" "set an alarm, play music now, and send a text")
              callss times s2 Hwhole eq_refl) as (Hres & Hledger).
  - vm_compute. lia.
  - exact Hparts.
  - by exists callss, times, s2.
Defined.

(** The compound request when the second part fails three times. *)
Lemma falls_back_when_a_part_fails_witness :
  exists (s3 : state (list sample)),
    generate_hybrid plain tape_local tape_cloud compound_request two_tools (99 # 100)
      (State second_part_fails_tape []) =
      Done (HybridResult [Call "from_cloud" []]
              (100 + add_times 7 ([8] ++ [112]))%float
              "cloud (fallback)" None)
        (State (st_world s3)
           (st_trace s3 ++
            [CloudCall compound_request two_tools
               (CloudReply [Call "from_cloud" []] 100)])) /\
    exists first rest parts,
      st_trace s3 = [] ++ ledger_events (Attempt first rest parts) /\
      Forall is_local (ledger_events (Attempt first rest parts)) /\
      length parts = 2%nat /\
      7%float = ledger_time (Attempt first rest []) /\
      [8; 112]%float = ledger_time <$> parts /\
      add_times 7 ([8] ++ [112])%float = ledger_time (Attempt first rest parts).
Proof.
  assert (Hrun : exists s1 callss s2 s3,
             _on_device plain tape_local (99 # 100) compound_request two_tools
               (State second_part_fails_tape []) = Done (None, 7%float) s1 /\
             all_resolve
               (fun part =>
                  _resolve plain tape_local (99 # 100)
                    (filter (fun m => role m ≠ "user") compound_request) two_tools
                    part 0 2)
               ["set an alarm"] s1 callss [8%float] s2 /\
             _resolve plain tape_local (99 # 100)
               (filter (fun m => role m ≠ "user") compound_request) two_tools
               "play music now" 0 2 s2 = Done (None, 112%float) s3).
  { eexists _, _, _, _. split; [vm_compute; reflexivity|].
    split.
    - eapply all_resolve_cons; [vm_compute; reflexivity|]. apply all_resolve_nil.
    - vm_compute. reflexivity. }
  destruct Hrun as (s1 & callss & s2 & s3 & Hwhole & Hpre & Hpart).
  destruct (falls_back_when_a_part_fails plain tape_local tape_cloud (99 # 100)
              compound_request two_tools (State second_part_fails_tape []) 7%float s1
              (Message "user" "set an alarm, play music now, and send a text")
              ["set an alarm"] "play music now" ["send a text"] callss [8%float] s2
              112%float s3 Hwhole eq_refl) as (Hres & Hledger).
  - vm_compute. reflexivity.
  - simpl. lia.
  - exact Hpre.
  - exact Hpart.
  - by exists s3.
Defined.

(** The compound request under the partial interpretation [plain]. *)
Lemma resolution_terminates_witness :
  documented plain /\
  exists res s' evs,
    generate_hybrid plain tape_local tape_cloud compound_request two_tools (99 # 100)
      (State second_part_fails_tape []) = Done res s' /\
    terminal res /\
    st_trace s' = [] ++ evs /\
    (length evs <= request_bound compound_request)%nat.
Proof.
  split; [exact plain_documented|].
  apply (resolution_terminates plain tape_local tape_cloud plain_documented
           (99 # 100) two_tools).
Defined.

End HybridFacts.

(** ** Strings *)

Module TextFacts.

Import Decomposer Voice Texts.

Local Open Scope string_scope.

Lemma append_cons c a b : String c a ++ b = String c (a ++ b).
Proof. reflexivity. Qed.

Lemma append_nil_l b : "" ++ b = b.
Proof. reflexivity. Qed.

Local Ltac sapp := rewrite ?append_cons, ?append_nil_l; simpl.

Lemma append_nil_r s : s ++ "" = s.
Proof. induction s as [|c s IH]; sapp; [done|]. by rewrite IH. Qed.

Lemma append_assoc (a b c : string) : (a ++ b) ++ c = a ++ b ++ c.
Proof. induction a as [|x a IH]; sapp; [done|]. by rewrite IH. Qed.

Lemma length_append a b :
  String.length (a ++ b) = (String.length a + String.length b)%nat.
Proof. induction a as [|x a IH]; sapp; [done|]. by rewrite IH. Qed.

Lemma length_of_list l : String.length (string_of_list_ascii l) = length l.
Proof. induction l as [|c l IH]; sapp; [done|]. by rewrite IH. Qed.

Lemma of_list_app l1 l2 :
  string_of_list_ascii (l1 ++ l2) = string_of_list_ascii l1 ++ string_of_list_ascii l2.
Proof. induction l1 as [|c l1 IH]; sapp; [done|]. by rewrite IH. Qed.

(** *** Letter case *)

Lemma lower_char_idemp c : lower_char (lower_char c) = lower_char c.
Proof. by destruct c as [[] [] [] [] [] [] [] []]; vm_compute. Qed.

Lemma is_space_lower_char c : is_space (lower_char c) = is_space c.
Proof. by destruct c as [[] [] [] [] [] [] [] []]; vm_compute. Qed.

Lemma lower_idemp s : lower (lower s) = lower s.
Proof.
  induction s as [|c s IH]; sapp; [done|]. by rewrite lower_char_idemp, IH.
Qed.

Lemma lower_append a b : lower (a ++ b) = lower a ++ lower b.
Proof. induction a as [|c a IH]; sapp; [done|]. by rewrite IH. Qed.

Lemma lower_length s : String.length (lower s) = String.length s.
Proof. induction s as [|c s IH]; sapp; [done|]. by rewrite IH. Qed.

Lemma lower_empty s : lower s = "" <-> s = "".
Proof. by destruct s. Qed.

(** *** Stripping *)

Lemma lstrip_length s : (String.length (lstrip s) <= String.length s)%nat.
Proof.
  induction s as [|c s IH]; sapp; [done|].
  destruct (is_space c); sapp; lia.
Qed.

Lemma rstrip_length s : (String.length (rstrip s) <= String.length s)%nat.
Proof.
  induction s as [|c s IH]; sapp; [done|].
  destruct (rstrip s); [destruct (is_space c)|]; rewrite ?append_cons, ?append_nil_l in *; simpl in *; lia.
Qed.

Lemma strip_length s : (String.length (strip s) <= String.length s)%nat.
Proof.
  unfold strip. pose proof (rstrip_length (lstrip s)). pose proof (lstrip_length s). lia.
Qed.

Lemma lstrip_tail s : tail_of s (lstrip s).
Proof.
  induction s as [|c s [front IH]]; sapp; [by exists ""|].
  destruct (is_space c).
  - exists (String c front). sapp. by rewrite <- IH.
  - by exists "".
Qed.

Lemma lstrip_head s :
  match lstrip s with
  | String c _ => is_space c = false
  | EmptyString => True
  end.
Proof.
  induction s as [|c s IH]; sapp; [done|].
  by destruct (is_space c) eqn:E.
Qed.

Lemma lstrip_fixed c r : is_space c = false -> lstrip (String c r) = String c r.
Proof. sapp. by intros ->. Qed.

Lemma rstrip_cons c r :
  is_space c = false -> exists r', rstrip (String c r) = String c r'.
Proof.
  intros Hc. sapp. destruct (rstrip r); rewrite ?Hc; eauto.
Qed.

Lemma rstrip_idemp s : rstrip (rstrip s) = rstrip s.
Proof.
  induction s as [|c s IH]; sapp; [done|].
  destruct (rstrip s) as [|c' r'] eqn:E.
  - destruct (is_space c) eqn:Hc; sapp; [done|]. by rewrite Hc.
  - rewrite ?append_cons, ?append_nil_l in *; simpl in *. by rewrite IH.
Qed.

Lemma strip_idemp s : strip (strip s) = strip s.
Proof.
  unfold strip. pose proof (lstrip_head s) as Hh.
  destruct (lstrip s) as [|c r]; [done|].
  destruct (rstrip_cons c r Hh) as [r' Hr]. rewrite Hr.
  rewrite (lstrip_fixed _ _ Hh), <- Hr. apply rstrip_idemp.
Qed.

Lemma lstrip_lower s : lstrip (lower s) = lower (lstrip s).
Proof.
  induction s as [|c s IH]; sapp; [done|].
  rewrite is_space_lower_char. by destruct (is_space c).
Qed.

Lemma rstrip_lower s : rstrip (lower s) = lower (rstrip s).
Proof.
  induction s as [|c s IH]; sapp; [done|].
  rewrite IH, is_space_lower_char.
  destruct (rstrip s); sapp; [by destruct (is_space c)|done].
Qed.

Lemma strip_lower s : strip (lower s) = lower (strip s).
Proof. unfold strip. by rewrite lstrip_lower, rstrip_lower. Qed.

Lemma rstrip_blank b : all_blank b = true -> rstrip b = "".
Proof.
  induction b as [|c b IH]; sapp; [done|].
  intros [Hc Hb]%andb_true_iff. by rewrite (IH Hb), Hc.
Qed.

Lemma lstrip_blank_front a s : all_blank a = true -> lstrip (a ++ s) = lstrip s.
Proof.
  induction a as [|c a IH]; sapp; [done|].
  intros [Hc Ha]%andb_true_iff. rewrite Hc. by apply IH.
Qed.

Lemma rstrip_blank_back s b : all_blank b = true -> rstrip (s ++ b) = rstrip s.
Proof.
  intros Hb. induction s as [|c s IH]; sapp; [by apply rstrip_blank|].
  by rewrite IH.
Qed.

Lemma lstrip_append s b :
  lstrip s <> "" -> lstrip (s ++ b) = lstrip s ++ b.
Proof.
  induction s as [|c s IH]; sapp; [done|].
  destruct (is_space c); [done|]. by intros _.
Qed.

Lemma lstrip_all_blank s : lstrip s = "" -> all_blank s = true.
Proof.
  induction s as [|c s IH]; sapp; [done|].
  destruct (is_space c); [done|]. by intros.
Qed.

Lemma strip_padded a s b :
  all_blank a = true -> all_blank b = true -> strip (a ++ s ++ b) = strip s.
Proof.
  intros Ha Hb. unfold strip. rewrite (lstrip_blank_front _ _ Ha).
  destruct (decide (lstrip s = "")) as [E|E].
  - rewrite E. pose proof (lstrip_all_blank _ E) as Hs.
    assert (Hsb : all_blank (s ++ b) = true).
    { clear -Hs Hb. induction s as [|c s IH]; rewrite ?append_cons, ?append_nil_l in *; simpl in *; [done|].
      apply andb_true_iff in Hs as [-> Hs]. by apply IH. }
    assert (lstrip (s ++ b) = "") as ->; [|done].
    pose proof (lstrip_head (s ++ b)) as Hh.
    pose proof (lstrip_tail (s ++ b)) as [front Hf].
    destruct (lstrip (s ++ b)) as [|c r]; [done|].
    exfalso. rewrite Hf in Hsb. clear -Hsb Hh.
    induction front as [|x front IH]; rewrite ?append_cons, ?append_nil_l in *; simpl in *.
    + by rewrite Hh in Hsb.
    + apply andb_true_iff in Hsb as [_ Hsb]. by apply IH.
  - rewrite (lstrip_append _ _ E). by apply rstrip_blank_back.
Qed.

(** *** Prefixes and infixes *)

Lemma drop_chars_tail n s : tail_of s (drop_chars n s).
Proof.
  revert s. induction n as [|n IH]; intros [|c s]; sapp; try (by exists "").
  destruct (IH s) as [front Hf]. exists (String c front). sapp. by rewrite <- Hf.
Qed.

Lemma drop_chars_length n s : (String.length (drop_chars n s) <= String.length s)%nat.
Proof.
  revert s. induction n as [|n IH]; intros [|c s]; sapp; try lia.
  specialize (IH s). lia.
Qed.

Lemma drop_chars_lower n s : drop_chars n (lower s) = lower (drop_chars n s).
Proof. revert s. induction n as [|n IH]; intros [|c s]; sapp; auto. Qed.

Lemma lstrip_chars_tail chars s : tail_of s (lstrip_chars chars s).
Proof.
  induction s as [|c s [front IH]]; sapp; [by exists ""|].
  destruct (existsb _ _).
  - exists (String c front). sapp. by rewrite <- IH.
  - by exists "".
Qed.

Lemma lstrip_chars_span chars s : span chars (lstrip_chars chars s) = 0%nat.
Proof.
  induction s as [|c s IH]; sapp; [done|].
  destruct (existsb _ _) eqn:E; [done|]. sapp. by rewrite E.
Qed.

Lemma tail_of_trans a b c : tail_of a b -> tail_of b c -> tail_of a c.
Proof.
  intros [f1 ->] [f2 ->]. exists (f1 ++ f2). by rewrite append_assoc.
Qed.

Lemma tail_of_refl a : tail_of a a.
Proof. by exists "". Qed.

Lemma startswith_append p s b : startswith p s = true -> startswith p (s ++ b) = true.
Proof.
  revert s. induction p as [|x p IH]; intros [|y s]; sapp; try done.
  intros [-> Hp]%andb_true_iff. sapp. by apply IH.
Qed.

Lemma contains_append_r sub s b : contains sub s = true -> contains sub (s ++ b) = true.
Proof.
  induction s as [|c s IH]; sapp.
  - rewrite orb_false_r. intros H. destruct sub; [|done]. by destruct b.
  - intros [H|H]%orb_true_iff.
    + pose proof (startswith_append _ (String c s) b H) as H'.
      rewrite append_cons in H'. by rewrite H'.
    + rewrite (IH H). apply orb_true_r.
Qed.

Lemma contains_append_l sub a s : contains sub s = true -> contains sub (a ++ s) = true.
Proof.
  intros H. induction a as [|c a IH]; sapp; [done|].
  rewrite IH. apply orb_true_r.
Qed.

Lemma contains_tail sub t r : tail_of t r -> contains sub r = true -> contains sub t = true.
Proof. intros [front ->]. apply contains_append_l. Qed.

Lemma startswith_contains sub s : startswith sub s = true -> contains sub s = true.
Proof. destruct s; sapp; intros ->; done. Qed.

End TextFacts.

(** ** More on the validator *)

Module ValidatorLaws.

Import Plain Validator ValidatorSpec ValidatorShapes ValidatorFacts.

Section Laws.
Context (B : builtins).

(** What [try: ... except (ValueError, TypeError): return value] yields
    is the parsed value or [value] itself. *)
Lemma try_parse_cases {A} (m : result A) (wrap : A -> value) v c :
  try_except (a ← m; Ret (wrap a)) [ValueError; TypeError] (Ret v) = Ret c ->
  (exists a, m = Ret a /\ c = wrap a) \/ (exists e, m = Raise e /\ c = v).
Proof.
  destruct m as [a|e]; simpl.
  - intros [= <-]. left. by exists a.
  - destruct (_ || _); [|done]. intros [= <-]. right. by exists e.
Qed.

Lemma coerce_again v ty c : _coerce B v ty = Ret c -> _coerce B c ty = Ret c.
Proof.
  intros H.
  destruct (String.eqb ty "integer") eqn:E1.
  { apply String.eqb_eq in E1 as ->. rewrite coerce_integer in *.
    destruct v; try (by injection H as <-);
      (pose proof H as H';
       apply try_parse_cases in H as [(z & _ & ->)|(e & He & ->)];
       [done|exact H']). }
  destruct (String.eqb ty "number") eqn:E2.
  { apply String.eqb_eq in E2 as ->. rewrite coerce_number in *.
    destruct v; try (by injection H as <-);
      (pose proof H as H';
       apply try_parse_cases in H as [(z & _ & ->)|(e & He & ->)];
       [done|exact H']). }
  unfold _coerce in *. rewrite E1, E2 in *.
  destruct (String.eqb ty "boolean").
  { destruct v; by injection H as <-. }
  destruct (String.eqb ty "string").
  { destruct v; by injection H as <-. }
  destruct (String.eqb ty "array").
  { destruct v; try (by injection H as <-);
      (destruct (json_loads B _) as [[]|]; simpl in H; by injection H as <-). }
  done.
Qed.

Lemma coerce_has_type v ty c : _coerce B v ty = Ret c -> has_type ty c.
Proof.
  unfold _coerce, has_type.
  destruct (String.eqb ty "integer") eqn:E1.
  { apply String.eqb_eq in E1 as ->. by intros _. }
  destruct (String.eqb ty "number") eqn:E2.
  { apply String.eqb_eq in E2 as ->. by intros _. }
  destruct (String.eqb ty "boolean") eqn:E3.
  { apply String.eqb_eq in E3 as ->. simpl.
    destruct v; intros [= <-]; eauto. }
  destruct (String.eqb ty "string") eqn:E4.
  { apply String.eqb_eq in E4 as ->. simpl.
    destruct v; intros [= <-]; eauto. }
  destruct (String.eqb ty "array") eqn:E5; [|done].
  destruct v; try (intros [= <-]; eauto);
    (destruct (json_loads B _) as [[]|]; simpl; intros [= <-]; eauto).
Qed.

Lemma coerce_arguments_inv props k v args args' :
  coerce_arguments B props ((k, v) :: args) = Ret (Some args') ->
  exists c rest,
    args' = (k, c) :: rest /\
    coerce_arguments B props args = Ret (Some rest) /\
    match props !! k with
    | Some ty => _coerce B v ty = Ret c /\ rejected ty c = false
    | None => c = v
    end.
Proof.
  simpl. destruct (props !! k) as [ty|].
  - destruct (_coerce B v ty) as [c|]; [simpl|done].
    destruct (rejected ty c) eqn:Hr; [done|].
    destruct (coerce_arguments B props args) as [[rest|]|]; try done.
    intros [= <-]. exists c, rest. by split_and!.
  - destruct (coerce_arguments B props args) as [[rest|]|]; try done.
    intros [= <-]. exists v, rest. by split_and!.
Qed.

Lemma coerce_arguments_keys props args args' :
  coerce_arguments B props args = Ret (Some args') -> args'.*1 = args.*1.
Proof.
  revert args'. induction args as [|[k v] args IH]; intros args'.
  - by intros [= <-].
  - intros (c & rest & -> & Hrest & _)%coerce_arguments_inv.
    simpl. f_equal. by apply IH.
Qed.

Lemma coerce_arguments_again props args args' :
  coerce_arguments B props args = Ret (Some args') ->
  coerce_arguments B props args' = Ret (Some args').
Proof.
  revert args'. induction args as [|[k v] args IH]; intros args'.
  - by intros [= <-].
  - intros (c & rest & -> & Hrest & Hk)%coerce_arguments_inv.
    simpl. destruct (props !! k) as [ty|].
    + destruct Hk as [Hc Hr]. rewrite (coerce_again _ _ _ Hc). simpl.
      rewrite Hr. by rewrite (IH _ Hrest).
    + by rewrite (IH _ Hrest).
Qed.

Lemma validate_call_inv tm c c' :
  validate_call B tm c = Ret (Some c') ->
  exists t args',
    tm !! name c = Some t /\
    forallb (fun field => has_key field (arguments c)) (required_of t) = true /\
    coerce_arguments B (props_of t) (arguments c) = Ret (Some args') /\
    c' = Call (name c) args'.
Proof.
  unfold validate_call. destruct (tm !! name c) as [t|] eqn:Ht; [|done].
  fold (props_of t). fold (required_of t).
  destruct (forallb _ _) eqn:Hreq; [|done].
  destruct (coerce_arguments B (props_of t) (arguments c))
    as [[args'|]|] eqn:Hargs; try done.
  intros [= <-]. by exists t, args'.
Qed.

Lemma validate_call_again tm c c' :
  validate_call B tm c = Ret (Some c') -> validate_call B tm c' = Ret (Some c').
Proof.
  intros (t & args' & Ht & Hreq & Hargs & ->)%validate_call_inv.
  unfold validate_call. simpl. rewrite Ht.
  fold (props_of t). fold (required_of t).
  unfold has_key in *. rewrite (coerce_arguments_keys _ _ _ Hargs), Hreq.
  by rewrite (coerce_arguments_again _ _ _ Hargs).
Qed.

Lemma validate_calls_inv tm c calls corrected :
  validate_calls B tm (c :: calls) = Ret (Some corrected) ->
  exists c' rest,
    corrected = c' :: rest /\
    validate_call B tm c = Ret (Some c') /\
    validate_calls B tm calls = Ret (Some rest).
Proof.
  simpl. destruct (validate_call B tm c) as [[c'|]|]; try done. simpl.
  destruct (validate_calls B tm calls) as [[rest|]|]; try done.
  intros [= <-]. by exists c', rest.
Qed.

Lemma validate_calls_again tm calls corrected :
  validate_calls B tm calls = Ret (Some corrected) ->
  validate_calls B tm corrected = Ret (Some corrected).
Proof.
  revert corrected. induction calls as [|c calls IH]; intros corrected.
  - by intros [= <-].
  - intros (c' & rest & -> & Hc & Hrest)%validate_calls_inv.
    simpl. rewrite (validate_call_again _ _ _ Hc). simpl.
    by rewrite (IH _ Hrest).
Qed.

Lemma validate_calls_length tm calls corrected :
  validate_calls B tm calls = Ret (Some corrected) ->
  length corrected = length calls.
Proof.
  revert corrected. induction calls as [|c calls IH]; intros corrected.
  - by intros [= <-].
  - intros (c' & rest & -> & _ & Hrest)%validate_calls_inv.
    simpl. f_equal. by apply IH.
Qed.

(** A batch passes exactly when it is not empty and the loop over its
    calls runs to its end. *)
Lemma validate_true_iff calls tool_list corrected :
  _validate B calls tool_list = Ret (corrected, true) <->
  calls <> [] /\
  validate_calls B (tool_map_of tool_list) calls = Ret (Some corrected).
Proof.
  unfold _validate. destruct calls as [|c calls]; [by split; [|intros []]|].
  destruct (validate_calls B _ (c :: calls)) as [[r|]|]; simpl; split;
    try done; try (by intros [_ ?]).
  - by intros [= <-].
  - by intros [_ [= <-]].
Qed.

Lemma validate_again calls tool_list corrected :
  _validate B calls tool_list = Ret (corrected, true) ->
  _validate B corrected tool_list = Ret (corrected, true).
Proof.
  rewrite !validate_true_iff. intros [Hne H]. split.
  - apply validate_calls_length in H. destruct corrected, calls; done.
  - by apply validate_calls_again in H.
Qed.

Lemma coerced_call_settled tool_list c c' :
  acceptable B tool_list c -> coerced_call B tool_list c c' ->
  settled tool_list c'.
Proof.
  intros (t & Ht & Hreq & Hrange) (Hname & t' & Ht' & Hargs).
  rewrite Ht in Ht'. injection Ht' as <-.
  assert (Hkeys : (arguments c').*1 = (arguments c).*1).
  { clear -Hargs. induction Hargs as [|kv kv' ?? [Hk _]]; simpl; [done|].
    by f_equal. }
  exists t. rewrite Hname, Hkeys. split_and!; [done..|].
  intros k v' ty Hin Hty.
  assert (exists v, (k, v) ∈ arguments c /\ _coerce B v ty = Ret v')
    as (v & Hv & Hc).
  { clear -Hargs Hin Hty.
    induction Hargs as [|[k0 v0] [k1 v1] ?? [Hk Hv] _ IH]; simpl in *.
    - by apply elem_of_nil in Hin.
    - apply elem_of_cons in Hin as [[= -> ->]|Hin].
      + subst k0. rewrite Hty in Hv. exists v0. split; [left|done].
      + destruct (IH Hin) as (v & ? & ?). exists v. split; [by right|done]. }
  split; [by eapply coerce_has_type|].
  intros Hnum Hx. by eapply Hrange.
Qed.

Lemma validated_settled calls tool_list corrected :
  _validate B calls tool_list = Ret (corrected, true) ->
  Forall (settled tool_list) corrected.
Proof.
  intros [_ H]%validate_true_iff.
  apply validate_calls_sound in H as [Hacc Hco].
  induction Hco as [|c c' calls corrected Hc _ IH]; [done|].
  apply Forall_cons in Hacc as [Hacc1 Hacc2].
  constructor; [by eapply coerced_call_settled|by apply IH].
Qed.

(** X1: coercing a value to a declared type a second time changes
    nothing: [_coerce(_coerce(v, t), t)] is [_coerce(v, t)], for every
    value and every declared type. *)
Theorem coerce_idempotent (HB : documented B) v ty :
  exists c, _coerce B v ty = Ret c /\ _coerce B c ty = Ret c.
Proof.
  destruct (coerce_total B HB v ty) as [c Hc].
  exists c. split; [done|]. by apply coerce_again in Hc.
Qed.

(** X2: coercion to [string], [boolean] or [array] always yields a value
    of that type; coercion to [integer] or [number] yields an [int]
    (a [float]) or leaves the value as it was; under any other declared
    type the value is returned as it is. *)
Theorem coerce_result_types :
  (forall v, exists s, _coerce B v "string" = Ret (VStr s)) /\
  (forall v, exists b, _coerce B v "boolean" = Ret (VBool b)) /\
  (forall v, exists l, _coerce B v "array" = Ret (VList l)) /\
  (forall v c, _coerce B v "integer" = Ret c -> c = v \/ exists z, c = VInt z) /\
  (forall v c, _coerce B v "number" = Ret c -> c = v \/ exists x, c = VFloat x) /\
  (forall v ty,
      ty ∉ ["integer"; "number"; "boolean"; "string"; "array"] ->
      _coerce B v ty = Ret v).
Proof.
  split_and!.
  - intros v. unfold _coerce. simpl. destruct v; eauto.
  - intros v. unfold _coerce. simpl. destruct v; eauto.
  - intros v. rewrite coerce_array.
    destruct v; eauto; (destruct (json_loads B _) as [[]|]; simpl; eauto).
  - intros v c. rewrite coerce_integer.
    destruct v; try (intros [= <-]; by left);
      (intros [(z & _ & ->)|(e & _ & ->)]%try_parse_cases; eauto).
  - intros v c. rewrite coerce_number.
    destruct v; try (intros [= <-]; by left);
      (intros [(z & _ & ->)|(e & _ & ->)]%try_parse_cases; eauto).
  - intros v ty Hty. unfold _coerce.
    rewrite !elem_of_cons, elem_of_nil in Hty.
    destruct (String.eqb_spec ty "integer") as [->|_]; [destruct Hty; auto 10|].
    destruct (String.eqb_spec ty "number") as [->|_]; [destruct Hty; auto 10|].
    destruct (String.eqb_spec ty "boolean") as [->|_]; [destruct Hty; auto 10|].
    destruct (String.eqb_spec ty "string") as [->|_]; [destruct Hty; auto 10|].
    destruct (String.eqb_spec ty "array") as [->|_]; [destruct Hty; auto 10|].
    done.
Qed.

(** X3: a batch that passed passes again and is returned as it is:
    validating the corrected calls yields the same corrected calls. *)
Theorem validate_idempotent calls tool_list corrected :
  _validate B calls tool_list = Ret (corrected, true) ->
  _validate B corrected tool_list = Ret (corrected, true).
Proof. apply validate_again. Qed.

(** X4: the corrected calls of a batch that passed are as many as the
    calls given, at least one, and each of them names a declared tool,
    carries every required parameter of that tool, has a [str], [bool]
    or [list] under every argument declared [string], [boolean] or
    [array], and no number below -1000 or above 1_000_000 under an
    argument declared [integer] or [number]. *)
Theorem validated_batch_shape calls tool_list corrected :
  _validate B calls tool_list = Ret (corrected, true) ->
  corrected <> [] /\
  length corrected = length calls /\
  Forall (settled tool_list) corrected.
Proof.
  intros [Hne H]%validate_true_iff.
  pose proof (validate_calls_length _ _ _ H) as Hlen.
  split_and!; [by destruct corrected, calls|done|].
  eapply validated_settled. apply validate_true_iff. by split.
Qed.

Lemma last_app_cons {A} (xs ys : list A) y : last (xs ++ y :: ys) = last (y :: ys).
Proof.
  induction xs as [|x xs IH]; [done|].
  simpl. destruct (xs ++ y :: ys) eqn:E; [by destruct xs|done].
Qed.

Lemma declaration_shadowed pre t mid t' post n :
  tool_name t = tool_name t' ->
  declaration (pre ++ t :: mid ++ t' :: post) n =
  declaration (pre ++ mid ++ t' :: post) n.
Proof.
  intros Hname. unfold declaration.
  rewrite !filter_app, !filter_cons, !filter_app, !filter_cons, Hname.
  case_decide as Hn; [|done].
  rewrite app_comm_cons, !app_assoc. by rewrite !last_app_cons.
Qed.

(** X27: when two tools of the list have the same name, the earlier
    one counts for nothing: validation gives the same result as without
    it. *)
Theorem later_declaration_wins calls pre t mid t' post :
  tool_name t = tool_name t' ->
  _validate B calls (pre ++ t :: mid ++ t' :: post) =
  _validate B calls (pre ++ mid ++ t' :: post).
Proof.
  intros Hname.
  assert (Hmap : tool_map_of (pre ++ t :: mid ++ t' :: post) =
                 tool_map_of (pre ++ mid ++ t' :: post)).
  { apply map_eq. intros n. rewrite !tool_map_lookup.
    by apply declaration_shadowed. }
  unfold _validate. by rewrite Hmap.
Qed.

End Laws.

Lemma later_declaration_wins_witness :
  _validate plain [weather_call] ([] ++ Tool "get_weather" None :: [] ++ weather_tool :: []) =
  _validate plain [weather_call] ([] ++ [] ++ weather_tool :: []).
Proof. exact (later_declaration_wins plain [weather_call] [] _ [] weather_tool [] eq_refl). Defined.

Lemma coerce_idempotent_witness :
  documented plain /\
  _coerce plain (VStr " 42 ") "integer" = Ret (VInt 42) /\
  _coerce plain (VInt 42) "integer" = Ret (VInt 42).
Proof.
  split; [exact plain_documented|].
  destruct (coerce_idempotent plain plain_documented (VStr " 42 ") "integer")
    as (c & H1 & H2).
  assert (c = VInt 42) as -> by (vm_compute in H1; congruence).
  done.
Defined.

Lemma validate_idempotent_witness :
  _validate plain [weather_call] [weather_tool] =
    Ret ([Call "get_weather" [("location", VStr "Paris"); ("days", VInt 3)]], true) /\
  _validate plain [Call "get_weather" [("location", VStr "Paris"); ("days", VInt 3)]]
    [weather_tool] =
    Ret ([Call "get_weather" [("location", VStr "Paris"); ("days", VInt 3)]], true).
Proof.
  assert (H : _validate plain [weather_call] [weather_tool] =
    Ret ([Call "get_weather" [("location", VStr "Paris"); ("days", VInt 3)]], true))
    by (vm_compute; reflexivity).
  split; [exact H|]. exact (validate_idempotent plain _ _ _ H).
Defined.

Lemma validated_batch_shape_witness :
  _validate plain [weather_call] [weather_tool] =
    Ret ([Call "get_weather" [("location", VStr "Paris"); ("days", VInt 3)]], true) /\
  Forall (settled [weather_tool])
    [Call "get_weather" [("location", VStr "Paris"); ("days", VInt 3)]].
Proof.
  assert (H : _validate plain [weather_call] [weather_tool] =
    Ret ([Call "get_weather" [("location", VStr "Paris"); ("days", VInt 3)]], true))
    by (vm_compute; reflexivity).
  split; [exact H|]. exact (proj2 (proj2 (validated_batch_shape plain _ _ _ H))).
Defined.

End ValidatorLaws.

(** ** More on the consensus *)

Module ConsensusLaws.

Import Plain Consensus ConsensusSpec ConsensusPools ConsensusFacts.

Section Counting.
Context `{EqDecision K}.

Lemma occurrences_le_length (k : K) keys : (occurrences k keys <= length keys)%nat.
Proof. unfold occurrences. apply length_filter. Qed.

Lemma top_count_le_length (keys : list K) : (top_count keys <= length keys)%nat.
Proof.
  destruct keys as [|k0 keys]; [done|].
  destruct (top_count_reached (k0 :: keys)) as (k & _ & <-); [done|].
  apply occurrences_le_length.
Qed.

Lemma occurrences_Permutation (k : K) keys keys' :
  keys ≡ₚ keys' -> occurrences k keys = occurrences k keys'.
Proof. unfold occurrences. by intros ->. Qed.

Lemma top_count_Permutation (keys keys' : list K) :
  keys ≡ₚ keys' -> top_count keys = top_count keys'.
Proof.
  assert (Hle : forall l l' : list K, l ≡ₚ l' -> (top_count l <= top_count l')%nat).
  { intros l l' Hp. destruct l as [|k0 l]; [unfold top_count; simpl; lia|].
    destruct (top_count_reached (k0 :: l)) as (k & _ & <-); [done|].
    rewrite (occurrences_Permutation k _ _ Hp). apply top_count_upper. }
  intros Hp. apply Nat.le_antisymm; by apply Hle.
Qed.

Lemma occurrences_two (k1 k2 : K) keys :
  k1 <> k2 -> (occurrences k1 keys + occurrences k2 keys <= length keys)%nat.
Proof.
  intros Hne. unfold occurrences.
  induction keys as [|k keys IH]; [done|].
  rewrite !filter_cons.
  destruct (decide (k = k1)) as [E1|E1]; destruct (decide (k = k2)) as [E2|E2];
    simpl; try lia. congruence.
Qed.

End Counting.

Lemma threshold_above_half n : n < 2 * majority_threshold n.
Proof.
  unfold majority_threshold.
  pose proof (Z.div_mod n 2 ltac:(done)) as Hdiv.
  pose proof (Z.mod_pos_bound n 2 ltac:(done)) as Hmod.
  lia.
Qed.

Lemma threshold_at_least_two n : 2 <= majority_threshold n.
Proof. unfold majority_threshold. lia. Qed.

(** Two keys cannot both reach the threshold among at most [n] keys. *)
Lemma quorum_unique `{EqDecision K} (keys : list K) n k1 k2 :
  Z.of_nat (length keys) <= n ->
  majority_threshold n <= Z.of_nat (occurrences k1 keys) ->
  majority_threshold n <= Z.of_nat (occurrences k2 keys) ->
  k1 = k2.
Proof.
  intros Hlen H1 H2. destruct (decide (k1 = k2)) as [|Hne]; [done|].
  pose proof (occurrences_two k1 k2 keys Hne).
  pose proof (threshold_above_half n). lia.
Qed.

(** The scan of [max(..., key=...)] over confidences: either the first
    item stays, no later one being greater, or the result stands later,
    greater than the first item and than all before it, and not below
    any after it. *)
Lemma scan_first_greatest {A} (f : A -> Q) x xs :
  let best := foldl (fun best y => if Qgtb (f y) (f best) then y else best) x xs in
  (best = x /\ Forall (fun y => Qle (f y) (f x)) xs) \/
  (exists pre post,
      xs = pre ++ best :: post /\
      Qlt (f x) (f best) /\
      Forall (fun y => Qlt (f y) (f best)) pre /\
      Forall (fun y => Qle (f y) (f best)) post).
Proof.
  revert x. induction xs as [|y xs IH]; intros x; simpl.
  - left. by split.
  - destruct (Qgtb (f y) (f x)) eqn:Hgt.
    + assert (Hlt : Qlt (f x) (f y)).
      { apply Qnot_le_lt. intros Hle. apply Qgtb_le in Hle. congruence. }
      right. destruct (IH y) as [[-> Hall]|(pre & post & Hxs & Hy & Hpre & Hpost)].
      * exists [], xs. by split_and!.
      * exists (y :: pre), post. split_and!.
        -- simpl. by f_equal.
        -- by apply Qlt_trans with (f y).
        -- by constructor.
        -- done.
    + apply Qgtb_le in Hgt.
      destruct (IH x) as [[-> Hall]|(pre & post & Hxs & Hx & Hpre & Hpost)].
      * left. split; [done|]. by constructor.
      * right. exists (y :: pre), post. split_and!.
        -- simpl. by f_equal.
        -- done.
        -- constructor; [|done]. by apply Qle_lt_trans with (f x).
        -- done.
Qed.

Lemma max_by_first_greatest {A} (f : A -> Q) xs best :
  max_by (fun a b => Qgtb (f a) (f b)) xs = Ret best ->
  exists pre post,
    xs = pre ++ best :: post /\
    Forall (fun y => Qlt (f y) (f best)) pre /\
    Forall (fun y => Qle (f y) (f best)) post.
Proof.
  destruct xs as [|x xs]; [done|]. simpl. intros [= <-].
  destruct (scan_first_greatest f x xs) as [[-> Hall]|(pre & post & Hxs & Hx & Hpre & Hpost)].
  - by exists [], xs.
  - exists (x :: pre), post. split_and!.
    + simpl. by f_equal.
    + by constructor.
    + done.
Qed.

Section Majority.
Context (B : builtins).

Lemma majority_Some_inv valid_runs n best :
  majority B valid_runs n = Ret (Some best) ->
  majority_threshold n <=
    Z.of_nat (occurrences (_fingerprint B best.1) (fingerprints B valid_runs)) /\
  max_by (fun a b => Qgtb a.2 b.2)
    (filter (fun r => _fingerprint B r.1 = _fingerprint B best.1) valid_runs) =
    Ret best.
Proof.
  intros H.
  destruct (Z_lt_le_dec (Z.of_nat (top_count (fingerprints B valid_runs)))
              (majority_threshold n)) as [Hlt|Hge].
  { apply (proj2 (majority_spec B valid_runs n)) in Hlt. congruence. }
  split.
  - destruct (proj1 (majority_spec B valid_runs n) Hge) as (b & Hb & _ & Hocc & _).
    rewrite H in Hb. injection Hb as <-. by rewrite Hocc.
  - unfold majority in H. destruct valid_runs as [|r0 rs]; [done|].
    destruct (first_item _) as [[best_key count]|]; [simpl in H|done].
    destruct (_ <=? _); [|done].
    destruct (max_by _ _) as [b|] eqn:Hmax; [|done].
    simpl in H. injection H as ->.
    destruct (max_by_first_greatest (@snd (list call) Q) _ _ Hmax) as (pre & post & Hxs & _).
    assert (Hin : best ∈ filter (fun r => _fingerprint B r.1 = best_key) (r0 :: rs)).
    { rewrite Hxs. apply elem_of_app. right. by left. }
    apply list_elem_of_filter in Hin as [<- _]. done.
Qed.

(** The fingerprint that wins is the only one that reaches the
    threshold among at most [n] runs. *)
Lemma majority_winner_unique valid_runs n best (r : list call * Q) :
  Z.of_nat (length valid_runs) <= n ->
  majority B valid_runs n = Ret (Some best) ->
  majority_threshold n <=
    Z.of_nat (occurrences (_fingerprint B r.1) (fingerprints B valid_runs)) ->
  _fingerprint B r.1 = _fingerprint B best.1.
Proof.
  intros Hlen [Hbest _]%majority_Some_inv Hr.
  apply (quorum_unique (fingerprints B valid_runs) n); [|done..].
  unfold fingerprints. by rewrite length_fmap.
Qed.

(** X5: the verdict of the consensus step does not depend on the order
    in which the valid runs were collected: over a pool of at most [n]
    runs and over any rearrangement of it, either both are rejected or
    both are accepted with runs of the same fingerprint and the same
    confidence. *)
Theorem consensus_order_independent valid_runs valid_runs' n :
  valid_runs ≡ₚ valid_runs' ->
  Z.of_nat (length valid_runs) <= n ->
  (majority B valid_runs n = Ret None /\ majority B valid_runs' n = Ret None) \/
  (exists best best',
      majority B valid_runs n = Ret (Some best) /\
      majority B valid_runs' n = Ret (Some best') /\
      _fingerprint B best.1 = _fingerprint B best'.1 /\
      Qeq best.2 best'.2).
Proof.
  intros Hp Hlen.
  assert (Hfp : fingerprints B valid_runs ≡ₚ fingerprints B valid_runs').
  { unfold fingerprints. by rewrite Hp. }
  pose proof (top_count_Permutation _ _ Hfp) as Htop.
  destruct (Z_lt_le_dec (Z.of_nat (top_count (fingerprints B valid_runs)))
              (majority_threshold n)) as [Hlt|Hge].
  - left. split; apply majority_spec; [done|by rewrite <- Htop].
  - right.
    destruct (proj1 (majority_spec B valid_runs n) Hge)
      as (best & Hbest & Hin & Hocc & Hconf).
    rewrite Htop in Hge.
    destruct (proj1 (majority_spec B valid_runs' n) Hge)
      as (best' & Hbest' & Hin' & Hocc' & Hconf').
    exists best, best'. split_and!; [done..| |].
    + symmetry. apply (majority_winner_unique valid_runs n best best');
        [done..|].
      rewrite (occurrences_Permutation _ _ _ Hfp), Hocc'. done.
    + assert (Heq : _fingerprint B best'.1 = _fingerprint B best.1).
      { apply (majority_winner_unique valid_runs n best best'); [done..|].
        rewrite (occurrences_Permutation _ _ _ Hfp), Hocc'. done. }
      apply Qle_antisym.
      * apply Hconf'; [by rewrite <- Hp|done].
      * apply Hconf; [by rewrite Hp|done].
Qed.

(** X6: among the runs that share the winning fingerprint, the run
    returned is the earliest of the most confident ones: each of them
    collected before it has a strictly lower confidence, and none
    collected after it has a higher one. *)
Theorem consensus_returns_earliest_best valid_runs n best :
  majority B valid_runs n = Ret (Some best) ->
  exists earlier later,
    filter (fun r => _fingerprint B r.1 = _fingerprint B best.1) valid_runs =
      earlier ++ best :: later /\
    Forall (fun r => Qlt r.2 best.2) earlier /\
    Forall (fun r => Qle r.2 best.2) later.
Proof.
  intros [_ Hmax]%majority_Some_inv.
  by apply (max_by_first_greatest (@snd (list call) Q)) in Hmax.
Qed.

End Majority.

Lemma consensus_order_independent_witness :
  split_pool ≡ₚ split_pool_rearranged /\
  Z.of_nat (length split_pool) <= 3 /\
  ((majority plain split_pool 3 = Ret None /\
    majority plain split_pool_rearranged 3 = Ret None) \/
   (exists best best',
       majority plain split_pool 3 = Ret (Some best) /\
       majority plain split_pool_rearranged 3 = Ret (Some best') /\
       _fingerprint plain best.1 = _fingerprint plain best'.1 /\
       Qeq best.2 best'.2)).
Proof.
  assert (Hp : split_pool ≡ₚ split_pool_rearranged).
  { unfold split_pool, split_pool_rearranged.
    etrans; [apply perm_swap|]. apply perm_skip, perm_swap. }
  assert (Hlen : Z.of_nat (length split_pool) <= 3) by (simpl; lia).
  split_and!; [done..|].
  exact (consensus_order_independent plain _ _ 3 Hp Hlen).
Defined.

Lemma consensus_returns_earliest_best_witness :
  majority plain split_pool 3 = Ret (Some ([Call "f" []], 9 # 10)) /\
  exists earlier later,
    filter (fun r => _fingerprint plain r.1 = _fingerprint plain [Call "f" []])
      split_pool = earlier ++ ([Call "f" []], 9 # 10) :: later /\
    Forall (fun r => Qlt r.2 (9 # 10)) earlier /\
    Forall (fun r => Qle r.2 (9 # 10)) later.
Proof.
  assert (H : majority plain split_pool 3 = Ret (Some ([Call "f" []], 9 # 10)))
    by (vm_compute; reflexivity).
  split; [exact H|].
  exact (consensus_returns_earliest_best plain _ _ _ H).
Defined.

End ConsensusLaws.

(** ** The tests on a transcript *)

Module VoiceFacts.

Import Decomposer Voice Texts TextFacts.

Local Open Scope string_scope.

Lemma after_wake_word_tail wake_words low t rest :
  after_wake_word wake_words low t = Some rest ->
  tail_of t rest /\ span SEPARATORS rest = 0%nat.
Proof.
  induction wake_words as [|w wake_words IH]; simpl; [done|].
  destruct (startswith w low); [|done].
  intros [= <-]. split; [|apply lstrip_chars_span].
  eapply tail_of_trans; [apply drop_chars_tail|apply lstrip_chars_tail].
Qed.

(** X7: a transcript is judged the same with blanks around it as
    without them, and a transcript of blanks only is no speech. *)
Theorem non_speech_ignores_blanks :
  (forall a text b,
      all_blank a = true -> all_blank b = true ->
      is_non_speech (a ++ text ++ b) = is_non_speech text) /\
  (forall text, all_blank text = true -> is_non_speech text = true).
Proof.
  assert (H : forall a text b,
      all_blank a = true -> all_blank b = true ->
      is_non_speech (a ++ text ++ b) = is_non_speech text).
  { intros a text b Ha Hb. unfold is_non_speech. by rewrite strip_padded. }
  split; [done|].
  intros text Ht. pose proof (H text "" "" Ht eq_refl) as H1.
  rewrite append_nil_l, append_nil_r in H1. by rewrite H1.
Qed.

Lemma wake_words_clean_words env :
  Forall (fun w => w <> "" /\ strip w = w /\ lower w = w) (WAKE_WORDS env).
Proof.
  unfold WAKE_WORDS. apply Forall_fmap, Forall_forall.
  intros w Hw%list_elem_of_In. apply filter_In in Hw as [_ Hw].
  apply negb_true_iff, String.eqb_neq in Hw. simpl. split_and!.
  - by rewrite lower_empty.
  - by rewrite strip_lower, strip_idemp.
  - apply lower_idemp.
Qed.

(** X8: whatever the environment variable holds, no wake word is empty,
    and each is lower-case with no blank at either end; when the
    variable is not set the wake words are [hey cactus] and [hi cactus]. *)
Theorem wake_words_clean :
  (forall env,
      Forall (fun w => w <> "" /\ strip w = w /\ lower w = w) (WAKE_WORDS env)) /\
  WAKE_WORDS None = ["hey cactus"; "hi cactus"].
Proof.
  split; [apply wake_words_clean_words|by vm_compute].
Qed.

(** X9: [strip_wake_word_prefix] only takes characters off the front of
    the stripped transcript, and when it takes a wake word off, what it
    returns does not begin with a space or with one of [,.:;!-]. *)
Theorem strip_wake_word_prefix_tail wake_words text :
  tail_of (strip text) (strip_wake_word_prefix wake_words text) /\
  (strip_wake_word_prefix wake_words text = strip text \/
   span SEPARATORS (strip_wake_word_prefix wake_words text) = 0%nat).
Proof.
  unfold strip_wake_word_prefix.
  destruct (after_wake_word _ _ _) as [rest|] eqn:Hw.
  { apply after_wake_word_tail in Hw as [? ?]. auto. }
  destruct (match_wake _) as [e|].
  - split; [|right; apply lstrip_chars_span].
    eapply tail_of_trans; [apply drop_chars_tail|apply lstrip_chars_tail].
  - split; [apply tail_of_refl|by left].
Qed.

Lemma looks_like_parts text :
  looks_like_whatsapp_command text = true <->
  (exists k, k ∈ COMMAND_TRIGGERS /\ contains k (lower text) = true) /\
  (exists k, k ∈ ["message"; "text"; "send"] /\ contains k (lower text) = true).
Proof.
  unfold looks_like_whatsapp_command.
  rewrite andb_true_iff, existsb_exists, !orb_true_iff. split.
  - intros [(k & Hk%list_elem_of_In & Hc) H]. split; [by exists k|].
    destruct H as [[H|H]|H]; eexists; (split; [|exact H]);
      rewrite !elem_of_cons; auto.
  - intros [(k & Hk & Hc) (k' & Hk' & Hc')]. split.
    + exists k. by rewrite <- list_elem_of_In.
    + rewrite !elem_of_cons, elem_of_nil in Hk'.
      destruct Hk' as [->|[->|[->|[]]]]; auto.
Qed.

(** X10: a transcript that looks like a WhatsApp command still does
    with any words before and after it. *)
Theorem command_survives_context a text b :
  looks_like_whatsapp_command text = true ->
  looks_like_whatsapp_command (a ++ text ++ b) = true.
Proof.
  rewrite !looks_like_parts, !lower_append.
  intros [(k & Hk & Hc) (k' & Hk' & Hc')]. split.
  - exists k. split; [done|].
    by apply contains_append_l, contains_append_r.
  - exists k'. split; [done|].
    by apply contains_append_l, contains_append_r.
Qed.

Lemma command_survives_context_witness :
  looks_like_whatsapp_command "send a WhatsApp to Ann" = true /\
  looks_like_whatsapp_command
    ("okay so " ++ "send a WhatsApp to Ann" ++ " right now") = true.
Proof.
  assert (H : looks_like_whatsapp_command "send a WhatsApp to Ann" = true)
    by (vm_compute; reflexivity).
  split; [exact H|].
  exact (command_survives_context "okay so " _ " right now" H).
Defined.

(** X28: a transcript that begins, after its leading blanks and in any
    letter case, with one of the wake words is always detected, however
    similar to [cactus] its second word is; and a transcript of blanks
    only is never detected. *)
Theorem wake_word_at_front_detected ratio env :
  (forall text w,
      w ∈ WAKE_WORDS env ->
      startswith w (lower (strip text)) = true ->
      detect_wake_word ratio (WAKE_WORDS env) text = true) /\
  (forall text,
      all_blank text = true ->
      detect_wake_word ratio (WAKE_WORDS env) text = false).
Proof.
  split.
  - intros text w Hw Hstart. unfold detect_wake_word.
    rewrite strip_lower.
    destruct (String.eqb_spec (lower (strip text)) "") as [E|_].
    + rewrite E in Hstart.
      assert (Hne : w <> "").
      { pose proof (wake_words_clean_words env) as Hall.
        rewrite Forall_forall in Hall. by apply Hall. }
      by destruct w.
    + assert (H : existsb (fun w => contains w (lower (strip text))) (WAKE_WORDS env)
                  = true); [|by rewrite H].
      apply existsb_exists. exists w. split; [by apply list_elem_of_In|].
      by apply startswith_contains.
  - intros text Hb. unfold detect_wake_word.
    assert (Hs : strip text = "").
    { pose proof (strip_padded text "" "" Hb eq_refl) as H.
      by rewrite append_nil_l, append_nil_r in H. }
    by rewrite strip_lower, Hs.
Qed.

End VoiceFacts.

(** ** More on the decomposer *)

Module DecomposerLaws.

Import Decomposer Voice Texts TextFacts.

Local Open Scope string_scope.

Section Splitting.
Context (matcher : string -> option nat).

Lemma re_split_from_bound skip piece s :
  Forall (fun q => (String.length q <= length piece + String.length s)%nat)
    (re_split_from matcher skip piece s).
Proof.
  revert skip piece. induction s as [|c s IH]; intros skip piece.
  - assert (H : re_split_from matcher skip piece "" =
                [string_of_list_ascii (rev piece)]).
    { destruct skip; simpl; [by destruct (matcher "") as [[]|]|done]. }
    rewrite H. constructor; [|done]. rewrite length_of_list, length_rev. simpl. lia.
  - destruct skip as [|skip]; simpl.
    + destruct (matcher (String c s)) as [[|len]|].
      * eapply Forall_impl; [apply IH|]. simpl. intros; lia.
      * constructor.
        -- rewrite length_of_list, length_rev. lia.
        -- eapply Forall_impl; [apply IH|]. simpl. intros; lia.
      * eapply Forall_impl; [apply IH|]. simpl. intros; lia.
    + eapply Forall_impl; [apply IH|]. simpl. intros; lia.
Qed.

Lemma re_split_from_shorter piece s :
  re_split_from matcher 0 piece s = [string_of_list_ascii (rev piece) ++ s] \/
  Forall (fun q => (String.length q < length piece + String.length s)%nat)
    (re_split_from matcher 0 piece s).
Proof.
  revert piece. induction s as [|c s IH]; intros piece.
  - left. simpl. rewrite append_nil_r. by destruct (matcher "") as [[]|].
  - assert (Hstep : re_split_from matcher 0 (c :: piece) s =
                      [string_of_list_ascii (rev piece) ++ String c s] \/
                    Forall (fun q => (String.length q
                                      < length piece + String.length (String c s))%nat)
                      (re_split_from matcher 0 (c :: piece) s)).
    { destruct (IH (c :: piece)) as [H|H].
      - left. rewrite H. simpl. by rewrite of_list_app, append_assoc.
      - right. eapply Forall_impl; [exact H|]. simpl. intros; lia. }
    simpl. destruct (matcher (String c s)) as [[|len]|]; [done| |done].
    right. constructor.
    + rewrite length_of_list, length_rev. simpl. lia.
    + eapply Forall_impl; [apply re_split_from_bound|]. simpl. intros; lia.
Qed.

Lemma re_split_shorter s :
  re_split matcher s = [s] \/
  Forall (fun q => (String.length q < String.length s)%nat) (re_split matcher s).
Proof. apply (re_split_from_shorter [] s). Qed.

Lemma re_split_from_whole piece s :
  (forall r, tail_of s r -> matcher r = None) ->
  re_split_from matcher 0 piece s = [string_of_list_ascii (rev piece) ++ s].
Proof.
  revert piece. induction s as [|c s IH]; intros piece Hnone.
  - simpl. rewrite append_nil_r. by destruct (matcher "") as [[]|].
  - simpl. rewrite (Hnone _ (tail_of_refl _)).
    rewrite IH.
    + simpl. by rewrite of_list_app, append_assoc.
    + intros r [front ->]. apply Hnone. by exists (String c front).
Qed.

End Splitting.

Lemma filter_shorter {A} (f : A -> bool) l :
  (length (List.filter f l) <= length l)%nat.
Proof.
  induction l as [|a l IH]; simpl; [done|]. destruct (f a); simpl; lia.
Qed.

Lemma strip_leading_and_length p :
  (String.length (strip_leading_and p) <= String.length p)%nat.
Proof.
  unfold strip_leading_and. destruct (_ && _); [apply drop_chars_length|done].
Qed.

Lemma starts_with_and_lower s :
  starts_with_and true s = true -> startswith "and" (lower s) = true.
Proof.
  destruct s as [|a [|n [|d s]]]; simpl; try done.
  intros [[Ha%Ascii.eqb_eq Hn%Ascii.eqb_eq]%andb_true_iff Hd%Ascii.eqb_eq]%andb_true_iff.
  by rewrite Ha, Hn, Hd.
Qed.

Lemma match_and_mentions s n :
  match_and true s = Some n -> contains "and" (lower s) = true.
Proof.
  unfold match_and.
  destruct (_ && _) eqn:E; [|done]. intros _.
  apply andb_true_iff in E as [[_ E]%andb_true_iff _].
  apply starts_with_and_lower, startswith_contains in E.
  rewrite <- drop_chars_lower in E.
  eapply contains_tail; [apply drop_chars_tail|exact E].
Qed.

Lemma match_comma_mentions s n :
  match_comma s = Some n -> contains "," s = true.
Proof.
  destruct s as [|c s]; [done|]. simpl.
  destruct (Ascii.eqb_spec c ","%char) as [->|Hc].
  - by intros _.
  - by destruct c as [[] [] [] [] [] [] [] []].
Qed.

Lemma tail_lower t r : tail_of t r -> tail_of (lower t) (lower r).
Proof. intros [front ->]. exists (lower front). apply lower_append. Qed.

Lemma contains_none sub t r :
  contains sub t = false -> tail_of t r -> contains sub r = false.
Proof.
  intros Ht Hr. destruct (contains sub r) eqn:E; [|done].
  by rewrite (contains_tail _ _ _ Hr E) in Ht.
Qed.

(** X11: when [_decompose] splits a message, each part is free of
    blanks at both ends and is strictly shorter than the message. *)
Theorem decompose_parts_shorter message :
  (1 < length (_decompose message))%nat ->
  Forall (fun p => strip p = p /\ (String.length p < String.length message)%nat)
    (_decompose message).
Proof.
  unfold _decompose.
  set (P := fun p : string => strip p = p /\ (String.length p < String.length message)%nat).
  set (parts1 := (fun p => strip (strip_leading_and p)) <$> List.filter _ _).
  set (candidates := strip <$> re_split (match_and true) message).
  assert (H1 : (length parts1 <= 1)%nat \/ Forall P parts1).
  { subst parts1.
    destruct (re_split_shorter match_comma message) as [->|Hall].
    - left. simpl. destruct (negb _); simpl; lia.
    - right. apply Forall_fmap, Forall_forall.
      intros q Hq%list_elem_of_In. apply filter_In in Hq as [Hq%list_elem_of_In _].
      rewrite Forall_forall in Hall. specialize (Hall q Hq). split.
      + apply strip_idemp.
      + simpl. pose proof (strip_length (strip_leading_and q)).
        pose proof (strip_leading_and_length q). lia. }
  assert (H2 : (length candidates <= 1)%nat \/ Forall P candidates).
  { subst candidates.
    destruct (re_split_shorter (match_and true) message) as [->|Hall].
    - left. simpl. lia.
    - right. apply Forall_fmap, Forall_forall.
      intros q Hq. rewrite Forall_forall in Hall. specialize (Hall q Hq). split.
      + apply strip_idemp.
      + simpl. pose proof (strip_length q). lia. }
  set (parts2 := if (length parts1 =? 1)%nat then _ else parts1).
  assert (H3 : (length parts2 <= 1)%nat \/ Forall P parts2).
  { subst parts2. destruct (length parts1 =? 1)%nat eqn:E1; [|done].
    destruct (_ && _) eqn:E2; [|done].
    destruct H2 as [H2|H2]; [|by right].
    apply andb_true_iff in E2 as [[E2%Nat.ltb_lt _]%andb_true_iff _]. lia. }
  set (parts3 := List.filter _ parts2).
  destruct (1 <? length parts3)%nat eqn:E3; [intros _|simpl; lia].
  apply Nat.ltb_lt in E3.
  assert (Hlen : (length parts3 <= length parts2)%nat).
  { apply filter_shorter. }
  destruct H3 as [H3|H3]; [lia|].
  apply Forall_forall. intros p Hp%list_elem_of_In.
  apply filter_In in Hp as [Hp%list_elem_of_In _].
  rewrite Forall_forall in H3. by apply H3.
Qed.

(** X12: a message with no comma and without the letters [and] in a
    row, in any letter case, is not split: [_decompose] returns it
    alone and as it is. *)
Theorem decompose_plain_message message :
  contains "," message = false ->
  contains "and" (lower message) = false ->
  _decompose message = [message].
Proof.
  intros Hcomma Hand. unfold _decompose.
  assert (Hc : re_split match_comma message = [message]).
  { apply (re_split_from_whole match_comma [] message).
    intros r Hr. destruct (match_comma r) as [n|] eqn:E; [|done].
    apply match_comma_mentions in E.
    by rewrite (contains_none _ _ _ Hcomma Hr) in E. }
  assert (Ha : re_split (match_and true) message = [message]).
  { apply (re_split_from_whole (match_and true) [] message).
    intros r Hr. destruct (match_and true r) as [n|] eqn:E; [|done].
    apply match_and_mentions in E.
    by rewrite (contains_none _ _ _ Hand (tail_lower _ _ Hr)) in E. }
  rewrite Hc, Ha. simpl.
  destruct (negb (strip message =? "")%string); simpl; [|done].
  by destruct (length (split (strip (strip_leading_and message)))) as [|[|?]].
Qed.

Lemma decompose_parts_shorter_witness :
  (1 < length (_decompose "set an alarm, play music now"))%nat /\
  Forall (fun p => strip p = p /\
                   (String.length p < String.length "set an alarm, play music now")%nat)
    (_decompose "set an alarm, play music now").
Proof.
  assert (H : (1 < length (_decompose "set an alarm, play music now"))%nat)
    by (vm_compute; lia).
  split; [exact H|]. exact (decompose_parts_shorter _ H).
Defined.

Lemma decompose_plain_message_witness :
  contains "," "Play some jazz" = false /\
  contains "and" (lower "Play some jazz") = false /\
  _decompose "Play some jazz" = ["Play some jazz"].
Proof.
  split_and!; [done..|].
  exact (decompose_plain_message "Play some jazz" eq_refl eq_refl).
Defined.

End DecomposerLaws.

(** ** The ring buffer *)

Module BufferFacts.

Import Buffer BufferTerms.

Section Samples.
Context {raw sample : Type} (astype : raw -> sample).

Local Abbreviation push := (push astype).
Local Abbreviation ring := (AudioRingBuffer sample).

Lemma total_cons (old : list sample) chunks :
  total (old :: chunks) = Z.of_nat (length old) + total chunks.
Proof. unfold total. simpl. rewrite length_app. lia. Qed.

Lemma total_app (xs ys : list (list sample)) : total (xs ++ ys) = total xs + total ys.
Proof. unfold total. rewrite concat_app, length_app. lia. Qed.

Lemma total_nonneg (chunks : list (list sample)) : 0 <= total chunks.
Proof. unfold total. lia. Qed.

(** What the trimming loop leaves: a tail of the chunks that fits, or
    nothing; and each chunk it drops would not have fitted together with
    the chunks after it. *)
Lemma trim_spec M (chunks : list (list sample)) n :
  n = total chunks ->
  exists dropped,
    chunks = dropped ++ (trim M chunks n).1 /\
    (trim M chunks n).2 = total (trim M chunks n).1 /\
    ((trim M chunks n).2 <= M \/ (trim M chunks n).1 = []) /\
    (forall d1 old d2,
        dropped = d1 ++ old :: d2 ->
        M < total (old :: d2 ++ (trim M chunks n).1)).
Proof.
  revert n. induction chunks as [|old chunks IH]; intros n Hn.
  - exists []. simpl. split_and!; [done|done|by right|].
    intros d1 old d2 H. by destruct d1.
  - simpl. destruct (M <? n) eqn:E.
    + apply Z.ltb_lt in E.
      destruct (IH (n - Z.of_nat (length old))) as (dropped & Hd & Hn' & Hfit & Hmin).
      { rewrite total_cons in Hn. lia. }
      exists (old :: dropped). split_and!; [by rewrite <- app_comm_cons, <- Hd|done..|].
      intros d1 old' d2 H. destruct d1 as [|x d1]; simpl in H.
      * injection H as <- <-. by rewrite <- Hd, <- Hn.
      * injection H as _ H. by apply (Hmin d1).
    + apply Z.ltb_ge in E. exists []. simpl. split_and!; [done|done|by left|].
      intros d1 old' d2 H. by destruct d1.
Qed.

Lemma trim_overflow M (chunks : list (list sample)) mono n :
  n = total (chunks ++ [mono]) ->
  M < Z.of_nat (length mono) ->
  trim M (chunks ++ [mono]) n = ([], 0).
Proof.
  revert n. induction chunks as [|old chunks IH]; intros n Hn HM; simpl.
  - rewrite app_nil_l, total_cons in Hn. unfold total in Hn. simpl in Hn.
    rewrite (proj2 (Z.ltb_lt _ _)) by lia. f_equal. lia.
  - rewrite <- app_comm_cons, total_cons, total_app, total_cons in Hn.
    pose proof (total_nonneg chunks). unfold total at 2 in Hn. simpl in Hn.
    rewrite (proj2 (Z.ltb_lt _ _)) by lia.
    apply IH; [|done]. rewrite total_app, total_cons. unfold total at 2. simpl. lia.
Qed.

Lemma trim_keeps_last M (chunks : list (list sample)) mono n :
  n = total (chunks ++ [mono]) ->
  Z.of_nat (length mono) <= M ->
  exists kept,
    trim M (chunks ++ [mono]) n = (kept ++ [mono], total (kept ++ [mono])).
Proof.
  revert n. induction chunks as [|old chunks IH]; intros n Hn HM; simpl.
  - rewrite app_nil_l, total_cons in Hn. unfold total in Hn. simpl in Hn.
    rewrite (proj2 (Z.ltb_ge _ _)) by lia. exists []. simpl. f_equal.
    rewrite total_cons. unfold total. simpl. lia.
  - destruct (M <? n) eqn:E.
    + apply IH; [|done]. rewrite <- app_comm_cons, total_cons in Hn. lia.
    + exists (old :: chunks). by rewrite Hn.
Qed.

Lemma push_fields (b : ring) frames :
  sr (push b frames) = sr b /\ max_frames (push b frames) = max_frames b /\
  buf (push b frames) =
    (trim (max_frames b) (buf b ++ [astype <$> concat frames])
       (n_frames b + Z.of_nat (length (astype <$> concat frames)))).1 /\
  n_frames (push b frames) =
    (trim (max_frames b) (buf b ++ [astype <$> concat frames])
       (n_frames b + Z.of_nat (length (astype <$> concat frames)))).2.
Proof. unfold Buffer.push. by destruct (trim _ _ _). Qed.

Lemma push_total (b : ring) frames :
  consistent b ->
  n_frames b + Z.of_nat (length (astype <$> concat frames)) =
  total (buf b ++ [astype <$> concat frames]).
Proof.
  unfold consistent. intros ->. rewrite total_app, total_cons.
  unfold total at 3. simpl. lia.
Qed.

Lemma push_consistent (b : ring) frames :
  consistent b ->
  consistent (push b frames) /\
  0 <= n_frames (push b frames) <= Z.max 0 (max_frames b).
Proof.
  intros Hb. destruct (push_fields b frames) as (_ & _ & Hbuf & Hn).
  destruct (trim_spec (max_frames b) _ _ (push_total b frames Hb))
    as (dropped & _ & Htot & Hfit & _).
  unfold consistent. rewrite Hbuf, Hn, Htot.
  pose proof (total_nonneg (trim (max_frames b) (buf b ++ [astype <$> concat frames])
       (n_frames b + Z.of_nat (length (astype <$> concat frames)))).1).
  split; [done|]. destruct Hfit as [Hfit|Hfit].
  - rewrite Htot in Hfit. lia.
  - rewrite Hfit. unfold total. simpl. lia.
Qed.

Lemma init_fields max_seconds rate (b0 : ring) :
  __init__ max_seconds rate = Ret b0 ->
  sr b0 = rate /\ buf b0 = [] /\ n_frames b0 = 0 /\
  frames_in max_seconds rate = Ret (max_frames b0).
Proof.
  unfold __init__. destruct (frames_in max_seconds rate) as [m|]; [|done].
  simpl. by intros [= <-].
Qed.

(** X13: a buffer made by [__init__] and filled by any sequence of
    pushes always counts in [n_frames] exactly the samples it holds, and
    never holds more than [max_frames] of them; [max_frames] and [sr]
    stay as [__init__] set them. *)
Theorem buffer_within_capacity max_seconds rate (b0 : ring) framess :
  __init__ max_seconds rate = Ret b0 ->
  consistent (foldl push b0 framess) /\
  0 <= n_frames (foldl push b0 framess) <= Z.max 0 (max_frames b0) /\
  max_frames (foldl push b0 framess) = max_frames b0 /\
  sr (foldl push b0 framess) = rate.
Proof.
  intros (Hsr & Hbuf & Hn & _)%init_fields.
  induction framess as [|frames framess IH] using rev_ind.
  - simpl. unfold consistent. rewrite Hbuf, Hn. split_and!; [done|lia|lia|done..].
  - rewrite foldl_app. simpl.
    destruct IH as (Hc & _ & Hmax & Hrate).
    destruct (push_fields (foldl push b0 framess) frames) as (-> & -> & _ & _).
    destruct (push_consistent _ frames Hc) as [Hc' Hr]. rewrite Hmax in Hr.
    split_and!; (done || lia).
Qed.

(** X14: a push drops whole chunks from the old end only, and no more
    than it must: what the buffer holds afterwards is a tail of the old
    chunks followed by the new one, and each chunk dropped would, with
    all the chunks after it, have exceeded [max_frames]. *)
Theorem push_drops_oldest_only (b : ring) frames :
  consistent b ->
  exists dropped,
    buf b ++ [astype <$> concat frames] = dropped ++ buf (push b frames) /\
    forall d1 old d2,
      dropped = d1 ++ old :: d2 ->
      max_frames b < total (old :: d2 ++ buf (push b frames)).
Proof.
  intros Hb. destruct (push_fields b frames) as (_ & _ & -> & _).
  destruct (trim_spec (max_frames b) _ _ (push_total b frames Hb))
    as (dropped & Hd & _ & _ & Hmin).
  by exists dropped.
Qed.

(** X15: a push of more samples than [max_frames] empties the buffer:
    the new chunk is dropped together with all the old ones. *)
Theorem oversize_push_empties (b : ring) frames :
  consistent b ->
  max_frames b < Z.of_nat (length (concat frames)) ->
  buf (push b frames) = [] /\ n_frames (push b frames) = 0.
Proof.
  intros Hb Hbig. destruct (push_fields b frames) as (_ & _ & -> & ->).
  rewrite (trim_overflow (max_frames b) (buf b) (astype <$> concat frames));
    [done|by apply push_total|by rewrite length_fmap].
Qed.

Lemma consistent_empty (b : ring) :
  consistent b -> n_frames b = 0 -> held b = [].
Proof.
  unfold consistent, total, held. intros -> H.
  destruct (concat (buf b)); [done|simpl in H; lia].
Qed.

(** X16: with [need] the number [int(seconds * sr)] of samples asked
    for, [snapshot_last] returns the newest [need] samples held, all of
    them if fewer are held, when [need] is positive; everything held,
    not nothing, when [need] is zero; and everything but the oldest
    [-need] samples when [need] is negative. *)
Theorem snapshot_last_window (b : ring) seconds need :
  consistent b ->
  frames_in seconds (sr b) = Ret need ->
  (0 < need ->
   snapshot_last b seconds =
     Ret (drop (length (held b) - Z.to_nat need) (held b))) /\
  (need = 0 -> snapshot_last b seconds = Ret (held b)) /\
  (need < 0 ->
   snapshot_last b seconds = Ret (drop (Z.to_nat (- need)) (held b))).
Proof.
  intros Hb Hneed. unfold snapshot_last. rewrite Hneed. simpl.
  fold (held b).
  destruct (n_frames b =? 0) eqn:E0.
  { apply Z.eqb_eq in E0. rewrite (consistent_empty b Hb E0).
    split_and!; intros _; by rewrite ?drop_nil. }
  destruct (Z.of_nat (length (held b)) <=? need) eqn:E1.
  { apply Z.leb_le in E1. apply Z.eqb_neq in E0.
    unfold consistent, total in Hb. fold (held b) in Hb.
    split_and!; intros Hn; try lia.
    replace (length (held b) - Z.to_nat need)%nat with 0%nat by lia. done. }
  apply Z.leb_gt in E1. unfold slice_from.
  split_and!; intros Hn.
  - rewrite (proj2 (Z.ltb_lt _ _)) by lia. do 2 f_equal. lia.
  - subst need. simpl. by rewrite Z.min_l by lia.
  - rewrite (proj2 (Z.ltb_ge _ _)) by lia.
    destruct (Z_le_gt_dec (- need) (Z.of_nat (length (held b)))) as [Hle|Hgt].
    + by rewrite Z.min_l by lia.
    + rewrite Z.min_r by lia. rewrite Nat2Z.id.
      by rewrite !drop_ge by lia.
Qed.

(** X17: right after a push that fits in the buffer, a snapshot of at
    least as many samples as were pushed ends with the samples pushed. *)
Theorem snapshot_ends_with_push (b : ring) frames seconds need :
  consistent b ->
  Z.of_nat (length (concat frames)) <= max_frames b ->
  frames_in seconds (sr b) = Ret need ->
  Z.of_nat (length (concat frames)) <= need ->
  exists older,
    snapshot_last (push b frames) seconds = Ret (older ++ (astype <$> concat frames)).
Proof.
  intros Hb Hfits Hneed Hlen.
  pose proof (length_fmap astype (concat frames)) as Hmono.
  destruct (push_fields b frames) as (Hsr & _ & Hbuf & Hn).
  destruct (trim_keeps_last (max_frames b) (buf b) (astype <$> concat frames) _
              (push_total b frames Hb)) as [kept Hkept]; [lia|].
  rewrite Hkept in Hbuf, Hn. simpl in Hbuf, Hn.
  set (mono := astype <$> concat frames) in *.
  assert (Hheld : held (push b frames) = concat kept ++ mono).
  { unfold held. rewrite Hbuf, concat_app. simpl. by rewrite app_nil_r. }
  unfold snapshot_last. rewrite Hsr, Hneed. simpl. fold (held (push b frames)).
  rewrite Hheld, Hn.
  destruct (total (kept ++ [mono]) =? 0) eqn:E0.
  { apply Z.eqb_eq in E0. rewrite total_app, total_cons in E0.
    pose proof (total_nonneg kept). unfold total at 2 in E0. simpl in E0.
    exists []. destruct mono; [done|simpl in E0; lia]. }
  destruct (_ <=? need) eqn:E1; [by eexists|].
  apply Z.leb_gt in E1. rewrite length_app in E1.
  unfold slice_from. destruct (Z.ltb_spec (- need) 0) as [Hpos|Hzero].
  - rewrite drop_app_le by (rewrite length_app; lia). by eexists.
  - rewrite Z.min_l by lia.
    replace (Z.to_nat (- need)) with 0%nat by lia. by eexists.
Qed.

End Samples.

Lemma buffer_within_capacity_witness :
  exists b0 : AudioRingBuffer nat,
    __init__ (Float 1.5) 4 = Ret b0 /\
    max_frames b0 = 6 /\
    consistent (foldl (Buffer.push id) b0 [five_rows; two_rows]) /\
    0 <= n_frames (foldl (Buffer.push id) b0 [five_rows; two_rows])
      <= Z.max 0 (max_frames b0).
Proof.
  assert (H : exists b0 : AudioRingBuffer nat,
             __init__ (Float 1.5) 4 = Ret b0 /\ max_frames b0 = 6)
    by (eexists; split; vm_compute; reflexivity).
  destruct H as (b0 & H0 & Hmax). exists b0.
  destruct (buffer_within_capacity id (Float 1.5) 4 b0 [five_rows; two_rows] H0)
    as (Hc & Hr & _).
  split_and!; (done || lia).
Defined.

Lemma push_drops_oldest_only_witness :
  consistent three_of_four /\
  exists dropped,
    buf three_of_four ++ [id <$> concat two_rows] =
      dropped ++ buf (Buffer.push id three_of_four two_rows) /\
    forall d1 old d2,
      dropped = d1 ++ old :: d2 ->
      max_frames three_of_four <
        total (old :: d2 ++ buf (Buffer.push id three_of_four two_rows)).
Proof.
  assert (H : consistent three_of_four) by reflexivity.
  split; [exact H|]. exact (push_drops_oldest_only id three_of_four two_rows H).
Defined.

Lemma oversize_push_empties_witness :
  consistent three_of_four /\
  max_frames three_of_four < Z.of_nat (length (concat five_rows)) /\
  buf (Buffer.push id three_of_four five_rows) = [] /\
  n_frames (Buffer.push id three_of_four five_rows) = 0.
Proof.
  assert (H : consistent three_of_four) by reflexivity.
  assert (Hbig : max_frames three_of_four < Z.of_nat (length (concat five_rows)))
    by (simpl; lia).
  destruct (oversize_push_empties id three_of_four five_rows H Hbig) as [He Hn].
  split_and!; done.
Defined.

Lemma snapshot_last_window_witness :
  consistent three_of_four /\
  frames_in (Float 0.5) (sr three_of_four) = Ret 2 /\
  snapshot_last three_of_four (Float 0.5) = Ret [2; 3]%nat /\
  snapshot_last three_of_four (Int 0) = Ret [1; 2; 3]%nat.
Proof.
  assert (H : consistent three_of_four) by reflexivity.
  assert (H2 : frames_in (Float 0.5) (sr three_of_four) = Ret 2)
    by (vm_compute; reflexivity).
  assert (H0 : frames_in (Int 0) (sr three_of_four) = Ret 0) by reflexivity.
  split_and!; [done..| |].
  - exact (proj1 (snapshot_last_window three_of_four (Float 0.5) 2 H H2) eq_refl).
  - exact (proj1 (proj2 (snapshot_last_window three_of_four (Int 0) 0 H H0)) eq_refl).
Defined.

Lemma snapshot_ends_with_push_witness :
  exists older,
    snapshot_last (Buffer.push id three_of_four two_rows) (Float 0.5) =
    Ret (older ++ (id <$> concat two_rows)).
Proof.
  assert (H : consistent three_of_four) by reflexivity.
  assert (H2 : frames_in (Float 0.5) (sr three_of_four) = Ret 2)
    by (vm_compute; reflexivity).
  apply (snapshot_ends_with_push id three_of_four two_rows (Float 0.5) 2 H);
    [simpl; lia|exact H2|simpl; lia].
Defined.

End BufferFacts.

(** ** More on the resolver and the orchestrator *)

Module HybridLaws.

Import Plain Validator ValidatorSpec Consensus ConsensusSpec Decomposer Hybrid HybridSpec.
Import HybridTerms ValidatorLaws ConsensusFacts ConsensusLaws HybridFacts.

Section Runs.
Context (B : builtins) {world : Type}.
Context (local_model : list message -> list tool -> world -> sample * world).
Context (cloud_model : list message -> list tool -> world -> cloud_reply * world).

Local Abbreviation generate_cactus := (generate_cactus local_model).
Local Abbreviation sampling_loop := (sampling_loop B local_model).
Local Abbreviation _self_consistent_with_first := (_self_consistent_with_first B local_model).
Local Abbreviation _on_device := (_on_device B local_model).
Local Abbreviation resolve_within := (resolve_within B local_model).
Local Abbreviation _resolve := (_resolve B local_model).
Local Abbreviation generate_hybrid := (generate_hybrid B local_model cloud_model).

Lemma majority_member valid_runs n best :
  majority B valid_runs n = Ret (Some best) -> best ∈ valid_runs.
Proof.
  intros [_ Hmax]%majority_Some_inv.
  apply (max_by_first_greatest (@snd (list call) Q)) in Hmax as (pre & post & Hxs & _).
  assert (Hin : best ∈ filter (fun r => _fingerprint B r.1 = _fingerprint B best.1)
                         valid_runs).
  { rewrite Hxs. apply elem_of_app. right. by left. }
  by apply list_elem_of_filter in Hin as [_ ?].
Qed.

(** Where the runs of the pool come from. *)
Lemma sampling_loop_drawn k msgs tool_list valid_runs spent s valid_runs' spent' s' :
  sampling_loop k msgs tool_list valid_runs spent s = Done (valid_runs', spent') s' ->
  exists evs,
    st_trace s' = st_trace s ++ evs /\
    forall r, r ∈ valid_runs' ->
      r ∈ valid_runs \/ drawn_from B msgs tool_list evs r.1 r.2.
Proof.
  revert valid_runs spent s.
  induction k as [|k IH]; intros valid_runs spent s H; simpl in H.
  - run. exists []. rewrite app_nil_r. split; [done|]. by left.
  - run. apply generate_cactus_inv in Hrun.
    apply IH in H as (evs & Htr & Hfrom).
    exists (LocalCall msgs tool_list a :: evs).
    rewrite Htr, Hrun, <- app_assoc. split; [done|].
    intros r Hr. destruct (Hfrom r Hr) as [Hin|(reply & Hin & Hv & Hc)].
    + destruct b.
      * apply elem_of_app in Hin as [Hin|Hin]; [by left|].
        apply list_elem_of_singleton in Hin as ->. right.
        exists a. split; [by left|done].
      * by left.
    + right. exists reply. split; [by right|done].
Qed.

Lemma self_consistent_drawn first_run msgs tool_list n s x t s' :
  _self_consistent_with_first first_run msgs tool_list n s = Done (Some x, t) s' ->
  exists evs,
    st_trace s' = st_trace s ++ evs /\
    drawn_from B msgs tool_list (LocalCall msgs tool_list first_run :: evs)
      (function_calls x) (confidence x).
Proof.
  unfold Hybrid._self_consistent_with_first. intros H. run.
  apply sampling_loop_drawn in Hrun0 as (evs & Htr & Hfrom).
  exists evs. split; [done|].
  destruct a as [best|]; [|done]. simplify_eq. simpl.
  apply majority_member in Hrun1.
  destruct (Hfrom _ Hrun1) as [Hin|(reply & Hin & Hv & Hc)].
  - destruct b; [|by apply elem_of_nil in Hin].
    apply list_elem_of_singleton in Hin as ->.
    exists first_run. split; [by left|done].
  - exists reply. split; [by right|done].
Qed.

(** A run of [_on_device]: the first sample; then nothing more if it is
    accepted at once, and two further samples if it is not. *)
Lemma on_device_run threshold msgs tool_list s r t s' :
  _on_device threshold msgs tool_list s = Done (r, t) s' ->
  exists first rest,
    st_trace s' = st_trace s ++ LocalCall msgs tool_list first :: rest /\
    Forall (local_on msgs tool_list) rest /\
    length rest =
      (if accepted_at_once B threshold tool_list first then 0 else 2)%nat /\
    (r = None -> length rest = 2%nat) /\
    (forall x, r = Some x ->
       drawn_from B msgs tool_list (LocalCall msgs tool_list first :: rest)
         (function_calls x) (confidence x)).
Proof.
  unfold Hybrid._on_device. intros H. run.
  apply generate_cactus_inv in Hrun. exists a.
  unfold accepted_at_once. rewrite Hrun0.
  destruct b; simpl in *.
  - destruct (Qle_bool threshold (confidence a)) eqn:E.
    + run. exists []. split_and!; try done.
      intros x [= <-]. exists a. split; [by left|done].
    + pose proof H as H'.
      apply self_consistent_inv in H as (evs & Htr & Hloc & Hlen & _).
      exists evs. rewrite Htr, Hrun, <- app_assoc. split_and!; try done.
      intros x ->. apply self_consistent_drawn in H' as (evs' & Htr' & Hd).
      rewrite Htr in Htr'. by apply app_inv_head in Htr' as <-.
  - pose proof H as H'.
    apply self_consistent_inv in H as (evs & Htr & Hloc & Hlen & _).
    exists evs. rewrite Htr, Hrun, <- app_assoc. split_and!; try done.
    intros x ->. apply self_consistent_drawn in H' as (evs' & Htr' & Hd).
    rewrite Htr in Htr'. by apply app_inv_head in Htr' as <-.
Qed.

(** *** What the resolver returns has passed validation *)

Lemma drawn_passes msgs tool_list evs calls conf :
  drawn_from B msgs tool_list evs calls conf -> passes B tool_list calls.
Proof. intros (reply & _ & Hv & _). by apply validate_again in Hv. Qed.

Lemma validate_calls_app tm cs1 cs2 :
  validate_calls B tm cs1 = Ret (Some cs1) ->
  validate_calls B tm cs2 = Ret (Some cs2) ->
  validate_calls B tm (cs1 ++ cs2) = Ret (Some (cs1 ++ cs2)).
Proof.
  intros H1 H2. induction cs1 as [|c cs1 IH]; [done|].
  apply validate_calls_inv in H1 as (c' & rest & [= <- <-] & Hc & Hrest).
  simpl. rewrite Hc. simpl. by rewrite (IH Hrest).
Qed.

Lemma passes_app tool_list cs1 cs2 :
  passes B tool_list cs1 -> passes B tool_list cs2 ->
  passes B tool_list (cs1 ++ cs2).
Proof.
  unfold passes. rewrite !validate_true_iff. intros [Hne1 H1] [Hne2 H2].
  split; [by destruct cs1|]. by apply validate_calls_app.
Qed.

Lemma resolve_parts_passes tool_list
    (resolve : string -> M world (option (list call) * float))
    parts all_calls total_time s calls t s' :
  (forall part s r t s', resolve part s = Done (Some r, t) s' -> passes B tool_list r) ->
  all_calls = [] /\ parts <> [] \/ passes B tool_list all_calls ->
  resolve_parts resolve parts all_calls total_time s = Done (Some calls, t) s' ->
  passes B tool_list calls.
Proof.
  intros Hres. revert all_calls total_time s.
  induction parts as [|part parts IH]; intros all_calls total_time s Hacc H;
    simpl in H.
  - run. by destruct Hacc as [[_ ?]|?].
  - run. destruct o as [part_calls|]; [|by run].
    apply Hres in Hrun. apply IH in H; [done|]. right.
    destruct Hacc as [[-> _]|Hacc]; [done|]. by apply passes_app.
Qed.

Lemma resolve_within_passes fuel threshold non_user tools content depth max_depth
    s calls t s' :
  resolve_within fuel threshold non_user tools content depth max_depth s =
    Done (Some calls, t) s' ->
  passes B tools calls.
Proof.
  revert content depth s calls t s'.
  induction fuel as [|fuel IH]; intros content depth s calls t s' H; simpl in H;
    [done|].
  run. destruct o as [result|].
  { run. apply on_device_run in Hrun as (first & rest & _ & _ & _ & _ & Hd).
    by eapply drawn_passes, Hd. }
  destruct (depth <? max_depth)%nat; [|by run].
  destruct (1 <? length (_decompose content))%nat eqn:E; [|by run].
  apply Nat.ltb_lt in E.
  eapply resolve_parts_passes in H; [done| |].
  - intros part s1 r1 t1 s1' Hpart. by apply IH in Hpart.
  - left. split; [done|]. intros Hnil. rewrite Hnil in E. simpl in E. lia.
Qed.

(** *** To whom the calls of a run are addressed *)

Lemma resolve_parts_events (P : event -> Prop)
    (resolve : string -> M world (option (list call) * float))
    parts all_calls total_time s r t s' :
  (forall part s r t s',
      resolve part s = Done (r, t) s' ->
      exists evs, st_trace s' = st_trace s ++ evs /\ Forall P evs) ->
  resolve_parts resolve parts all_calls total_time s = Done (r, t) s' ->
  exists evs, st_trace s' = st_trace s ++ evs /\ Forall P evs.
Proof.
  intros Hres. revert all_calls total_time s.
  induction parts as [|part parts IH]; intros all_calls total_time s H; simpl in H.
  - run. exists []. by rewrite app_nil_r.
  - run. apply Hres in Hrun as (evs1 & Htr1 & H1).
    destruct o as [part_calls|].
    + apply IH in H as (evs2 & Htr2 & H2). exists (evs1 ++ evs2).
      rewrite Htr2, Htr1, <- app_assoc. split; [done|]. by apply Forall_app.
    + run. by exists evs1.
Qed.

Lemma resolve_within_events fuel threshold non_user tools content depth max_depth
    s r t s' :
  resolve_within fuel threshold non_user tools content depth max_depth s =
    Done (r, t) s' ->
  exists evs,
    st_trace s' = st_trace s ++ evs /\ Forall (sub_request non_user tools) evs.
Proof.
  revert content depth s r t s'.
  induction fuel as [|fuel IH]; intros content depth s r t s' H; simpl in H;
    [done|].
  run. apply on_device_inv in Hrun as (first & rest & Htr0 & Hloc0 & _).
  set (evs0 := LocalCall (non_user ++ [Message "user" content]) tools first :: rest) in *.
  assert (Hsub0 : Forall (sub_request non_user tools) evs0).
  { constructor; [by exists content, first|].
    eapply Forall_impl; [exact Hloc0|]. intros e He. by exists content. }
  destruct o as [result|]; [run; by exists evs0|].
  destruct (depth <? max_depth)%nat; [|run; by exists evs0].
  destruct (1 <? length (_decompose content))%nat; [|run; by exists evs0].
  apply (resolve_parts_events (sub_request non_user tools)) in H
    as (evs1 & Htr1 & Hsub1).
  - exists (evs0 ++ evs1). rewrite Htr1, Htr0, <- app_assoc.
    split; [done|]. by apply Forall_app.
  - intros part s1 r1 t1 s1' Hpart. by apply IH in Hpart.
Qed.

(** The three ways a request runs: an answer of [_on_device] on the
    whole request; after three samples of it, the merged answers of the
    parts; or, after these three and what the parts took, the cloud. *)
Lemma hybrid_run threshold messages tools s res s' :
  generate_hybrid messages tools threshold s = Done res s' ->
  exists first rest more,
    Forall (local_on messages tools) rest /\
    Forall (sub_request (filter (fun m => role m ≠ "user") messages) tools) more /\
    ((exists x,
         res = HybridResult (function_calls x) (total_time_ms x) "on-device"
                 (Some (confidence x)) /\
         drawn_from B messages tools (LocalCall messages tools first :: rest)
           (function_calls x) (confidence x) /\
         more = [] /\
         st_trace s' = st_trace s ++ LocalCall messages tools first :: rest) \/
     (length rest = 2%nat /\
      (exists calls t,
          res = HybridResult calls t "on-device" None /\ passes B tools calls) /\
      st_trace s' = st_trace s ++ LocalCall messages tools first :: rest ++ more) \/
     (length rest = 2%nat /\
      exists reply t,
        res = HybridResult (cloud_function_calls reply) t "cloud (fallback)" None /\
        st_trace s' =
          st_trace s ++ LocalCall messages tools first :: rest ++ more
            ++ [CloudCall messages tools reply])).
Proof.
  unfold Hybrid.generate_hybrid. intros H. run.
  apply on_device_run in Hrun as (first & rest & Htr0 & Hloc0 & _ & Hnone & Hd).
  exists first, rest.
  destruct o as [result|].
  { run. exists []. split_and!; [done..|]. left. exists result.
    split_and!; [done|by apply Hd|done|done]. }
  specialize (Hnone eq_refl).
  assert (Hcloud : forall more s1 spent,
             Forall (sub_request (filter (fun m => role m ≠ "user") messages) tools) more ->
             st_trace s1 = st_trace s0 ++ more ->
             cloud_fallback cloud_model messages tools spent s1 = Done res s' ->
             exists more,
               Forall (local_on messages tools) rest /\
               Forall (sub_request (filter (fun m => role m ≠ "user") messages) tools) more /\
               ((exists x,
                    res = HybridResult (function_calls x) (total_time_ms x) "on-device"
                            (Some (confidence x)) /\
                    drawn_from B messages tools (LocalCall messages tools first :: rest)
                      (function_calls x) (confidence x) /\
                    more = [] /\
                    st_trace s' = st_trace s ++ LocalCall messages tools first :: rest) \/
                (length rest = 2%nat /\
                 (exists calls t,
                     res = HybridResult calls t "on-device" None /\ passes B tools calls) /\
                 st_trace s' = st_trace s ++ LocalCall messages tools first :: rest ++ more) \/
                (length rest = 2%nat /\
                 exists reply t,
                   res = HybridResult (cloud_function_calls reply) t "cloud (fallback)" None /\
                   st_trace s' =
                     st_trace s ++ LocalCall messages tools first :: rest ++ more
                       ++ [CloudCall messages tools reply]))).
  { intros more s1 spent Hmore Htr1 Hfb.
    apply cloud_fallback_inv in Hfb as (reply & Htr & ->).
    exists more. split_and!; [done..|]. right. right. split; [done|].
    exists reply, (cloud_total_time_ms reply + spent)%float. split; [done|].
    by rewrite Htr, Htr1, Htr0, <- !app_assoc. }
  destruct (last _) as [m|]; [|apply (Hcloud [] s0 f); [done|by rewrite app_nil_r|done]].
  destruct (1 <? length (_decompose (content m)))%nat eqn:E;
    [|apply (Hcloud [] s0 f); [done|by rewrite app_nil_r|done]].
  apply Nat.ltb_lt in E. run.
  pose proof Hrun as Hev.
  apply (resolve_parts_events
           (sub_request (filter (fun m => role m ≠ "user") messages) tools))
    in Hev as (more & Htr1 & Hmore);
    [|intros part s2 r2 t2 s2' Hpart; by apply resolve_within_events in Hpart].
  destruct o as [all_calls|]; [|by apply (Hcloud more s1 f0)].
  run. exists more. split_and!; [done..|]. right. left. split; [done|]. split.
  - exists all_calls, f0. split; [done|].
    eapply resolve_parts_passes in Hrun; [done| |].
    + intros part s2 r2 t2 s2' Hpart. by apply resolve_within_passes in Hpart.
    + left. split; [done|]. intros Hnil. rewrite Hnil in E. simpl in E. lia.
  - rewrite Htr1, Htr0, <- !app_assoc. done.
Qed.

(** X18: [_on_device] draws one sample when the first one is valid and
    confident enough, and three when it is not, whatever the second and
    the third sample say; all of them on the messages and tools given. *)
Theorem on_device_one_or_three threshold msgs tool_list s r t s' :
  _on_device threshold msgs tool_list s = Done (r, t) s' ->
  exists first rest,
    st_trace s' = st_trace s ++ LocalCall msgs tool_list first :: rest /\
    Forall (local_on msgs tool_list) rest /\
    length rest =
      (if accepted_at_once B threshold tool_list first then 0 else 2)%nat.
Proof.
  intros (first & rest & Htr & Hloc & Hlen & _)%on_device_run.
  by exists first, rest.
Qed.

(** X19: an answer of [_on_device] is never made up: its calls are the
    corrected calls of one of the samples drawn in this run, its
    confidence is the confidence of that sample, and its calls pass
    validation as they are. *)
Theorem on_device_answer_drawn threshold msgs tool_list s x t s' :
  _on_device threshold msgs tool_list s = Done (Some x, t) s' ->
  exists evs,
    st_trace s' = st_trace s ++ evs /\
    drawn_from B msgs tool_list evs (function_calls x) (confidence x) /\
    passes B tool_list (function_calls x).
Proof.
  intros (first & rest & Htr & _ & _ & _ & Hd)%on_device_run.
  specialize (Hd x eq_refl).
  exists (LocalCall msgs tool_list first :: rest).
  split_and!; [done..|]. by eapply drawn_passes.
Qed.

(** X20: the calls of every result with source [on-device], merged
    from parts or not, pass validation against the tools of the request
    and come back from it unchanged. *)
Theorem hybrid_on_device_passes threshold messages tools s res s' :
  generate_hybrid messages tools threshold s = Done res s' ->
  result_source res = "on-device" ->
  passes B tools (result_function_calls res).
Proof.
  intros (first & rest & more & _ & _ & Hcases)%hybrid_run Hsrc.
  destruct Hcases as [(x & -> & Hd & _)|[(_ & (calls & t & -> & Hp) & _)|
                      (_ & reply & t & -> & _)]]; simpl in *.
  - by eapply drawn_passes.
  - done.
  - done.
Qed.

(** X21: on every path through [generate_hybrid] the calls to the
    local model are those of one attempt, on the whole request and then
    on its parts. A result with source [on-device] has made no other
    call, and its total time is the time of that attempt: the binary64
    sum of the durations of these calls in the grouping of the code. A
    result with source [cloud (fallback)] has then called the cloud
    once, last, with the messages and tools of the request; it holds
    the calls of that reply, and its total time is the duration of the
    reply plus the time of the attempt. *)
Theorem every_run_accounted threshold messages tools s res s' :
  generate_hybrid messages tools threshold s = Done res s' ->
  exists l,
    Forall is_local (ledger_events l) /\
    ((result_source res = "on-device" /\
      st_trace s' = st_trace s ++ ledger_events l /\
      result_total_time_ms res = ledger_time l) \/
     (result_source res = "cloud (fallback)" /\
      exists reply,
        st_trace s' = st_trace s ++ ledger_events l ++ [CloudCall messages tools reply] /\
        result_total_time_ms res = (cloud_total_time_ms reply + ledger_time l)%float /\
        result_function_calls res = cloud_function_calls reply)).
Proof.
  intros (_ & l & Hloc & Hcases)%generate_hybrid_inv.
  exists l. split; [done|].
  destruct Hcases as [(Hsrc & Htr & Htime & _)|(Hsrc & reply & Htr & Htime & Hcalls & _)].
  - by left.
  - right. split; [done|]. by exists reply.
Qed.

(** X22: the cloud is never called before the local model has been
    asked three times about the whole request: a run that ends in the
    cloud begins with three local inferences on the messages and tools
    of the request, and calls only the local model before the cloud. *)
Theorem cloud_after_three_samples threshold messages tools s res s' :
  generate_hybrid messages tools threshold s = Done res s' ->
  result_source res = "cloud (fallback)" ->
  exists r1 r2 r3 more reply,
    st_trace s' =
      st_trace s ++
      [LocalCall messages tools r1; LocalCall messages tools r2;
       LocalCall messages tools r3] ++ more ++ [CloudCall messages tools reply] /\
    Forall is_local more.
Proof.
  intros (first & rest & more & Hrest & Hmore & Hcases)%hybrid_run Hsrc.
  destruct Hcases as [(x & -> & _)|[(_ & (calls & t & -> & _) & _)|
                      (Hlen & reply & t & -> & Htr)]]; [done..|].
  destruct rest as [|e2 [|e3 [|]]]; try done.
  apply Forall_cons in Hrest as [[r2 ->] Hrest].
  apply Forall_cons in Hrest as [[r3 ->] _].
  exists first, r2, r3, more, reply. split; [done|].
  eapply Forall_impl; [exact Hmore|]. intros e [part He].
  by eapply local_on_is_local.
Qed.

(** X23: every call of a run gets the tools of the request unchanged;
    the cloud gets the messages of the request, and the local model
    gets either these or the non-user messages of the request followed
    by a single user message. *)
Theorem calls_addressed threshold messages tools s res s' :
  generate_hybrid messages tools threshold s = Done res s' ->
  exists evs,
    st_trace s' = st_trace s ++ evs /\ Forall (addressed messages tools) evs.
Proof.
  intros (first & rest & more & Hrest & Hmore & Hcases)%hybrid_run.
  assert (Hrest' : Forall (addressed messages tools) rest).
  { eapply Forall_impl; [exact Hrest|]. intros e [reply ->]. simpl. auto. }
  assert (Hmore' : Forall (addressed messages tools) more).
  { eapply Forall_impl; [exact Hmore|]. intros e (part & reply & ->). simpl.
    split; [done|]. right. by exists part. }
  assert (Hfirst : addressed messages tools (LocalCall messages tools first))
    by (simpl; auto).
  destruct Hcases as [(x & _ & _ & _ & Htr)|[(_ & _ & Htr)|
                      (_ & reply & t & _ & Htr)]]; eexists; (split; [exact Htr|]).
  - by constructor.
  - constructor; [done|]. by apply Forall_app.
  - constructor; [done|]. rewrite !Forall_app. split_and!; [done..|].
    by constructor.
Qed.

(** X24: one valid run is never a consensus: when at most one of the
    samples is valid, [_self_consistent_with_first] returns [None],
    whatever [n] and whatever the confidence of that run. *)
Theorem lone_valid_run_rejected first_run msgs tool_list n s valid_runs spent s' :
  pool B local_model first_run msgs tool_list n s = Done (valid_runs, spent) s' ->
  (length valid_runs <= 1)%nat ->
  _self_consistent_with_first first_run msgs tool_list n s = Done (None, spent) s'.
Proof.
  intros Hpool Hlen. rewrite self_consistent_pool.
  unfold bind at 1. rewrite Hpool. simpl.
  assert (Hnone : majority B valid_runs n = Ret None).
  { apply majority_spec.
    pose proof (top_count_le_length (fingerprints B valid_runs)) as Htop.
    unfold fingerprints in Htop at 2. rewrite length_fmap in Htop.
    pose proof (threshold_at_least_two n). lia. }
  unfold bind, lift. by rewrite Hnone.
Qed.

End Runs.

Lemma on_device_one_or_three_witness :
  exists (r : option sample) t s' first rest,
    _on_device plain tape_local (99 # 100) plain_request two_tools
      (State [unsure "f" 1; hit "g" 2; hit "g" 4] []) = Done (r, t) s' /\
    st_trace s' = [] ++ LocalCall plain_request two_tools first :: rest /\
    Forall (local_on plain_request two_tools) rest /\
    length rest =
      (if accepted_at_once plain (99 # 100) two_tools first then 0 else 2)%nat.
Proof.
  assert (Hrun : exists r t s',
             _on_device plain tape_local (99 # 100) plain_request two_tools
               (State [unsure "f" 1; hit "g" 2; hit "g" 4] []) = Done (r, t) s')
    by (eexists _, _, _; vm_compute; reflexivity).
  destruct Hrun as (r & t & s' & Hrun).
  destruct (on_device_one_or_three plain tape_local _ _ _ _ _ _ _ Hrun)
    as (first & rest & H).
  by exists r, t, s', first, rest.
Defined.

Lemma on_device_answer_drawn_witness :
  exists x t s' evs,
    _on_device plain tape_local (99 # 100) plain_request two_tools
      (State [unsure "f" 1; hit "g" 2; hit "g" 4] []) = Done (Some x, t) s' /\
    function_calls x = [Call "g" []] /\
    st_trace s' = [] ++ evs /\
    drawn_from plain plain_request two_tools evs (function_calls x) (confidence x) /\
    passes plain two_tools (function_calls x).
Proof.
  assert (Hrun : exists x t s',
             _on_device plain tape_local (99 # 100) plain_request two_tools
               (State [unsure "f" 1; hit "g" 2; hit "g" 4] []) = Done (Some x, t) s' /\
             function_calls x = [Call "g" []])
    by (eexists _, _, _; split; vm_compute; reflexivity).
  destruct Hrun as (x & t & s' & Hrun & Hx).
  destruct (on_device_answer_drawn plain tape_local _ _ _ _ _ _ _ Hrun)
    as (evs & H).
  by exists x, t, s', evs.
Defined.

Lemma hybrid_on_device_passes_witness :
  exists res s',
    generate_hybrid plain tape_local tape_cloud compound_request two_tools (99 # 100)
      (State all_parts_tape []) = Done res s' /\
    result_source res = "on-device" /\
    result_function_calls res = [Call "f" []; Call "g" []; Call "f" []] /\
    passes plain two_tools (result_function_calls res).
Proof.
  assert (Hrun : exists res s',
             generate_hybrid plain tape_local tape_cloud compound_request two_tools
               (99 # 100) (State all_parts_tape []) = Done res s' /\
             result_source res = "on-device" /\
             result_function_calls res = [Call "f" []; Call "g" []; Call "f" []])
    by (eexists _, _; split_and!; vm_compute; reflexivity).
  destruct Hrun as (res & s' & Hrun & Hsrc & Hcalls).
  exists res, s'. split_and!; [done..|].
  exact (hybrid_on_device_passes plain tape_local tape_cloud _ _ _ _ _ _ Hrun Hsrc).
Defined.

Lemma every_run_accounted_witness :
  exists res s' l,
    generate_hybrid plain tape_local tape_cloud plain_request two_tools (99 # 100)
      (State [unsure "f" 1; hit "g" 2; miss 4] []) = Done res s' /\
    result_total_time_ms res = 107%float /\
    Forall is_local (ledger_events l) /\
    ((result_source res = "on-device" /\
      st_trace s' = [] ++ ledger_events l /\
      result_total_time_ms res = ledger_time l) \/
     (result_source res = "cloud (fallback)" /\
      exists reply,
        st_trace s' =
          [] ++ ledger_events l ++ [CloudCall plain_request two_tools reply] /\
        result_total_time_ms res = (cloud_total_time_ms reply + ledger_time l)%float /\
        result_function_calls res = cloud_function_calls reply)).
Proof.
  assert (Hrun : exists res s',
             generate_hybrid plain tape_local tape_cloud plain_request two_tools
               (99 # 100) (State [unsure "f" 1; hit "g" 2; miss 4] []) = Done res s' /\
             result_total_time_ms res = 107%float)
    by (eexists _, _; split_and!; vm_compute; reflexivity).
  destruct Hrun as (res & s' & Hrun & Htime).
  destruct (every_run_accounted plain tape_local tape_cloud _ _ _ _ _ _ Hrun)
    as (l & Hloc & Hcases).
  by exists res, s', l.
Defined.

Lemma cloud_after_three_samples_witness :
  exists res s' r1 r2 r3 more reply,
    generate_hybrid plain tape_local tape_cloud compound_request two_tools (99 # 100)
      (State second_part_fails_tape []) = Done res s' /\
    result_source res = "cloud (fallback)" /\
    st_trace s' =
      [] ++
      [LocalCall compound_request two_tools r1; LocalCall compound_request two_tools r2;
       LocalCall compound_request two_tools r3] ++ more
      ++ [CloudCall compound_request two_tools reply] /\
    Forall is_local more.
Proof.
  assert (Hrun : exists res s',
             generate_hybrid plain tape_local tape_cloud compound_request two_tools
               (99 # 100) (State second_part_fails_tape []) = Done res s' /\
             result_source res = "cloud (fallback)")
    by (eexists _, _; split; vm_compute; reflexivity).
  destruct Hrun as (res & s' & Hrun & Hsrc).
  destruct (cloud_after_three_samples plain tape_local tape_cloud _ _ _ _ _ _ Hrun Hsrc)
    as (r1 & r2 & r3 & more & reply & H).
  by exists res, s', r1, r2, r3, more, reply.
Defined.

Lemma calls_addressed_witness :
  exists res s' evs,
    generate_hybrid plain tape_local tape_cloud compound_request two_tools (99 # 100)
      (State second_part_fails_tape []) = Done res s' /\
    st_trace s' = [] ++ evs /\
    Forall (addressed compound_request two_tools) evs.
Proof.
  assert (Hrun : exists res s',
             generate_hybrid plain tape_local tape_cloud compound_request two_tools
               (99 # 100) (State second_part_fails_tape []) = Done res s')
    by (eexists _, _; vm_compute; reflexivity).
  destruct Hrun as (res & s' & Hrun).
  destruct (calls_addressed plain tape_local tape_cloud _ _ _ _ _ _ Hrun)
    as (evs & H).
  by exists res, s', evs.
Defined.

Lemma lone_valid_run_rejected_witness :
  exists s',
    pool plain tape_local (unsure "f" 1) plain_request two_tools 3
      (State [miss 2; miss 4] []) = Done ([([Call "f" []], 1 # 2)], 7%float) s' /\
    _self_consistent_with_first plain tape_local (unsure "f" 1) plain_request
      two_tools 3 (State [miss 2; miss 4] []) = Done (None, 7%float) s'.
Proof.
  assert (Hrun : exists s',
             pool plain tape_local (unsure "f" 1) plain_request two_tools 3
               (State [miss 2; miss 4] []) = Done ([([Call "f" []], 1 # 2)], 7%float) s')
    by (eexists; vm_compute; reflexivity).
  destruct Hrun as (s' & Hrun). exists s'. split; [exact Hrun|].
  apply (lone_valid_run_rejected plain tape_local _ _ _ _ _ _ _ _ Hrun).
  simpl. lia.
Defined.

End HybridLaws.

(** ** From the calls to a recipient and a message *)

Module IntentFacts.

Import Plain Validator ValidatorSpec ValidatorShapes Hybrid HybridSpec HybridTerms.
Import Intent IntentTerms TextFacts ValidatorFacts ValidatorLaws HybridFacts HybridLaws.

Lemma dict_get_elem k args :
  k ∈ args.*1 -> exists v, dict_get k args = Some v /\ (k, v) ∈ args.
Proof.
  induction args as [|[k' v'] args IH]; simpl; [by intros ?%elem_of_nil|].
  destruct (String.eqb_spec k' k) as [->|Hne].
  - intros _. exists v'. split; [done|by left].
  - intros [?|Hin]%elem_of_cons; [done|].
    destruct (IH Hin) as (v & ? & ?). exists v. split; [done|by right].
Qed.

Lemma stripped_strip v s : stripped v = Ret s -> strip s = s.
Proof.
  destruct v as [[]|]; simpl; try (intros [= <-]; apply strip_idemp);
    try (destruct (_ : bool); [done|intros [= <-]; apply strip_idemp]).
Qed.

Lemma stripped_raises v e : stripped v = Raise e -> e = OtherException.
Proof.
  destruct v as [[]|]; simpl; try done;
    (destruct (_ : bool); [by intros [= <-]|done]).
Qed.

Lemma first_send_raises calls e : first_send calls = Raise e -> e = OtherException.
Proof.
  induction calls as [|c calls IH]; simpl; [done|].
  destruct (String.eqb _ _); [|done].
  destruct (stripped (dict_get "recipient" _)) as [r|e1] eqn:Hr; simpl;
    [|intros [= <-]; by eapply stripped_raises].
  destruct (stripped (dict_get "message" _)) as [m|e2] eqn:Hm; simpl;
    [|intros [= <-]; by eapply stripped_raises].
  by destruct (_ && _).
Qed.

(** A call that passed validation against the one tool has a [str]
    under both keys. *)
Lemma settled_send c :
  settled [TOOL_WHATSAPP_SEND] c ->
  exists r m,
    dict_get "recipient" (arguments c) = Some (VStr r) /\
    dict_get "message" (arguments c) = Some (VStr m).
Proof.
  intros (t & Ht & Hreq & Hargs).
  apply declared_name in Ht as [Ht%list_elem_of_singleton _]. subst t.
  assert (Hkey : forall k, k ∈ ["recipient"; "message"] ->
            exists s, dict_get k (arguments c) = Some (VStr s)).
  { intros k Hk. destruct (dict_get_elem k (arguments c)) as (v & Hget & Hin).
    { by apply Hreq. }
    assert (Hty : props_of TOOL_WHATSAPP_SEND !! k = Some "string").
    { rewrite !elem_of_cons, elem_of_nil in Hk.
      destruct Hk as [->|[->|[]]]; by vm_compute. }
    destruct (Hargs k v "string" Hin Hty) as [[s ->] _]. by exists s. }
  destruct (Hkey "recipient") as [r Hr]; [by left|].
  destruct (Hkey "message") as [m Hm]; [by right; left|].
  by exists r, m.
Qed.

Lemma first_send_settled calls :
  Forall (settled [TOOL_WHATSAPP_SEND]) calls -> exists o, first_send calls = Ret o.
Proof.
  induction 1 as [|c calls Hc _ [o IH]]; simpl; [by eexists|].
  destruct (String.eqb _ _); [|by eexists].
  destruct (settled_send c Hc) as (r & m & -> & ->). simpl.
  destruct (_ && _); by eexists.
Qed.

Lemma first_send_found calls r m :
  first_send calls = Ret (Some (r, m)) ->
  exists before c after,
    calls = before ++ c :: after /\
    Forall (fun c' => first_send [c'] = Ret None) before /\
    name c = "whatsapp_send" /\
    stripped (dict_get "recipient" (arguments c)) = Ret r /\
    stripped (dict_get "message" (arguments c)) = Ret m /\
    r <> "" /\ m <> "".
Proof.
  induction calls as [|c calls IH]; simpl; [done|].
  assert (Hskip : first_send [c] = Ret None -> first_send calls = Ret (Some (r, m)) ->
    exists before c0 after,
      c :: calls = before ++ c0 :: after /\
      Forall (fun c' => first_send [c'] = Ret None) before /\
      name c0 = "whatsapp_send" /\
      stripped (dict_get "recipient" (arguments c0)) = Ret r /\
      stripped (dict_get "message" (arguments c0)) = Ret m /\
      r <> "" /\ m <> "").
  { intros Hc (before & c0 & after & -> & Hb & H)%IH.
    exists (c :: before), c0, after. split; [done|]. split; [by constructor|done]. }
  destruct (String.eqb (name c) "whatsapp_send") eqn:En.
  - destruct (stripped (dict_get "recipient" _)) as [r'|] eqn:Hr; [simpl|done].
    destruct (stripped (dict_get "message" _)) as [m'|] eqn:Hm; [simpl|done].
    destruct (negb (String.eqb r' "") && negb (String.eqb m' "")) eqn:E.
    + intros [= <- <-]. exists [], c, calls.
      apply andb_true_iff in E as [E1%negb_true_iff%String.eqb_neq
                                   E2%negb_true_iff%String.eqb_neq].
      apply String.eqb_eq in En. by split_and!.
    + apply Hskip. simpl. by rewrite En, Hr, Hm; simpl; rewrite E.
  - apply Hskip. simpl. by rewrite En.
Qed.

Section Runs.
Context (B : builtins) {world : Type}.
Context (local_model : list message -> list tool -> world -> sample * world).
Context (cloud_model : list message -> list tool -> world -> cloud_reply * world).

Local Abbreviation extract_with_hybrid_llm :=
  (extract_with_hybrid_llm B local_model cloud_model).
Local Abbreviation asked text :=
  (generate_hybrid B local_model cloud_model
     [Message "system" SYSTEM_PROMPT; Message "user" text] [TOOL_WHATSAPP_SEND]
     confidence_threshold).

(** X25: when [generate_hybrid] returns a result, as it does on local
    replies of the documented shape, [extract_with_hybrid_llm] raises
    only after a fallback to the cloud. With source [on-device] it
    returns: the calls of such a result have passed validation, so each
    has a [str] under [recipient] and under [message]. What it raises
    on a result from the cloud is the [AttributeError] of [strip] on a
    value that is not a [str]. *)
Theorem extraction_fails_only_on_cloud text s res s' :
  asked text s = Done res s' ->
  (result_source res = "on-device" ->
   exists o, extract_with_hybrid_llm text s = Done o s') /\
  (forall e,
      extract_with_hybrid_llm text s = Failed e ->
      result_source res = "cloud (fallback)" /\
      first_send (result_function_calls res) = Raise e /\
      e = OtherException).
Proof.
  intros Hrun.
  assert (Hlocal : result_source res = "on-device" ->
                   exists o, first_send (result_function_calls res) = Ret o).
  { intros Hsrc.
    pose proof (hybrid_run _ _ _ _ _ _ _ _ _ Hrun)
      as (first & rest & more & _ & _ & Hcases).
    assert (Hp : passes B [TOOL_WHATSAPP_SEND] (result_function_calls res)).
    { destruct Hcases as [(x & -> & Hd & _)|[(_ & (calls & t & -> & Hp) & _)|
                          (_ & reply & t & -> & _)]]; simpl in *;
        [by eapply drawn_passes|done|done]. }
    by apply validated_settled, first_send_settled in Hp. }
  unfold Intent.extract_with_hybrid_llm, bind. rewrite Hrun. unfold lift. split.
  - intros Hsrc. destruct (Hlocal Hsrc) as [o ->]. by exists o.
  - intros e.
    destruct (first_send (result_function_calls res)) as [o|e'] eqn:Hsend; [done|].
    intros [= ->]. split_and!; [|done|by eapply first_send_raises].
    destruct (generate_hybrid_inv _ _ _ _ _ _ _ _ _ Hrun) as [[Hsrc|Hsrc] _]; [|done].
    destruct (Hlocal Hsrc) as [o Ho]. congruence.
Qed.

(** X26: a pair returned by [extract_with_hybrid_llm] comes from one
    call of the result of [generate_hybrid], the first call named
    [whatsapp_send] whose recipient and message are both present after
    stripping; both texts are non-empty and free of blanks at both
    ends. *)
Theorem extraction_sound text s r m s' :
  extract_with_hybrid_llm text s = Done (Some (r, m)) s' ->
  r <> "" /\ m <> "" /\ strip r = r /\ strip m = m /\
  exists res before c after,
    asked text s = Done res s' /\
    result_function_calls res = before ++ c :: after /\
    Forall (fun c' => first_send [c'] = Ret None) before /\
    name c = "whatsapp_send" /\
    stripped (dict_get "recipient" (arguments c)) = Ret r /\
    stripped (dict_get "message" (arguments c)) = Ret m.
Proof.
  unfold Intent.extract_with_hybrid_llm. intros H. run.
  apply first_send_found in H
    as (before & c & after & Hcalls & Hb & Hn & Hr & Hm & Hr0 & Hm0).
  split_and!; [done|done|by eapply stripped_strip|by eapply stripped_strip|].
  by exists a, before, c, after.
Qed.

End Runs.

Lemma extraction_fails_only_on_cloud_witness :
  exists res s',
    generate_hybrid plain tape_local odd_cloud
      [Message "system" SYSTEM_PROMPT; Message "user" "send hi to Ann"]
      [TOOL_WHATSAPP_SEND] confidence_threshold (State [] []) = Done res s' /\
    extract_with_hybrid_llm plain tape_local odd_cloud "send hi to Ann" (State [] []) =
      Failed OtherException /\
    result_source res = "cloud (fallback)" /\
    first_send (result_function_calls res) = Raise OtherException.
Proof.
  assert (Hrun : exists res s',
             generate_hybrid plain tape_local odd_cloud
               [Message "system" SYSTEM_PROMPT; Message "user" "send hi to Ann"]
               [TOOL_WHATSAPP_SEND] confidence_threshold (State [] []) = Done res s')
    by (eexists _, _; vm_compute; reflexivity).
  destruct Hrun as (res & s' & Hrun).
  assert (H : extract_with_hybrid_llm plain tape_local odd_cloud "send hi to Ann"
                (State [] []) = Failed OtherException)
    by (vm_compute; reflexivity).
  destruct (extraction_fails_only_on_cloud plain tape_local odd_cloud _ _ _ _ Hrun)
    as [_ Hfail].
  destruct (Hfail _ H) as (Hsrc & Hsend & _).
  by exists res, s'.
Defined.

Lemma extraction_sound_witness :
  exists s',
    extract_with_hybrid_llm plain tape_local tape_cloud "send hi to Ann"
      (State [send_to_ann] []) = Done (Some ("Ann", "hi")) s' /\
    strip "Ann" = "Ann" /\ strip "hi" = "hi".
Proof.
  assert (H : exists s',
             extract_with_hybrid_llm plain tape_local tape_cloud "send hi to Ann"
               (State [send_to_ann] []) = Done (Some ("Ann", "hi")) s')
    by (eexists; vm_compute; reflexivity).
  destruct H as [s' H]. exists s'. split; [exact H|].
  destruct (extraction_sound plain tape_local tape_cloud _ _ _ _ _ H)
    as (_ & _ & Hr & Hm & _).
  by split.
Defined.

End IntentFacts.
